(** * topo_order_commits: a shallow embedding of [topo_order_commits.py]

    The script walks the [.git] directory of a repository, builds the commit
    graph reachable from the local branch heads, sorts it topologically with
    Kahn's algorithm and prints it with "sticky" separator lines.

    Modelling conventions.
    - A Python [str] is a [string]; one [ascii] stands for one code point, so
      the model covers texts whose code points are below 256.
    - A Python [dict] is an association list in insertion order; a well-formed
      one has no repeated key ([dict_ok]).
    - A Python [set] of strings is a duplicate-free list.  The order in which
      Python goes through a set, or which member [pop] takes, is not
      specified.  [topo_sort] and [print_topo_sort] are given a graph whose
      lists stand in that order, and their theorems hold for every graph.
      Where the script itself makes the sets ([make_commit_graph]) the order
      comes from a [schedule]: the member popped and the order of an
      iteration are the permutation that the next number of the schedule
      selects ([reorder]), every permutation being selected by some number.
      In the script as a whole the schedule also gives the order of the sets
      of the nodes, once for the copy that the sorter makes and once for the
      printer ([arrange]).  The theorems hold for every schedule.
    - Code that can raise or exit returns a [res]: [Ok v], or [Err f] with the
      failure [f] that ends the process.
    - A file is what the script can get out of it: whether [open] succeeds,
      its text, and the text of its bytes once decompressed ([file]).
    - A [while] loop takes fuel, and [None] stands for a loop that has not
      ended within it.  [topo_sort] hands its loop a fuel that is shown to be
      enough on every graph ([topo_sort_total]); the Graph Builder is given
      its fuel by the caller, and [builder_fuel] is shown to be enough for
      every schedule.
    - Writing to standard output and to the error stream does not fail.
    - The scalar attribute and the two sets of a node are one value; where the
      identity of the node objects matters (what [topo_sort] does to the graph
      of its caller), the nodes live in a [store] and a graph is a dictionary
      of references. *)

From Stdlib Require Import String Ascii.
From stdpp Require Import base tactics option list strings sorting relations sets.

Open Scope string_scope.
Open Scope list_scope.
Open Scope nat_scope.

Set Warnings "-clear-no-such-hyp".

(** ** Failures and the error monad *)

Inductive failure :=
| KeyError (key : string)                (* uncaught [KeyError] *)
| OSError (path : string)                (* uncaught [OSError] of [open] *)
| ZlibError (path : string)              (* uncaught [zlib.error] of [zlib.decompress] *)
| UnicodeDecodeError (path : string)     (* uncaught [UnicodeDecodeError] of [read] or [decode] *)
| SystemExit (code : nat) (diag : string). (* [exit(code)], [diag] written to stderr before *)

Inductive res (A : Type) :=
| Ok (a : A)
| Err (f : failure).
Arguments Ok {A} a.
Arguments Err {A} f.

Definition res_bind {A B} (f : A → res B) (x : res A) : res B :=
  match x with Ok a => f a | Err e => Err e end.

#[global] Instance res_mret : MRet res := @Ok.
#[global] Instance res_mbind : MBind res := @res_bind.

(** ** Dictionaries and sets *)

Section dict.
Context {V : Type}.

Definition dict := list (string * V).

Definition keys (d : dict) : list string := d.*1.

Fixpoint dict_get (d : dict) (k : string) : option V :=
  match d with
  | [] => None
  | (k', v) :: d' => if decide (k' = k) then Some v else dict_get d' k
  end.

(** [d[k]] as an expression: raises [KeyError] on a missing key. *)
Definition dict_item (d : dict) (k : string) : res V :=
  match dict_get d k with Some v => Ok v | None => Err (KeyError k) end.

(** [d[k] = v]: overwrites in place, or appends a new key. *)
Fixpoint dict_set (d : dict) (k : string) (v : V) : dict :=
  match d with
  | [] => [(k, v)]
  | (k', v') :: d' =>
      if decide (k' = k) then (k', v) :: d' else (k', v') :: dict_set d' k v
  end.

Definition dict_ok (d : dict) : Prop := NoDup (keys d).
End dict.
Arguments dict : clear implicits.

(** [s.add(x)] *)
Definition set_add (x : string) (s : list string) : list string :=
  if decide (x ∈ s) then s else s ++ [x].

(** [s.remove(x)]: raises [KeyError] when [x] is not a member. *)
Definition set_remove (x : string) (s : list string) : res (list string) :=
  if decide (x ∈ s) then Ok (filter (λ y, y ≠ x) s) else Err (KeyError x).

(** The order in which Python goes through the set [s]: the permutation of
    [s] with the number [n], counted round the list of all permutations.
    The number 0 selects the list as it stands. *)
Definition reorder (n : nat) (s : list string) : list string :=
  default s (permutations s !! (n mod length (permutations s))).

(** [s.pop()]: takes the member that the iteration would give first; raises
    [KeyError] on the empty set. *)
Definition set_pop (n : nat) (s : list string) : res (string * list string) :=
  match reorder n s with
  | [] => Err (KeyError "pop from an empty set")
  | x :: s' => Ok (x, s')
  end.

(** ** Data model *)

Record CommitNode := mkCommitNode {
  commit_hash : string;
  parents : list string;
  children : list string
}.

(** [CommitNode(commit_hash)] *)
Definition new_CommitNode (h : string) : CommitNode :=
  {| commit_hash := h; parents := []; children := [] |}.

Definition with_parents (n : CommitNode) (ps : list string) : CommitNode :=
  {| commit_hash := commit_hash n; parents := ps; children := children n |}.

Definition with_children (n : CommitNode) (cs : list string) : CommitNode :=
  {| commit_hash := commit_hash n; parents := parents n; children := cs |}.

Definition Graph := dict CommitNode.

(** ** topo_sort (Kahn's algorithm) *)

(** The first loop: the queue starts with the childless nodes, in the order of
    the dictionary. *)
Fixpoint init_queue (g : Graph) (hs : list string) (queue : list string)
  : res (list string) :=
  match hs with
  | [] => Ok queue
  | h :: hs' =>
      n ← dict_item g h;
      if decide (length (children n) = 0)
      then init_queue g hs' (queue ++ [h])
      else init_queue g hs' queue
  end.

(** The body of [for phash in curr_parents]. *)
Definition remove_edge (curr phash : string) (st : Graph * list string)
  : res (Graph * list string) :=
  let '(g, queue) := st in
  n ← dict_item g curr;
  ps ← set_remove phash (parents n);
  let g1 := dict_set g curr (with_parents n ps) in
  pn ← dict_item g1 phash;
  cs ← set_remove curr (children pn);
  let g2 := dict_set g1 phash (with_children pn cs) in
  if decide (length cs = 0) then Ok (g2, queue ++ [phash]) else Ok (g2, queue).

Fixpoint remove_edges (curr : string) (curr_parents : list string)
  (st : Graph * list string) : res (Graph * list string) :=
  match curr_parents with
  | [] => Ok st
  | phash :: rest => st' ← remove_edge curr phash st; remove_edges curr rest st'
  end.

(** [while queue: ...] *)
Fixpoint topo_loop (fuel : nat) (g : Graph) (queue result : list string)
  : option (res (list string)) :=
  match fuel with
  | 0 => None
  | S fuel' =>
      match queue with
      | [] => Some (Ok result)
      | curr_hash :: queue' =>
          let result' := result ++ [curr_hash] in
          match dict_item g curr_hash with
          | Err e => Some (Err e)
          | Ok n =>
              match remove_edges curr_hash (parents n) (g, queue') with
              | Err e => Some (Err e)
              | Ok (g', queue'') => topo_loop fuel' g' queue'' result'
              end
          end
      end
  end.

(** Every round of the loop takes one hash off the queue, and puts back at
    most one hash for every parent entry it deletes. *)
Definition edge_count (g : Graph) : nat := sum_list (map (λ kv, length (parents kv.2)) g).

Definition topo_fuel (g : Graph) (queue : list string) : nat :=
  S (length queue + 2 * edge_count g).

Definition topo_sort (graph : Graph) : option (res (list string)) :=
  let copied_graph := graph in   (* copy.deepcopy: an equal value *)
  match init_queue copied_graph (keys copied_graph) [] with
  | Err e => Some (Err e)
  | Ok queue =>
      match topo_loop (topo_fuel copied_graph queue) copied_graph queue [] with
      | None => None
      | Some (Err e) => Some (Err e)
      | Some (Ok result) =>
          if decide (length result ≠ length graph)
          then Some (Err (SystemExit 1 "Cycle detected in graph"))
          else Some (Ok result)
      end
  end.

(** * The commit graph as a relation *)

(** [p] is a parent of [c] in [g]; [c] is a child of [p] in [g]. *)
Definition is_parent (g : Graph) (c p : string) : Prop :=
  ∃ n, dict_get g c = Some n ∧ p ∈ parents n.
Definition is_child (g : Graph) (p c : string) : Prop :=
  ∃ n, dict_get g p = Some n ∧ c ∈ children n.

(** The invariant of the data model: a dictionary of nodes whose two sets are
    sets, with [children] the inverse of [parents]. *)
Record graph_ok (g : Graph) : Prop := {
  graph_dict : dict_ok g;
  graph_parents_set : ∀ k n, dict_get g k = Some n → NoDup (parents n);
  graph_children_set : ∀ k n, dict_get g k = Some n → NoDup (children n);
  graph_inverse : ∀ c p, is_parent g c p ↔ is_child g p c
}.

(** Some commit is its own ancestor; no commit is. *)
Definition has_cycle (g : Graph) : Prop := ∃ c, tc (is_parent g) c c.
Definition acyclic (g : Graph) : Prop := ∀ c, ¬ tc (is_parent g) c c.

(** [c] stands at a strictly earlier index than [p] in [l]. *)
Definition before (c p : string) (l : list string) : Prop :=
  ∃ i j, l !! i = Some c ∧ l !! j = Some p ∧ i < j.

(** Parents and children of a hash, [[]] for a hash that is no key. *)
Definition par (g : Graph) (k : string) : list string :=
  from_option parents [] (dict_get g k).
Definition chi (g : Graph) (k : string) : list string :=
  from_option children [] (dict_get g k).

(** ** The invariant of Kahn's algorithm *)

(** The working copy [g] has the keys of [g0], and the node of [k] is [F k]
    of its node in [g0]. *)
Definition agrees (g0 g : Graph) (F : string → CommitNode → CommitNode) : Prop :=
  keys g = keys g0 ∧
  ∀ k n0, dict_get g0 k = Some n0 → dict_get g k = Some (F k n0).

(** Between two rounds of the [while] loop, with [r] the result so far: the
    hashes of [r] have lost their parents, and every node has lost its
    children in [r]. *)
Definition settled (r : list string) (k : string) (n0 : CommitNode) : CommitNode :=
  {| commit_hash := commit_hash n0;
     parents := if decide (k ∈ r) then [] else parents n0;
     children := filter (λ c, c ∉ r) (children n0) |}.

(** Inside the round of [curr], after the parents [done] of [curr]. *)
Definition midway (r : list string) (curr : string) (done : list string)
    (k : string) (n0 : CommitNode) : CommitNode :=
  {| commit_hash := commit_hash n0;
     parents := if decide (k ∈ r) then []
                else if decide (k = curr) then filter (λ p, p ∉ done) (parents n0)
                else parents n0;
     children := filter (λ c, (c ∉ r) ∧ ¬ (c = curr ∧ k ∈ done)) (children n0) |}.

(** All the children of [k] are in [r]. *)
Definition ready (g0 : Graph) (r : list string) (k : string) : Prop :=
  filter (λ c, c ∉ r) (chi g0 k) = [].

#[global] Instance ready_dec g0 r k : Decision (ready g0 r k).
Proof. unfold ready. apply _. Defined.

(** The invariant of the [while] loop. *)
Definition kahn_inv (g0 g : Graph) (queue result : list string) : Prop :=
  agrees g0 g (settled result) ∧
  NoDup (result ++ queue) ∧
  (∀ k, k ∈ queue ↔ k ∈ keys g0 ∧ (k ∉ result) ∧ ready g0 result k) ∧
  (∀ k, k ∈ result → k ∈ keys g0) ∧
  (∀ p c, p ∈ result → is_child g0 p c → before c p result).

(** ** Checkable forms of the hypotheses *)

(** [graph_ok], entry by entry. *)
Definition graph_check (g : Graph) : Prop :=
  NoDup (keys g) ∧
  Forall (λ kv, NoDup (parents kv.2) ∧ NoDup (children kv.2) ∧
                Forall (λ p, kv.1 ∈ chi g p) (parents kv.2) ∧
                Forall (λ c, kv.1 ∈ par g c) (children kv.2)) g.

(** A rank that goes down from every commit to its parents. *)
Definition ranked (rank : string → nat) (g : Graph) : Prop :=
  Forall (λ kv, Forall (λ p, rank p < rank kv.1) (parents kv.2)) g.

(** A merge commit on top of two branches of one root. *)
Definition diamond : Graph :=
  [ ("dddd", mkCommitNode "dddd" ["bb"; "ccc"] []);
    ("bb", mkCommitNode "bb" ["a"] ["dddd"]);
    ("a", mkCommitNode "a" [] ["bb"; "ccc"]);
    ("ccc", mkCommitNode "ccc" ["a"] ["dddd"]) ].

(** ** Strings *)

(** The white space of [str.strip()], among the code points below 256. *)
Definition py_isspace (c : ascii) : bool :=
  let n := nat_of_ascii c in
  ((9 <=? n) && (n <=? 13)) || ((28 <=? n) && (n <=? 32)) || (n =? 133) || (n =? 160).

Fixpoint lstrip (s : string) : string :=
  match s with
  | EmptyString => EmptyString
  | String c s' => if py_isspace c then lstrip s' else s
  end.

Definition rstrip (s : string) : string := String.rev (lstrip (String.rev s)).

(** [s.strip()] *)
Definition strip (s : string) : string := rstrip (lstrip s).

(** [s.replace(a, b)] for one-character [a] and [b]. *)
Fixpoint replace_char (a b : ascii) (s : string) : string :=
  match s with
  | EmptyString => EmptyString
  | String c s' => String (if decide (c = a) then b else c) (replace_char a b s')
  end.

(** [s.split(sep)] for a one-character [sep]: never the empty list. *)
Fixpoint split_on (sep : ascii) (s : string) : list string :=
  match s with
  | EmptyString => [EmptyString]
  | String c s' =>
      if decide (c = sep) then EmptyString :: split_on sep s'
      else match split_on sep s' with
           | w :: ws => String c w :: ws
           | [] => [String c EmptyString]
           end
  end.

(** [sep.join(l)] *)
Definition join (sep : string) (l : list string) : string := String.concat sep l.

(** [s[n:]] *)
Fixpoint drop_chars (n : nat) (s : string) : string :=
  match n, s with
  | 0, _ => s
  | S n', EmptyString => EmptyString
  | S n', String _ s' => drop_chars n' s'
  end.

(** [s[:n]] *)
Fixpoint take_chars (n : nat) (s : string) : string :=
  match n, s with
  | 0, _ => EmptyString
  | S n', EmptyString => EmptyString
  | S n', String c s' => String c (take_chars n' s')
  end.

(** [sorted(l)] on strings: the order is the one of the code points. *)
Definition sorted (l : list string) : list string := merge_sort String.le l.

Definition newline : string := String (ascii_of_nat 10) EmptyString.
Definition nl : ascii := ascii_of_nat 10.

(** ** The file system *)

(** A regular file, as far as the script can tell. *)
Record file := mkFile {
  opens : bool;
    (* [open] succeeds; it raises [OSError] otherwise *)
  text : option string;
    (* what [read] gives in text mode; [None] for bytes that are no text, on
       which it raises [UnicodeDecodeError] *)
  inflated : option (option string)
    (* what [zlib.decompress] and then [decode("utf-8")] make of the bytes:
       [None] for bytes that are no zlib stream ([zlib.error]), [Some None]
       for a stream of bytes that are no text ([UnicodeDecodeError]) *)
}.

(** A file of text, such as a branch file; and an object file that holds the
    given text, compressed. *)
Definition text_file (s : string) : file :=
  {| opens := true; text := Some s; inflated := None |}.
Definition object_file (s : string) : file :=
  {| opens := true; text := None; inflated := Some (Some s) |}.

(** [open(path, "r").read()] and
    [zlib.decompress(open(path, "rb").read()).decode("utf-8")] on a file that
    is there. *)
Definition read_text (path : string) (f : file) : res string :=
  if opens f
  then match text f with
       | Some s => Ok s
       | None => Err (UnicodeDecodeError path)
       end
  else Err (OSError path).

Definition read_object (path : string) (f : file) : res string :=
  if opens f
  then match inflated f with
       | Some (Some s) => Ok s
       | Some None => Err (UnicodeDecodeError path)
       | None => Err (ZlibError path)
       end
  else Err (OSError path).

(** What the script can see of the machine: the working directory, the paths
    that exist, the regular files, and what [os.walk] lists under the branch
    directory, which need not exist any more when it is opened. *)
Record filesystem := mkFs {
  cwd : string;
  dirs : list string;
  files : dict file;
  walk : list (string * list string)
    (* under the branch directory: a sub-directory ([""] for the top) and the
       file names listed in it *)
}.

(** [os.path.exists(p)] and [os.path.isfile(p)] *)
Definition path_exists (fs : filesystem) (p : string) : bool :=
  bool_decide (p ∈ dirs fs) || bool_decide (p ∈ keys (files fs)).
Definition path_isfile (fs : filesystem) (p : string) : bool :=
  bool_decide (p ∈ keys (files fs)).

(** ** parents: the Object Reader *)

(** The loop over [enumerate(decompressed_object)]. *)
Fixpoint scan_parents (tokens : list string) (i : nat) (rest results : list string)
  : list string :=
  match rest with
  | [] => results
  | text :: rest' =>
      let next_in_bounds := i + 1 <? length tokens - 1 in
      let results' :=
        if bool_decide (text = "parent") && next_in_bounds
        then set_add (nth (i + 1) tokens "") results
        else results in
      scan_parents tokens (i + 1) rest' results'
  end.

(** The function [parents(hash)] of the script is [read_parents] here, the
    name [parents] being the one of the attribute of [CommitNode]; this is
    its part after the file is read and decompressed. *)
Definition parents_of_payload (decompressed_object : string) : list string :=
  let tokens := split_on " " (replace_char nl " " decompressed_object) in
  scan_parents tokens 0 tokens [].

Definition object_path (fs : filesystem) (hash : string) : string :=
  cwd fs +:+ "/.git/objects/" +:+ take_chars 2 hash +:+ "/" +:+ drop_chars 2 hash.

Definition read_parents (fs : filesystem) (hash : string) : res (list string) :=
  let path_to_hash_file := object_path fs hash in
  if negb (path_isfile fs path_to_hash_file)
  then Err (SystemExit 1 ("Object for hash " +:+ hash +:+ " not found"))
  else
    match dict_get (files fs) path_to_hash_file with
    | None => Err (OSError path_to_hash_file)
    | Some f =>
        decompressed_object ← read_object path_to_hash_file f;
        Ok (parents_of_payload decompressed_object)
    end.

(** What the specification asks of the Object Reader: the hashes on the lines
    that begin with the token [parent]. *)
Definition parent_line (line : string) : option string :=
  match split_on " " line with
  | tok :: hash :: _ => if bool_decide (tok = "parent") then Some hash else None
  | _ => None
  end.

Definition spec_parents (payload : string) : list string :=
  omap parent_line (split_on nl payload).

(** A commit object as [git] writes it, with the word "parent" in its message;
    and one cut short after its parent line. *)
Definition payload_message : string :=
  "commit 93" +:+ String zero
  ("tree 4b825dc" +:+ newline +:+ "parent 1a2b3c" +:+ newline +:+
   "author A <a@b> 1 +0000" +:+ newline +:+ "committer A <a@b> 1 +0000" +:+ newline +:+
   newline +:+ "Fix parent pointer" +:+ newline).

Definition payload_last_line : string :=
  "commit 34" +:+ String zero ("tree 4b825dc" +:+ newline +:+ "parent 1a2b3c").

(** ** Paths *)

Definition starts_with_slash (s : string) : bool :=
  match s with
  | String c _ => bool_decide (c = "/"%char)
  | EmptyString => false
  end.

Definition ends_with_slash (s : string) : bool := starts_with_slash (String.rev s).

(** [os.path.join(a, b)] *)
Definition path_join (a b : string) : string :=
  if starts_with_slash b then b
  else if bool_decide (a = "") || ends_with_slash a then a +:+ b
  else a +:+ "/" +:+ b.

Fixpoint drop_to_slash (s : string) : string :=
  match s with
  | EmptyString => EmptyString
  | String c s' => if decide (c = "/"%char) then s else drop_to_slash s'
  end.

Fixpoint lstrip_slashes (s : string) : string :=
  match s with
  | EmptyString => EmptyString
  | String c s' => if decide (c = "/"%char) then lstrip_slashes s' else s
  end.

(** [os.path.dirname(p)] *)
Definition dirname (p : string) : string :=
  let head := String.rev (drop_to_slash (String.rev p)) in
  if bool_decide (head ≠ "") && bool_decide (lstrip_slashes head ≠ "")
  then String.rev (lstrip_slashes (String.rev head))
  else head.

(** ** find_git_directory: the Repository Locator *)

Fixpoint find_git_loop (fuel : nat) (fs : filesystem) (parent_dirname : string)
  : option string :=
  match fuel with
  | 0 => None
  | S fuel' =>
      if decide (parent_dirname = "/") then Some ""
      else
        let git_path_attempt := path_join parent_dirname ".git" in
        if path_exists fs git_path_attempt then Some git_path_attempt
        else find_git_loop fuel' fs (dirname parent_dirname)
  end.

(** [print(..., file=sys.stderr)] ends its line. *)
Definition find_git_directory (fs : filesystem) : option (res string) :=
  match find_git_loop (S (String.length (cwd fs))) fs (cwd fs) with
  | None => None
  | Some git_dirpath =>
      if decide (git_dirpath = "")
      then Some (Err (SystemExit 1 ("Not inside a Git repository" +:+ newline)))
      else Some (Ok git_dirpath)
  end.

(** ** get_local_branches: the Branch Enumerator *)

Definition BranchMap := dict (list string).

(** The body of [for filename in filenames]. *)
Definition read_branch_file (fs : filesystem) (dirpath filename : string)
    (branches : BranchMap) : res BranchMap :=
  let file_path := path_join dirpath filename in
  if negb (path_exists fs file_path) then Err (SystemExit 1 "")
  else
    match dict_get (files fs) file_path with
    | None => Err (OSError file_path)
    | Some f =>
        contents ← read_text file_path f;
        let hash := strip contents in
        let branch_name :=
          drop_chars (String.length (cwd fs +:+ "/.git/refs/heads/")) file_path in
        let branches1 :=
          if decide (hash ∈ keys branches) then branches else dict_set branches hash [] in
        names ← dict_item branches1 hash;
        Ok (dict_set branches1 hash (set_add branch_name names))
    end.

Fixpoint read_branch_files (fs : filesystem) (dirpath : string)
    (filenames : list string) (branches : BranchMap) : res BranchMap :=
  match filenames with
  | [] => Ok branches
  | filename :: rest =>
      branches' ← read_branch_file fs dirpath filename branches;
      read_branch_files fs dirpath rest branches'
  end.

(** The directory that [os.walk(top)] reports for a sub-directory of [top]. *)
Definition walk_dirpath (top sub : string) : string :=
  if decide (sub = "") then top else path_join top sub.

Fixpoint read_branch_dirs (fs : filesystem) (top : string)
    (listing : list (string * list string)) (branches : BranchMap) : res BranchMap :=
  match listing with
  | [] => Ok branches
  | (sub, filenames) :: rest =>
      branches' ← read_branch_files fs (walk_dirpath top sub) filenames branches;
      read_branch_dirs fs top rest branches'
  end.

Definition get_local_branches (fs : filesystem) (git_dirpath : string) : res BranchMap :=
  let path_to_branches := path_join (path_join git_dirpath "refs") "heads" in
  read_branch_dirs fs path_to_branches (walk fs) [].

(** What the specification asks for as the name of a branch: the path of its
    file relative to the branch directory. *)
Definition spec_branch_name (sub filename : string) : string :=
  if decide (sub = "") then filename else sub +:+ "/" +:+ filename.

(** A repository at [/r] with the branches [main] and [topic/feature], seen
    from its root and from its sub-directory [/r/sub]. *)
Definition repo_files : dict file :=
  [ ("/r/.git/refs/heads/main", text_file ("a1" +:+ newline));
    ("/r/.git/refs/heads/topic/feature", text_file ("b2" +:+ newline)) ].

Definition repo_walk : list (string * list string) :=
  [ ("", ["main"]); ("topic", ["feature"]) ].

Definition repo_at (dir : string) : filesystem :=
  {| cwd := dir; dirs := ["/r"; "/r/sub"; "/r/.git"]; files := repo_files;
     walk := repo_walk |}.

(** ** make_commit_graph: the Graph Builder *)

(** [if k not in result: result[k] = CommitNode(h)] *)
Definition ensure_node (result : Graph) (k h : string) : Graph :=
  if decide (k ∈ keys result) then result else dict_set result k (new_CommitNode h).

(** The body of [for parent in curr_parents].  [curr_node] and [curr_parent]
    are the node objects of the keys [curr_hash] and [parent], which are one
    object when the two keys are equal: the second update reads the node
    after the first. *)
Definition add_parent (visited : list string) (curr_hash parent : string)
    (st : Graph * list string) : res (Graph * list string) :=
  let '(result, stack) := st in
  let result1 := ensure_node result parent curr_hash in
  curr_node ← dict_item result1 curr_hash;
  let result2 :=
    dict_set result1 curr_hash
      (with_parents curr_node (set_add parent (parents curr_node))) in
  curr_parent ← dict_item result2 parent;
  let result3 :=
    dict_set result2 parent
      (with_children curr_parent (set_add curr_hash (children curr_parent))) in
  Ok (result3, if decide (parent ∈ visited) then stack else set_add parent stack).

(** [for parent in curr_parents]: [curr_parents] is the set in the order in
    which the loop goes through it, which [graph_loop] takes from the
    schedule. *)
Fixpoint add_parents (visited : list string) (curr_hash : string)
    (curr_parents : list string) (st : Graph * list string)
  : res (Graph * list string) :=
  match curr_parents with
  | [] => Ok st
  | parent :: rest =>
      st' ← add_parent visited curr_hash parent st;
      add_parents visited curr_hash rest st'
  end.

(** [while stack: ...].  Every round takes two numbers off [choices]: the
    first selects the hash that [stack.pop()] takes, the second the order in
    which [for parent in curr_parents] goes through the set that [parents]
    has returned. *)
Fixpoint graph_loop (fuel : nat) (fs : filesystem) (choices : list nat)
    (stack : list string) (result : Graph) (visited : list string)
  : option (res Graph) :=
  match fuel with
  | 0 => None
  | S fuel' =>
      match stack with
      | [] => Some (Ok result)
      | _ :: _ =>
          match set_pop (hd 0 choices) stack with
          | Err e => Some (Err e)
          | Ok (top, stack') =>
              let curr_hash := strip top in
              if decide (curr_hash ∈ visited)
              then graph_loop fuel' fs (tl (tl choices)) stack' result visited
              else
                let visited' := set_add curr_hash visited in
                let result1 := ensure_node result curr_hash curr_hash in
                match read_parents fs curr_hash with
                | Err e => Some (Err e)
                | Ok curr_parents =>
                    match add_parents visited' curr_hash
                            (reorder (hd 0 (tl choices)) curr_parents)
                            (result1, stack') with
                    | Err e => Some (Err e)
                    | Ok (result', stack'') =>
                        graph_loop fuel' fs (tl (tl choices)) stack'' result' visited'
                    end
                end
          end
      end
  end.

Definition make_commit_graph (choices : list nat) (fuel : nat) (fs : filesystem)
    (branch_dict : BranchMap) : option (res Graph) :=
  graph_loop fuel fs choices (keys branch_dict) [] [].

(** ** The iteration order of the sets of the nodes *)

(** The graph [g] with the two sets of every node in the order in which Python
    goes through them: two numbers of [choices] for every node. *)
Fixpoint arrange (choices : list nat) (g : Graph) : Graph :=
  match g with
  | [] => []
  | (k, n) :: g' =>
      (k, {| commit_hash := commit_hash n;
             parents := reorder (hd 0 choices) (parents n);
             children := reorder (hd 0 (tl choices)) (children n) |})
      :: arrange (tl (tl choices)) g'
  end.

(** What a run of the script leaves open: the choices of the Graph Builder,
    the order of the sets in the copy that the sorter makes, and the order of
    the sets of the nodes that the printer reads. *)
Record schedule := mkSchedule {
  build : list nat;
  copy : list nat;
  show : list nat
}.

(** The schedule that takes every set in the order of its list. *)
Definition in_order : schedule := {| build := []; copy := []; show := [] |}.

(** ** print_topo_sort: the Printer *)

(** [print(s)] writes [s] and ends the line. *)
Definition print (s : string) : string := s +:+ newline.

(** The line of a commit: lines 211 to 215. *)
Definition commit_line (local_branches_dict : BranchMap) (curr_hash : string) : string :=
  match dict_get local_branches_dict curr_hash with
  | Some names => print (curr_hash +:+ " " +:+ join " " (sorted names))
  | None => print curr_hash
  end.

(** One round of the loop, for the hash [curr_hash] at index [i]: what it
    writes, and the flag it leaves (or the failure that ends it). *)
Definition print_round (commit_graph : Graph) (ordered_graph : list string)
    (local_branches_dict : BranchMap) (i : nat) (curr_hash : string)
    (discontinuity : bool) : list string * res bool :=
  match (if discontinuity
         then n ← dict_item commit_graph curr_hash;
              Ok [print ("=" +:+ join " " (children n))]
         else Ok []) with
  | Err e => ([], Err e)
  | Ok sticky_start =>
      let line := commit_line local_branches_dict curr_hash in
      match ordered_graph !! (i + 1) with
      | None => (sticky_start ++ [line], Ok false)
      | Some next =>
          match dict_item commit_graph curr_hash with
          | Err e => (sticky_start ++ [line], Err e)
          | Ok n =>
              if decide (next ∈ parents n)
              then (sticky_start ++ [line], Ok false)
              else (sticky_start ++ [line; print (join " " (parents n) +:+ "=" +:+ newline)],
                    Ok true)
          end
      end
  end.

Fixpoint print_rounds (commit_graph : Graph) (ordered_graph : list string)
    (local_branches_dict : BranchMap) (i : nat) (todo : list string)
    (discontinuity : bool) : list string * res unit :=
  match todo with
  | [] => ([], Ok ())
  | curr_hash :: todo' =>
      match print_round commit_graph ordered_graph local_branches_dict i curr_hash
              discontinuity with
      | (out, Err e) => (out, Err e)
      | (out, Ok discontinuity') =>
          let '(out', r) :=
            print_rounds commit_graph ordered_graph local_branches_dict (i + 1) todo'
              discontinuity' in
          (out ++ out', r)
      end
  end.

(** The texts written to standard output, in order. *)
Definition print_topo_sort (commit_graph : Graph) (ordered_graph : list string)
    (local_branches_dict : BranchMap) : list string * res unit :=
  print_rounds commit_graph ordered_graph local_branches_dict 0 ordered_graph false.

(** ** topo_order_commits: the whole script *)

(** What a run leaves behind: the texts written to standard output, and how it
    ended.  [fuel] bounds the rounds of the Graph Builder.  [topo_sort] goes
    through the sets of its deep copy, [print_topo_sort] through the sets of
    the nodes themselves. *)
Definition topo_order_commits (σ : schedule) (fuel : nat) (fs : filesystem)
  : option (list string * res unit) :=
  match find_git_directory fs with
  | None => None
  | Some (Err e) => Some ([], Err e)
  | Some (Ok git_dirpath) =>
      match get_local_branches fs git_dirpath with
      | Err e => Some ([], Err e)
      | Ok local_branches_dict =>
          match make_commit_graph (build σ) fuel fs local_branches_dict with
          | None => None
          | Some (Err e) => Some ([], Err e)
          | Some (Ok commit_graph) =>
              match topo_sort (arrange (copy σ) commit_graph) with
              | None => None
              | Some (Err e) => Some ([], Err e)
              | Some (Ok ordered_graph) =>
                  Some (print_topo_sort (arrange (show σ) commit_graph) ordered_graph
                          local_branches_dict)
              end
          end
      end
  end.

(** What the process writes to the error stream itself, and its exit code.  An
    uncaught exception ends the process with code 1 too. *)
Definition exit_code (r : res unit) : nat :=
  match r with
  | Ok _ => 0
  | Err (SystemExit code _) => code
  | Err _ => 1
  end.

Definition diagnostic (r : res unit) : option string :=
  match r with
  | Err (SystemExit _ diag) => Some diag
  | _ => None
  end.

(** ** Sample repositories *)

(** The text of a commit object with the given parents. *)
Definition commit_payload (parent_hashes : list string) (message : string) : string :=
  "commit 0" +:+ String zero
  ("tree 4b825dc" +:+ newline +:+
   String.concat "" ((λ p, "parent " +:+ p +:+ newline) <$> parent_hashes) +:+
   "author A <a@b> 1 +0000" +:+ newline +:+
   "committer A <a@b> 1 +0000" +:+ newline +:+ newline +:+ message +:+ newline).

(** [main] points at [c2ffee], whose parent is the root [a1beef]. *)
Definition repo_linear : filesystem :=
  {| cwd := "/r"; dirs := ["/r"; "/r/.git"];
     files := [ ("/r/.git/refs/heads/main", text_file ("c2ffee" +:+ newline));
                ("/r/.git/objects/c2/ffee", object_file (commit_payload ["a1beef"] "second"));
                ("/r/.git/objects/a1/beef", object_file (commit_payload [] "first")) ];
     walk := [ ("", ["main"]) ] |}.

(** An object store with a cycle: [aa11] and [bb22] name each other as parent. *)
Definition repo_cycle : filesystem :=
  {| cwd := "/r"; dirs := ["/r"; "/r/.git"];
     files := [ ("/r/.git/refs/heads/main", text_file ("aa11" +:+ newline));
                ("/r/.git/objects/aa/11", object_file (commit_payload ["bb22"] "one"));
                ("/r/.git/objects/bb/22", object_file (commit_payload ["aa11"] "two")) ];
     walk := [ ("", ["main"]) ] |}.

Definition cycle_graph : Graph :=
  [ ("aa11", mkCommitNode "aa11" ["bb22"] ["bb22"]);
    ("bb22", mkCommitNode "aa11" ["aa11"] ["aa11"]) ].

(** The branch file [main] is listed but cannot be opened (a dangling link,
    or a file removed in between). *)
Definition repo_missing_ref : filesystem :=
  {| cwd := "/r"; dirs := ["/r"; "/r/.git"]; files := [];
     walk := [ ("", ["main"]) ] |}.

(** No [.git] up to the root; and a branch whose object is missing. *)
Definition no_repo : filesystem :=
  {| cwd := "/home/u"; dirs := ["/home/u"; "/home"]; files := []; walk := [] |}.

Definition repo_missing_object : filesystem :=
  {| cwd := "/r"; dirs := ["/r"; "/r/.git"];
     files := [ ("/r/.git/refs/heads/main", text_file ("c2ffee" +:+ newline)) ];
     walk := [ ("", ["main"]) ] |}.

(** Two roots without any edge. *)
Definition two_roots : Graph :=
  [ ("x1", new_CommitNode "x1"); ("y2", new_CommitNode "y2") ].

(** ** topo_sort over a store of node objects

    To say what [topo_sort] does to the graph of its caller, the nodes are
    objects in a store and a graph is a dictionary of references to them.
    [copy.deepcopy] makes new objects; the loops change the objects they reach
    through [copied_graph]. *)

Abbreviation ref := nat (only parsing).

Record store := mkStore {
  cell : ref → CommitNode;   (* the node object at a reference *)
  next : ref                 (* the references below are in use *)
}.

Definition GraphRef := dict ref.

(** Computations that read and write the store and may fail. *)
Definition StoreM (A : Type) : Type := store → store * res A.

Definition st_ret {A} (a : A) : StoreM A := λ st, (st, Ok a).
Definition st_bind {A B} (f : A → StoreM B) (m : StoreM A) : StoreM B :=
  λ st, match m st with
        | (st', Ok a) => f a st'
        | (st', Err e) => (st', Err e)
        end.
#[global] Instance M_ret : MRet StoreM := @st_ret.
#[global] Instance M_bind : MBind StoreM := @st_bind.

Definition lift {A} (r : res A) : StoreM A := λ st, (st, r).
Definition read (a : ref) : StoreM CommitNode := λ st, (st, Ok (cell st a)).
Definition write (a : ref) (n : CommitNode) : StoreM unit :=
  λ st, ({| cell := λ b, if decide (b = a) then n else cell st b; next := next st |}, Ok ()).
Definition alloc (n : CommitNode) : StoreM ref :=
  λ st, ({| cell := λ b, if decide (b = next st) then n else cell st b;
            next := S (next st) |}, Ok (next st)).

Fixpoint memo_get (memo : list (ref * ref)) (a : ref) : option ref :=
  match memo with
  | [] => None
  | (b, b') :: memo' => if decide (b = a) then Some b' else memo_get memo' a
  end.

(** [copy.deepcopy(graph)]: a new dictionary with a copy of every node (the
    node and its two sets); a node that is met twice is copied once. *)
Fixpoint deepcopy_items (items : list (string * ref)) (memo : list (ref * ref))
  : StoreM GraphRef :=
  match items with
  | [] => mret []
  | (k, a) :: rest =>
      match memo_get memo a with
      | Some a' => rest' ← deepcopy_items rest memo; mret ((k, a') :: rest')
      | None =>
          n ← read a;
          a' ← alloc n;
          rest' ← deepcopy_items rest ((a, a') :: memo);
          mret ((k, a') :: rest')
      end
  end.

Definition deepcopy (graph : GraphRef) : StoreM GraphRef := deepcopy_items graph [].

Fixpoint init_queue_st (g : GraphRef) (hs queue : list string) : StoreM (list string) :=
  match hs with
  | [] => mret queue
  | h :: hs' =>
      a ← lift (dict_item g h);
      n ← read a;
      if decide (length (children n) = 0)
      then init_queue_st g hs' (queue ++ [h])
      else init_queue_st g hs' queue
  end.

Definition remove_edge_st (g : GraphRef) (curr phash : string) (queue : list string)
  : StoreM (list string) :=
  a ← lift (dict_item g curr);
  n ← read a;
  ps ← lift (set_remove phash (parents n));
  _ ← write a (with_parents n ps);
  b ← lift (dict_item g phash);
  pn ← read b;
  cs ← lift (set_remove curr (children pn));
  _ ← write b (with_children pn cs);
  mret (if decide (length cs = 0) then queue ++ [phash] else queue).

Fixpoint remove_edges_st (g : GraphRef) (curr : string) (curr_parents queue : list string)
  : StoreM (list string) :=
  match curr_parents with
  | [] => mret queue
  | phash :: rest =>
      queue' ← remove_edge_st g curr phash queue;
      remove_edges_st g curr rest queue'
  end.

Fixpoint topo_loop_st (fuel : nat) (g : GraphRef) (queue result : list string)
  : store → store * option (res (list string)) :=
  λ st,
  match fuel with
  | 0 => (st, None)
  | S fuel' =>
      match queue with
      | [] => (st, Some (Ok result))
      | curr_hash :: queue' =>
          let result' := result ++ [curr_hash] in
          match (a ← lift (dict_item g curr_hash); n ← read a;
                 remove_edges_st g curr_hash (parents n) queue') st with
          | (st', Err e) => (st', Some (Err e))
          | (st', Ok queue'') => topo_loop_st fuel' g queue'' result' st'
          end
      end
  end.

(** The graph that a dictionary of references stands for. *)
Definition deref (st : store) (g : GraphRef) : Graph :=
  (λ ka, (ka.1, cell st ka.2)) <$> g.

Definition topo_sort_st (graph : GraphRef) : store → store * option (res (list string)) :=
  λ st,
  match deepcopy graph st with
  | (st1, Err e) => (st1, Some (Err e))
  | (st1, Ok copied_graph) =>
      match init_queue_st copied_graph (keys copied_graph) [] st1 with
      | (st2, Err e) => (st2, Some (Err e))
      | (st2, Ok queue) =>
          match topo_loop_st (topo_fuel (deref st2 copied_graph) queue)
                  copied_graph queue [] st2 with
          | (st3, None) => (st3, None)
          | (st3, Some (Err e)) => (st3, Some (Err e))
          | (st3, Some (Ok result)) =>
              if decide (length result ≠ length graph)
              then (st3, Some (Err (SystemExit 1 "Cycle detected in graph")))
              else (st3, Some (Ok result))
          end
      end
  end.

(** The references of [g] are in use in [st]. *)
Definition allocated (st : store) (g : GraphRef) : Prop :=
  Forall (λ ka, ka.2 < next st) g.

(** A store with the four nodes of [diamond], and the dictionary of the
    caller. *)
Definition diamond_store : store :=
  {| cell := λ a, default (new_CommitNode "") (diamond.*2 !! a); next := 4 |}.

Definition diamond_refs : GraphRef := [ ("dddd", 0); ("bb", 1); ("a", 2); ("ccc", 3) ].

(** [st] extends [st0]: the objects of [st0] are in [st] as they were. *)
Definition frame (st0 st : store) : Prop :=
  next st0 ≤ next st ∧ ∀ a, a < next st0 → cell st a = cell st0 a.

(** The references of [g] were not in use in [st0]. *)
Definition fresh (st0 : store) (g : GraphRef) : Prop :=
  Forall (λ ka, next st0 ≤ ka.2) g.

(** ** The order of discovery of the branch files *)

(** The files that the two loops of [get_local_branches] go through, in
    order: the directory reported by [os.walk] and the file name. *)
Definition branch_entries (top : string) (listing : list (string * list string))
  : list (string * string) :=
  concat ((λ sf : string * list string,
             (λ f : string, (walk_dirpath top sf.1, f)) <$> sf.2) <$> listing).

Fixpoint read_entries (fs : filesystem) (entries : list (string * string))
    (branches : BranchMap) : res BranchMap :=
  match entries with
  | [] => Ok branches
  | (dirpath, filename) :: rest =>
      branches' ← read_branch_file fs dirpath filename branches;
      read_entries fs rest branches'
  end.

(** The hash in a branch file and the name that the enumerator gives it. *)
Definition entry_hash (fs : filesystem) (e : string * string) : option string :=
  match dict_get (files fs) (path_join e.1 e.2) with
  | Some f =>
      match read_text (path_join e.1 e.2) f with
      | Ok contents => Some (strip contents)
      | Err _ => None
      end
  | None => None
  end.
Definition entry_name (fs : filesystem) (e : string * string) : string :=
  drop_chars (String.length (cwd fs +:+ "/.git/refs/heads/")) (path_join e.1 e.2).

(** The names of a hash in a branch map, none for a hash without entry. *)
Definition names_of (branches : BranchMap) (h : string) : list string :=
  default [] (dict_get branches h).

(** [fs'] is [fs] with the branch files listed in another order. *)
Definition same_branches (git_dirpath : string) (fs fs' : filesystem) : Prop :=
  cwd fs' = cwd fs ∧ dirs fs' = dirs fs ∧ files fs' = files fs ∧
  branch_entries (path_join (path_join git_dirpath "refs") "heads") (walk fs') ≡ₚ
  branch_entries (path_join (path_join git_dirpath "refs") "heads") (walk fs).

(** [repo_at "/r"] with the two branch files listed the other way round. *)
Definition repo_reordered : filesystem :=
  {| cwd := "/r"; dirs := ["/r"; "/r/sub"; "/r/.git"]; files := repo_files;
     walk := [ ("topic", ["feature"]); ("", ["main"]) ] |}.

(** A graph that breaks the invariant of the data model: [b] does not know
    its child [a]. *)
Definition one_sided : Graph :=
  [ ("a", mkCommitNode "a" ["b"] []); ("b", mkCommitNode "b" [] []) ].

(** ** Invariants of the Graph Builder *)

(** The identity attribute of a node is its key or one of its children. *)
Definition hash_inv (g : Graph) : Prop :=
  ∀ k n, dict_get g k = Some n → commit_hash n = k ∨ commit_hash n ∈ children n.

(** Between two rounds of the [while] loop: a visited hash has the parents
    that its object lists, another hash has none yet; a key without white
    space around it is visited or waits on the stack; the visited hashes are
    keys. *)
Definition edges_inv (fs : filesystem) (stack : list string) (result : Graph)
    (visited : list string) : Prop :=
  (∀ k, k ∈ visited →
     ∃ ps, read_parents fs k = Ok ps ∧ ∀ p, p ∈ par result k ↔ p ∈ ps) ∧
  (∀ k, k ∉ visited → par result k = []) ∧
  (∀ k, k ∈ keys result → strip k = k → k ∈ visited ∨ k ∈ stack) ∧
  (∀ k, k ∈ visited → k ∈ keys result).

(** The graph that the builder makes of [repo_linear]. *)
Definition linear_graph : Graph :=
  [ ("c2ffee", mkCommitNode "c2ffee" ["a1beef"] []);
    ("a1beef", mkCommitNode "c2ffee" [] ["c2ffee"]) ].

(** ** A fuel for the Graph Builder *)

(** Every hash that [parents] can read from some object of the store. *)
Definition all_parents (fs : filesystem) : list string :=
  concat ((λ kv : string * file,
             match read_object kv.1 kv.2 with
             | Ok decompressed_object => parents_of_payload decompressed_object
             | Err _ => []
             end) <$> files fs).

(** The hashes that can ever stand on the stack. *)
Definition builder_hashes (fs : filesystem) (branch_dict : BranchMap) : list string :=
  keys branch_dict ++ all_parents fs.

(** The measure that goes down with every round of the [while] loop: the
    hashes still to visit, each with room for its parents on the stack, and
    the stack. *)
Definition builder_measure (fs : filesystem) (branch_dict : BranchMap)
    (stack visited : list string) : nat :=
  (length (builder_hashes fs branch_dict) - length visited) * S (length (all_parents fs))
  + length stack.

Definition builder_fuel (fs : filesystem) (branch_dict : BranchMap) : nat :=
  S (builder_measure fs branch_dict (keys branch_dict) []).

(** ** The ancestors of the working directory *)

(** The directory [n] levels above [p], as [os.path.dirname] goes up. *)
Definition ancestor (n : nat) (p : string) : string := Nat.iter n dirname p.

(** No directory from [p] up to the one [n] levels above, that one left out,
    is the root or holds a [.git]. *)
Definition no_git_below (fs : filesystem) (p : string) (n : nat) : Prop :=
  ∀ m, m < n →
    ancestor m p ≠ "/" ∧ path_exists fs (path_join (ancestor m p) ".git") = false.

(** ** What [os.walk] lists *)

(** The names that [os.walk] reports: a sub-directory is [""] (the top) or a
    relative path that neither starts nor ends with a slash, and a file name
    does not start with a slash. *)
Definition listing_ok (listing : list (string * list string)) : Prop :=
  Forall (λ sf : string * list string,
            (sf.1 = "" ∨
             (sf.1 ≠ "" ∧ starts_with_slash sf.1 = false ∧ ends_with_slash sf.1 = false)) ∧
            Forall (λ f, starts_with_slash f = false) sf.2) listing.

(** The branch directory of a repository. *)
Definition branch_top (git_dirpath : string) : string :=
  path_join (path_join git_dirpath "refs") "heads".

(** ** The output of the Printer, position by position *)

(** The hash at index [i] of the order is followed by a hash that is none of
    its parents. *)
Definition is_break (g : Graph) (ord : list string) (i : nat) : bool :=
  match ord !! i, ord !! (i + 1) with
  | Some h, Some next => bool_decide (next ∉ par g h)
  | _, _ => false
  end.

Definition break_before (g : Graph) (ord : list string) (i : nat) : bool :=
  match i with
  | 0 => false
  | S j => is_break g ord j
  end.

(** The texts for the hash [h] at index [i]: the children after a break, the
    commit line, the parents before a break. *)
Definition texts_at (g : Graph) (ord : list string) (b : BranchMap)
    (i : nat) (h : string) : list string :=
  (if break_before g ord i then [print ("=" +:+ join " " (chi g h))] else []) ++
  [commit_line b h] ++
  (if is_break g ord i then [print (join " " (par g h) +:+ "=" +:+ newline)] else []).

(** An absolute path as [os.getcwd] returns it: the root, or a slash and then
    a character that is not a slash. *)
Definition absolute (p : string) : Prop :=
  p = "/" ∨ ∃ c t, p = String "/" (String c t) ∧ c ≠ "/"%char.

(** ** A schedule at work *)

(** Two branches on one root: which of the tips the builder visits first is
    left to the schedule. *)
Definition repo_fork : filesystem :=
  {| cwd := "/r"; dirs := ["/r"; "/r/.git"];
     files := [ ("/r/.git/refs/heads/main", text_file ("t2bb" +:+ newline));
                ("/r/.git/refs/heads/dev", text_file ("p1cc" +:+ newline));
                ("/r/.git/objects/t2/bb", object_file (commit_payload ["q1dd"] "main"));
                ("/r/.git/objects/p1/cc", object_file (commit_payload ["q1dd"] "dev"));
                ("/r/.git/objects/q1/dd", object_file (commit_payload [] "root")) ];
     walk := [ ("", ["main"; "dev"]) ] |}.

(** The schedule in which the first [stack.pop()] takes the second hash. *)
Definition second_first : schedule := {| build := [1]; copy := []; show := [] |}.

(** ** The parents that the object store lists *)

(** The object of [c], a hash without white space around it, names [p] as a
    parent. *)
Definition listed (fs : filesystem) (c p : string) : Prop :=
  strip c = c ∧ ∃ ps, read_parents fs c = Ok ps ∧ p ∈ ps.

(** The graph that the builder makes of [repo_fork] when it visits [p1cc]
    first. *)
Definition fork_graph : Graph :=
  [ ("p1cc", mkCommitNode "p1cc" ["q1dd"] []);
    ("q1dd", mkCommitNode "p1cc" [] ["p1cc"; "t2bb"]);
    ("t2bb", mkCommitNode "t2bb" ["q1dd"] []) ].

(** Two branches on one root and a third branch that is a root itself: the
    root [rrrr] is printed after a commit that is not its child, with its
    two children on the line before it. *)
Definition repo_three_tips : filesystem :=
  {| cwd := "/r"; dirs := ["/r"; "/r/.git"];
     files := [ ("/r/.git/refs/heads/main", text_file ("aaaa" +:+ newline));
                ("/r/.git/refs/heads/side", text_file ("bbbb" +:+ newline));
                ("/r/.git/refs/heads/lone", text_file ("dddd" +:+ newline));
                ("/r/.git/objects/aa/aa", object_file (commit_payload ["rrrr"] "a"));
                ("/r/.git/objects/bb/bb", object_file (commit_payload ["rrrr"] "b"));
                ("/r/.git/objects/dd/dd", object_file (commit_payload [] "d"));
                ("/r/.git/objects/rr/rr", object_file (commit_payload [] "r")) ];
     walk := [ ("", ["main"; "side"; "lone"]) ] |}.

(** The schedule in which the printer goes through the children of the second
    node of the graph in the other order. *)
Definition children_swapped : schedule :=
  {| build := []; copy := []; show := [0; 0; 0; 1] |}.

(** * Part II: proofs *)

(** * Facts about the error monad *)

Lemma res_bind_Ok {A B} (a : A) (f : A → res B) : Ok a ≫= f = f a.
Proof. reflexivity. Qed.

Lemma res_bind_Err {A B} (e : failure) (f : A → res B) : Err e ≫= f = Err e.
Proof. reflexivity. Qed.

Lemma append_assoc (s1 s2 s3 : string) : (s1 +:+ s2) +:+ s3 = s1 +:+ s2 +:+ s3.
Proof.
  induction s1 as [|c s1 IH]; [done|].
  change (String c ((s1 +:+ s2) +:+ s3) = String c (s1 +:+ s2 +:+ s3)).
  by rewrite IH.
Qed.

(** * Facts about dictionaries *)

Section dict_facts.
Context {V : Type}.
Implicit Types (d : dict V) (k : string) (v : V).

Lemma dict_get_Some_keys d k v : dict_get d k = Some v → k ∈ keys d.
Proof.
  induction d as [|[k' v'] d IH]; simpl; [done|].
  case_decide; subst; set_solver.
Qed.

Lemma dict_get_is_Some d k : is_Some (dict_get d k) ↔ k ∈ keys d.
Proof.
  induction d as [|[k' v'] d IH]; simpl.
  - split; [by intros [? ?]|by intros ?%elem_of_nil].
  - case_decide; subst.
    + split; [set_solver|eauto].
    + rewrite IH. set_solver.
Qed.

Lemma dict_get_None d k : dict_get d k = None ↔ k ∉ keys d.
Proof. rewrite <-dict_get_is_Some, eq_None_not_Some. done. Qed.

Lemma dict_get_set d k k' v :
  dict_get (dict_set d k v) k' = if decide (k = k') then Some v else dict_get d k'.
Proof.
  induction d as [|[k0 v0] d IH]; simpl.
  - done.
  - destruct (decide (k0 = k)) as [->|]; simpl.
    + destruct (decide (k = k')); done.
    + rewrite IH. destruct (decide (k0 = k')) as [->|]; [|done].
      by rewrite decide_False.
Qed.

Lemma keys_dict_set d k v : k ∈ keys d → keys (dict_set d k v) = keys d.
Proof.
  induction d as [|[k0 v0] d IH]; simpl.
  - by intros ?%elem_of_nil.
  - intros Hk. destruct (decide (k0 = k)) as [->|]; simpl; [done|].
    f_equal. apply IH. set_solver.
Qed.

Lemma keys_dict_set_new d k v : k ∉ keys d → keys (dict_set d k v) = keys d ++ [k].
Proof.
  induction d as [|[k0 v0] d IH]; simpl; [done|].
  intros Hk. rewrite decide_False by set_solver. simpl. f_equal. apply IH. set_solver.
Qed.

Lemma dict_item_Ok d k v : dict_item d k = Ok v ↔ dict_get d k = Some v.
Proof. unfold dict_item. destruct (dict_get d k); naive_solver. Qed.
End dict_facts.

Lemma is_parent_par g c p : is_parent g c p ↔ p ∈ par g c.
Proof.
  unfold is_parent, par. destruct (dict_get g c) as [n|]; simpl.
  - naive_solver.
  - split; [naive_solver|by intros ?%elem_of_nil].
Qed.

Lemma is_child_chi g p c : is_child g p c ↔ c ∈ chi g p.
Proof.
  unfold is_child, chi. destruct (dict_get g p) as [n|]; simpl.
  - naive_solver.
  - split; [naive_solver|by intros ?%elem_of_nil].
Qed.

Lemma is_parent_key g c p : is_parent g c p → c ∈ keys g.
Proof. intros (n & Hn & _). by eapply dict_get_Some_keys. Qed.

Lemma is_child_key g p c : is_child g p c → p ∈ keys g.
Proof. intros (n & Hn & _). by eapply dict_get_Some_keys. Qed.

Lemma before_app_l c p l x : before c p l → before c p (l ++ [x]).
Proof.
  intros (i & j & Hi & Hj & Hlt). exists i, j.
  split_and!; [by apply lookup_app_l_Some..|done].
Qed.

Lemma before_snoc c p l : c ∈ l → before c p (l ++ [p]).
Proof.
  intros (i & Hi)%list_elem_of_lookup. exists i, (length l).
  split_and!.
  - by apply lookup_app_l_Some.
  - by rewrite list_lookup_middle.
  - by eapply lookup_lt_Some.
Qed.

Lemma before_NoDup_trans a b c l :
  before a b l → before b c l → NoDup l → before a c l.
Proof.
  intros (i & j & Hi & Hj & Hij) (j' & k & Hj' & Hk & Hjk) Hnd.
  assert (j = j') as <- by (eapply NoDup_lookup; eauto).
  exists i, k. split_and!; [done..|lia].
Qed.

Lemma before_irrefl a l : NoDup l → ¬ before a a l.
Proof.
  intros Hnd (i & j & Hi & Hj & Hij).
  assert (i = j) by (eapply NoDup_lookup; eauto). lia.
Qed.

(** * Facts about filtering *)

Section filter_facts.
Context {A : Type} (P Q : A → Prop) `{!∀ x, Decision (P x), !∀ x, Decision (Q x)}.

Lemma filter_ext_in (l : list A) :
  (∀ x, x ∈ l → (P x ↔ Q x)) → filter P l = filter Q l.
Proof.
  induction l as [|a l IH]; intros HPQ; [done|].
  rewrite !filter_cons, IH by set_solver.
  apply decide_ext, HPQ. set_solver.
Qed.

Lemma filter_all (l : list A) : (∀ x, x ∈ l → P x) → filter P l = l.
Proof.
  induction l as [|a l IH]; intros HP; [done|].
  rewrite filter_cons_True, IH by set_solver. done.
Qed.

Lemma filter_none (l : list A) : (∀ x, x ∈ l → ¬ P x) → filter P l = [].
Proof.
  induction l as [|a l IH]; intros HP; [done|].
  rewrite filter_cons_False, IH by set_solver. done.
Qed.

Lemma filter_nil_iff (l : list A) : filter P l = [] ↔ ∀ x, x ∈ l → ¬ P x.
Proof.
  split; [|apply filter_none].
  intros Hnil x Hx HP.
  assert (x ∈ filter P l) as Hin by (by apply list_elem_of_filter).
  rewrite Hnil in Hin. by apply elem_of_nil in Hin.
Qed.
End filter_facts.

(** * The loops of [topo_sort] on any graph *)

Lemma init_queue_filter (g : Graph) (hs queue : list string) :
  (∀ h, h ∈ hs → h ∈ keys g) →
  init_queue g hs queue = Ok (queue ++ filter (λ k, chi g k = []) hs).
Proof.
  revert queue. induction hs as [|h hs IH]; intros queue Hhs; simpl.
  - by rewrite app_nil_r.
  - destruct (proj2 (dict_get_is_Some g h)) as [n Hn]; [apply Hhs; left|].
    assert (chi g h = children n) as Hchi by (unfold chi; by rewrite Hn).
    unfold dict_item. rewrite Hn, res_bind_Ok, filter_cons.
    destruct (decide (length (children n) = 0)) as [Hz|Hz].
    + rewrite decide_True by (rewrite Hchi; by apply length_zero_iff_nil).
      rewrite IH by (intros; apply Hhs; by right). by rewrite <-app_assoc.
    + rewrite decide_False by (rewrite Hchi; intros Heq; apply Hz; by rewrite Heq).
      apply IH. intros; apply Hhs; by right.
Qed.

Lemma edge_count_dict_set (g : Graph) k n n' :
  dict_get g k = Some n →
  edge_count (dict_set g k n') + length (parents n) = edge_count g + length (parents n').
Proof.
  unfold edge_count. induction g as [|[k0 n0] g IH]; simpl; [done|].
  destruct (decide (k0 = k)) as [->|]; simpl.
  - intros [= ->]. lia.
  - intros Hk. specialize (IH Hk). lia.
Qed.

Lemma remove_edge_measure curr p g q g' q' :
  remove_edge curr p (g, q) = Ok (g', q') →
  length q' + 2 * edge_count g' < length q + 2 * edge_count g.
Proof.
  unfold remove_edge, dict_item, set_remove.
  destruct (dict_get g curr) as [n|] eqn:Hn; [|done]. rewrite res_bind_Ok.
  destruct (decide (p ∈ parents n)) as [Hp|]; [|done]. rewrite res_bind_Ok.
  pose proof (edge_count_dict_set g curr n
    (with_parents n (filter (λ y, y ≠ p) (parents n))) Hn) as Hec1.
  assert (length (filter (λ y, y ≠ p) (parents n)) < length (parents n)) as Hlt.
  { eapply length_filter_lt; [done|]. by intros ?. }
  destruct (dict_get (dict_set g curr _) p) as [pn|] eqn:Hpn; [|done]. rewrite res_bind_Ok.
  destruct (decide (curr ∈ children pn)); [|done]. rewrite res_bind_Ok.
  pose proof (edge_count_dict_set _ p pn
    (with_children pn (filter (λ y, y ≠ curr) (children pn))) Hpn) as Hec2.
  simpl in Hec1, Hec2.
  destruct (decide (length _ = 0)); intros [= <- <-];
    rewrite ?length_app; simpl; lia.
Qed.

Lemma remove_edges_measure curr ps : ∀ g q g' q',
  remove_edges curr ps (g, q) = Ok (g', q') →
  (length q' + 2 * edge_count g' ≤ length q + 2 * edge_count g)%nat.
Proof.
  induction ps as [|p ps IH]; intros g q g' q'; cbn [remove_edges].
  - intros [= <- <-]. done.
  - destruct (remove_edge curr p (g, q)) as [[g1 q1]|] eqn:Hstep; [|done].
    rewrite res_bind_Ok. intros Hrest.
    apply remove_edge_measure in Hstep. apply IH in Hrest. lia.
Qed.

(** The fuel of [topo_sort] is enough. *)
Lemma topo_loop_fuel fuel : ∀ g q r,
  length q + 2 * edge_count g < fuel → is_Some (topo_loop fuel g q r).
Proof.
  induction fuel as [|fuel IH]; intros g q r Hfuel; [lia|].
  simpl. destruct q as [|curr q]; [done|].
  destruct (dict_item g curr) as [n|]; [|done].
  destruct (remove_edges curr (parents n) (g, q)) as [[g' q']|] eqn:Hrun; [|done].
  apply IH. apply remove_edges_measure in Hrun. simpl in Hfuel. lia.
Qed.

Lemma topo_sort_total (g : Graph) : is_Some (topo_sort g).
Proof.
  unfold topo_sort.
  destruct (init_queue g (keys g) []) as [q|]; [|done].
  destruct (topo_loop_fuel (topo_fuel g q) g q []) as [[r|e] Hr];
    [unfold topo_fuel; lia|rewrite Hr..]; [|done].
  by destruct (decide (length r ≠ length g)).
Qed.

(** * Kahn's algorithm on a well-formed graph *)

Section kahn.
Variable g0 : Graph.
Hypothesis Hok : graph_ok g0.

Lemma ready_iff r k : ready g0 r k ↔ ∀ c, is_child g0 k c → c ∈ r.
Proof.
  unfold ready. rewrite filter_nil_iff. setoid_rewrite is_child_chi.
  split; intros H c Hc.
  - destruct (decide (c ∈ r)); [done|]. by destruct (H c Hc).
  - intros Hn. by apply Hn, H.
Qed.

Lemma ready_child r k c : ready g0 r k → is_child g0 k c → c ∈ r.
Proof. intros Hr. by apply ready_iff. Qed.

Lemma midway_nil r curr k n0 : midway r curr [] k n0 = settled r k n0.
Proof.
  unfold midway, settled. f_equal.
  - repeat case_decide; try done. apply filter_all. intros ? _ ?%elem_of_nil. done.
  - apply list_filter_iff. intros c. split; [naive_solver|].
    intros ?. split; [done|]. intros [_ ?%elem_of_nil]. done.
Qed.

Lemma midway_all r curr k n0 :
  dict_get g0 k = Some n0 →
  midway r curr (par g0 curr) k n0 = settled (r ++ [curr]) k n0.
Proof.
  intros Hk. unfold midway, settled. f_equal.
  - destruct (decide (k ∈ r)) as [Hr|Hr].
    + rewrite decide_True by set_solver. done.
    + destruct (decide (k = curr)) as [->|Hne].
      * rewrite decide_True by set_solver.
        unfold par. rewrite Hk. simpl. apply filter_none. naive_solver.
      * rewrite decide_False by set_solver. done.
  - apply filter_ext_in. intros c Hc.
    assert (c = curr → k ∈ par g0 curr) as Hpar.
    { intros ->. apply is_parent_par, (graph_inverse _ Hok). by exists n0. }
    rewrite elem_of_app, list_elem_of_singleton. naive_solver.
Qed.

Lemma set_remove_Ok x s : x ∈ s → set_remove x s = Ok (filter (λ y, y ≠ x) s).
Proof. intros Hx. unfold set_remove. by rewrite decide_True. Qed.

(** One round of the [while] loop, for a hash [curr] that is not in the
    result [r] yet and none of whose parents is. *)
Section round.
Variables (r : list string) (curr : string) (nc : CommitNode).
Hypothesis Hcurr : dict_get g0 curr = Some nc.
Hypothesis Hcurr_r : curr ∉ r.
Hypothesis Hself : curr ∉ parents nc.
Hypothesis Hpar_r : ∀ p, p ∈ parents nc → p ∉ r.

Lemma remove_edge_midway g queue done p rest :
  parents nc = done ++ p :: rest →
  agrees g0 g (midway r curr done) →
  ∃ g', remove_edge curr p (g, queue) =
          Ok (g', queue ++ (if decide (ready g0 (r ++ [curr]) p) then [p] else [])) ∧
        agrees g0 g' (midway r curr (done ++ [p])).
Proof.
  intros Hps [Hkeys Hg].
  pose proof (graph_parents_set _ Hok _ _ Hcurr) as Hnd.
  rewrite Hps in Hnd. apply NoDup_app in Hnd as (_ & Hdone & [Hrest _]%NoDup_cons).
  assert (p ∈ parents nc) as Hp by (rewrite Hps; set_solver).
  assert (p ∉ done) as Hpd by (intros Hin; apply (Hdone _ Hin); left).
  assert (p ≠ curr) as Hpc by congruence.
  assert (curr ∉ done) as Hcd.
  { intros ?. apply Hself. rewrite Hps. set_solver. }
  pose proof (Hpar_r _ Hp) as Hpr.
  destruct (proj1 (graph_inverse _ Hok curr p)) as (np & Hnp & Hcp); [by exists nc|].
  assert (filter (λ y, y ≠ curr) (children (midway r curr done p np))
          = filter (λ c, c ∉ r ++ [curr]) (children np)) as Hcs.
  { unfold midway; simpl. rewrite list_filter_filter. apply list_filter_iff.
    intros c. rewrite elem_of_app, list_elem_of_singleton. naive_solver. }
  assert (filter (λ y, y ≠ p) (parents (midway r curr done curr nc))
          = filter (λ q, q ∉ done ++ [p]) (parents nc)) as Hpps.
  { unfold midway; simpl. rewrite decide_False, decide_True by done.
    rewrite list_filter_filter. apply list_filter_iff.
    intros q. rewrite elem_of_app, list_elem_of_singleton. naive_solver. }
  assert (p ∈ parents (midway r curr done curr nc)) as Hp'.
  { unfold midway; simpl. rewrite decide_False, decide_True by done.
    by apply list_elem_of_filter. }
  assert (curr ∈ children (midway r curr done p np)) as Hc'.
  { unfold midway; simpl. apply list_elem_of_filter. naive_solver. }
  eexists. split.
  - unfold remove_edge, dict_item. rewrite (Hg _ _ Hcurr). cbn -[midway].
    rewrite set_remove_Ok by done. cbn -[midway].
    rewrite dict_get_set, decide_False by done. rewrite (Hg _ _ Hnp). cbn -[midway].
    rewrite set_remove_Ok by done. cbn -[midway].
    rewrite Hcs, Hpps.
    assert (ready g0 (r ++ [curr]) p ↔
            length (filter (λ c, c ∉ r ++ [curr]) (children np)) = 0) as Hrdy.
    { unfold ready, chi. rewrite Hnp. simpl. by rewrite length_zero_iff_nil. }
    destruct (decide (length _ = 0)), (decide (ready g0 _ _));
      [reflexivity|tauto|tauto|by rewrite app_nil_r].
  - assert (curr ∈ keys g) as Hck.
    { rewrite Hkeys. by eapply dict_get_Some_keys. }
    assert (p ∈ keys g) as Hpk.
    { rewrite Hkeys. by eapply dict_get_Some_keys. }
    split.
    + rewrite keys_dict_set; rewrite keys_dict_set; done.
    + intros k n0 Hk. rewrite !dict_get_set.
      destruct (decide (p = k)) as [<-|Hpk'].
      { assert (n0 = np) as -> by congruence. f_equal.
        unfold with_children, midway; simpl. f_equal.
        { by rewrite !(decide_False (P := p = curr)) by done. }
        apply list_filter_iff. intros c.
        rewrite !elem_of_app, !list_elem_of_singleton. naive_solver. }
      destruct (decide (curr = k)) as [<-|Hck'].
      { assert (n0 = nc) as -> by congruence. f_equal.
        unfold with_parents, midway; simpl. f_equal.
        - by rewrite !decide_False, !decide_True by done.
        - apply list_filter_iff. intros c.
          rewrite !elem_of_app, !list_elem_of_singleton. naive_solver. }
      rewrite (Hg _ _ Hk). f_equal. unfold midway. f_equal.
      * by rewrite !(decide_False (P := k = curr)) by done.
      * apply list_filter_iff. intros c.
        rewrite !elem_of_app, !list_elem_of_singleton. naive_solver.
Qed.

Lemma remove_edges_midway rest : ∀ g queue done,
  parents nc = done ++ rest →
  agrees g0 g (midway r curr done) →
  ∃ g', remove_edges curr rest (g, queue) =
          Ok (g', queue ++ filter (ready g0 (r ++ [curr])) rest) ∧
        agrees g0 g' (midway r curr (parents nc)).
Proof.
  induction rest as [|p rest IH]; intros g queue done Hps Hg.
  - exists g. rewrite app_nil_r in Hps. rewrite Hps. simpl.
    by rewrite app_nil_r.
  - destruct (remove_edge_midway g queue done p rest Hps Hg) as (g1 & Hstep & Hg1).
    destruct (IH g1 (queue ++ (if decide (ready g0 (r ++ [curr]) p) then [p] else []))
                (done ++ [p])) as (g' & Hrest & Hg'); [by rewrite <-app_assoc|done|].
    exists g'. split; [|done].
    cbn [remove_edges]. rewrite Hstep, res_bind_Ok, Hrest, filter_cons.
    destruct (decide (ready g0 _ p)); by rewrite <-app_assoc.
Qed.
End round.

Lemma agrees_ext g F G :
  (∀ k n0, dict_get g0 k = Some n0 → F k n0 = G k n0) → agrees g0 g F → agrees g0 g G.
Proof.
  intros HFG [Hkeys Hg]. split; [done|].
  intros k n0 Hk. rewrite (Hg _ _ Hk). f_equal. by apply HFG.
Qed.

Lemma before_elem_of c p l : before c p l → c ∈ l.
Proof. intros (i & _ & Hi & _). by eapply list_elem_of_lookup_2. Qed.

Lemma topo_round g curr q r :
  kahn_inv g0 g (curr :: q) r →
  ∃ n g',
    dict_get g curr = Some n ∧
    remove_edges curr (parents n) (g, q) =
      Ok (g', q ++ filter (ready g0 (r ++ [curr])) (par g0 curr)) ∧
    kahn_inv g0 g' (q ++ filter (ready g0 (r ++ [curr])) (par g0 curr)) (r ++ [curr]).
Proof.
  intros (Hg & Hnd & Hq & Hr & Hprec).
  destruct (proj1 (Hq curr)) as (Hck & Hcr & Hrdy); [left|].
  apply dict_get_is_Some in Hck as [nc Hnc].
  rewrite ready_iff in Hrdy.
  assert (curr ∉ parents nc) as Hself.
  { intros Hin. apply Hcr, Hrdy, (graph_inverse _ Hok). by exists nc. }
  assert (∀ p, p ∈ parents nc → p ∉ r) as Hpar_r.
  { intros p Hp Hpr. apply Hcr. eapply before_elem_of, Hprec; [done|].
    apply (graph_inverse _ Hok). by exists nc. }
  assert (par g0 curr = parents nc) as Hpar by (unfold par; by rewrite Hnc).
  destruct (remove_edges_midway r curr nc Hnc Hcr Hself Hpar_r (parents nc) g q [])
    as (g' & Hrun & Hg'); [done|..].
  { eapply agrees_ext; [|done]. intros. by rewrite midway_nil. }
  exists (settled r curr nc), g'. split_and!.
  - by apply Hg.
  - simpl. rewrite decide_False by done. by rewrite Hpar.
  - rewrite Hpar. unfold kahn_inv. split_and!.
    + eapply agrees_ext; [|done]. intros k n0 Hk. rewrite <-Hpar. by apply midway_all.
    + replace ((r ++ [curr]) ++ q ++ filter (ready g0 (r ++ [curr])) (parents nc))
        with ((r ++ curr :: q) ++ filter (ready g0 (r ++ [curr])) (parents nc))
        by (by rewrite <-!app_assoc).
      apply NoDup_app. split_and!; [done| |].
      * intros x Hx [_ Hxp]%list_elem_of_filter.
        apply elem_of_app in Hx as [Hx|Hx]; [by eapply Hpar_r|].
        apply Hq in Hx as (_ & _ & Hx).
        eapply Hcr, ready_child, (graph_inverse _ Hok); [done|]. by exists nc.
      * apply NoDup_filter. by eapply graph_parents_set.
    + intros k. rewrite elem_of_app, list_elem_of_filter. split.
      * intros [Hk|[Hk Hkp]].
        -- apply NoDup_app in Hnd as (_ & Hdisj & [Hcq _]%NoDup_cons).
           destruct (proj1 (Hq k)) as (Hkk & Hkr & Hkrdy); [by right|].
           split_and!; [done| |].
           ++ rewrite elem_of_app, list_elem_of_singleton. intros [?| ->]; done.
           ++ apply ready_iff. intros c Hc. apply elem_of_app. left.
              by eapply ready_child.
        -- split_and!; [|
             |done].
           ++ eapply is_child_key, (graph_inverse _ Hok). by exists nc.
           ++ rewrite elem_of_app, list_elem_of_singleton. intros [?| ->]; [|done].
              by eapply Hpar_r.
      * intros (Hk & Hkr & Hrdy').
        rewrite elem_of_app, list_elem_of_singleton in Hkr.
        destruct (decide (ready g0 r k)) as [Hrk|Hrk].
        -- left. assert (k ∈ curr :: q) as Hin by (apply Hq; naive_solver).
           apply elem_of_cons in Hin as [->|?]; [naive_solver|done].
        -- right. split; [done|].
           unfold ready in Hrk.
           destruct (filter (λ c, c ∉ r) (chi g0 k)) as [|c l] eqn:E; [done|].
           assert (c ∈ filter (λ c, c ∉ r) (chi g0 k)) as [Hcr' Hc]%list_elem_of_filter
             by (rewrite E; left).
           apply is_child_chi in Hc.
           pose proof (ready_child _ _ _ Hrdy' Hc) as Hin.
           apply elem_of_app in Hin as [?| ->%list_elem_of_singleton]; [done|].
           apply (graph_inverse _ Hok) in Hc as (n & Hn & Hkn). congruence.
    + intros k [Hk| ->%list_elem_of_singleton]%elem_of_app;
        [by apply Hr|by eapply dict_get_Some_keys].
    + intros p c [Hp| ->%list_elem_of_singleton]%elem_of_app Hc.
      * by apply before_app_l, Hprec.
      * by apply before_snoc, Hrdy.
Qed.

Lemma settled_nil k n0 : settled [] k n0 = n0.
Proof.
  destruct n0 as [h ps cs]. unfold settled. simpl. f_equal.
  apply filter_all. intros ? _ ?%elem_of_nil. done.
Qed.

Lemma ready_nil k : ready g0 [] k ↔ chi g0 k = [].
Proof.
  unfold ready. rewrite filter_all; [done|]. intros ? _ ?%elem_of_nil. done.
Qed.

Lemma init_queue_ready :
  init_queue g0 (keys g0) [] = Ok (filter (ready g0 []) (keys g0)).
Proof.
  rewrite init_queue_filter by done. simpl. f_equal.
  apply list_filter_iff. intros k. by rewrite ready_nil.
Qed.

Lemma kahn_inv_init : kahn_inv g0 g0 (filter (ready g0 []) (keys g0)) [].
Proof.
  split_and!.
  - split; [done|]. intros k n0 ->. by rewrite settled_nil.
  - simpl. apply NoDup_filter, (graph_dict _ Hok).
  - intros k. rewrite list_elem_of_filter. set_solver.
  - by intros k ?%elem_of_nil.
  - by intros p c ?%elem_of_nil.
Qed.

Lemma topo_loop_inv fuel : ∀ g q r,
  kahn_inv g0 g q r →
  topo_loop fuel g q r = None ∨
  ∃ r' g', topo_loop fuel g q r = Some (Ok r') ∧ kahn_inv g0 g' [] r'.
Proof.
  induction fuel as [|fuel IH]; intros g q r Hinv; [by left|].
  simpl. destruct q as [|curr q]; [right; by exists r, g|].
  destruct (topo_round _ _ _ _ Hinv) as (n & g' & Hn & Hrun & Hinv').
  unfold dict_item. rewrite Hn, Hrun. by apply IH.
Qed.

(** What [topo_sort] does on a well-formed graph: the loop ends with some
    result [r], and the test on the lengths decides. *)
Lemma topo_sort_run :
  ∃ r g',
    kahn_inv g0 g' [] r ∧
    topo_sort g0 =
      Some (if decide (length r ≠ length g0)
            then Err (SystemExit 1 "Cycle detected in graph") else Ok r).
Proof.
  pose proof kahn_inv_init as Hinit.
  destruct (topo_loop_inv (topo_fuel g0 (filter (ready g0 []) (keys g0))) _ _ _ Hinit)
    as [Hnone|(r & g' & Hrun & Hinv)].
  - destruct (topo_loop_fuel (topo_fuel g0 (filter (ready g0 []) (keys g0))) g0
                (filter (ready g0 []) (keys g0)) []) as [? Hsome];
      [unfold topo_fuel; lia|congruence].
  - exists r, g'. split; [done|].
    unfold topo_sort. rewrite init_queue_ready, Hrun.
    by destruct (decide (length r ≠ length g0)).
Qed.

Lemma tc_child_parent x y : tc (is_child g0) x y → tc (is_parent g0) y x.
Proof.
  induction 1 as [x y Hxy|x y z Hxy _ IH].
  - by apply tc_once, (graph_inverse _ Hok).
  - eapply tc_r; [done|]. by apply (graph_inverse _ Hok).
Qed.

Lemma tc_child_key x y : tc (is_child g0) x y → y ∈ keys g0.
Proof.
  induction 1 as [x y Hxy|]; [|done].
  by eapply is_parent_key, (graph_inverse _ Hok).
Qed.

Section final.
Variables (r : list string) (g' : Graph).
Hypothesis Hfinal : kahn_inv g0 g' [] r.

Lemma final_NoDup : NoDup r.
Proof. destruct Hfinal as (_ & Hnd & _). by rewrite app_nil_r in Hnd. Qed.

Lemma final_keys k : k ∈ r → k ∈ keys g0.
Proof. destruct Hfinal as (_ & _ & _ & Hr & _). apply Hr. Qed.

Lemma final_length : (length r ≤ length g0)%nat.
Proof.
  replace (length g0) with (length (keys g0)) by apply length_fmap.
  apply submseteq_length, NoDup_submseteq; [apply final_NoDup|apply final_keys].
Qed.

Lemma final_before c p : p ∈ r → is_parent g0 c p → before c p r.
Proof.
  destruct Hfinal as (_ & _ & _ & _ & Hprec).
  intros Hp Hcp. by apply Hprec, (graph_inverse _ Hok).
Qed.

Lemma final_not_ready k : k ∈ keys g0 → k ∉ r → ¬ ready g0 r k.
Proof.
  destruct Hfinal as (_ & _ & Hq & _). intros Hk Hkr Hrdy.
  eapply elem_of_nil, Hq. done.
Qed.

(** On an acyclic graph nothing is left over. *)
Lemma final_all : acyclic g0 → ∀ k, k ∈ keys g0 → k ∈ r.
Proof.
  intros Hacyc k.
  assert (sn (is_child g0) k) as Hsn.
  { apply tc_finite_sn.
    - intros x Hx. by eapply Hacyc, tc_child_parent.
    - exists (keys g0). apply tc_child_key. }
  induction Hsn as [k _ IH]. intros Hk.
  destruct (decide (k ∈ r)) as [|Hkr]; [done|].
  destruct (final_not_ready k Hk Hkr). apply ready_iff. intros c Hc.
  apply IH; [done|]. by eapply is_parent_key, (graph_inverse _ Hok).
Qed.

(** If nothing is left over, the graph is acyclic. *)
Lemma final_tc_before c p :
  (∀ k, k ∈ keys g0 → k ∈ r) → tc (is_parent g0) c p → before c p r.
Proof.
  intros Hall. induction 1 as [c p Hcp|c p a Hcp _ IH].
  - apply final_before; [|done].
    by eapply Hall, is_child_key, (graph_inverse _ Hok).
  - eapply before_NoDup_trans; [|done|apply final_NoDup].
    apply final_before; [|done].
    by eapply Hall, is_child_key, (graph_inverse _ Hok).
Qed.

Lemma final_full_length : length r = length g0 → ∀ k, k ∈ keys g0 → k ∈ r.
Proof.
  intros Hlen k Hk.
  assert (r ≡ₚ keys g0) as Hperm.
  { apply submseteq_length_Permutation.
    - apply NoDup_submseteq; [apply final_NoDup|apply final_keys].
    - unfold keys. rewrite Hlen, length_fmap. done. }
  by rewrite Hperm.
Qed.
End final.
End kahn.

(** * Checking the hypotheses on a given graph *)

Lemma dict_get_elem_of {V} (d : dict V) k v : dict_get d k = Some v → (k, v) ∈ d.
Proof.
  induction d as [|[k' v'] d IH]; simpl; [done|].
  case_decide; [intros [= ->]; subst; left|right; auto].
Qed.

Lemma graph_check_ok g : graph_check g → graph_ok g.
Proof.
  intros [Hnd Hall]. rewrite Forall_forall in Hall.
  split; [done|..].
  - intros k n Hk%dict_get_elem_of. by apply (Hall _ Hk).
  - intros k n Hk%dict_get_elem_of. by apply (Hall _ Hk).
  - intros c p. split.
    + intros (n & Hn%dict_get_elem_of & Hp).
      destruct (Hall _ Hn) as (_ & _ & Hps & _). rewrite Forall_forall in Hps.
      by apply is_child_chi, Hps.
    + intros (n & Hn%dict_get_elem_of & Hc).
      destruct (Hall _ Hn) as (_ & _ & _ & Hcs). rewrite Forall_forall in Hcs.
      by apply is_parent_par, Hcs.
Qed.

Lemma ranked_acyclic rank g : ranked rank g → acyclic g.
Proof.
  intros Hrank. unfold ranked in Hrank. rewrite Forall_forall in Hrank.
  assert (∀ c p, tc (is_parent g) c p → rank p < rank c) as Hlt.
  { assert (∀ c p, is_parent g c p → rank p < rank c) as Hstep.
    { intros c p (n & Hn%dict_get_elem_of & Hp).
      specialize (Hrank _ Hn). rewrite Forall_forall in Hrank. by apply Hrank. }
    induction 1 as [c p H|c p a H _ IH]; [by apply Hstep|].
    apply Hstep in H. lia. }
  intros c Hc. apply Hlt in Hc. lia.
Qed.

Lemma diamond_ok : graph_ok diamond.
Proof. apply graph_check_ok. by apply (bool_decide_unpack _). Qed.

Lemma diamond_acyclic : acyclic diamond.
Proof. apply (ranked_acyclic String.length). by apply (bool_decide_unpack _). Qed.

(** * The claims about [topo_sort] *)

Lemma topo_sort_acyclic g :
  graph_ok g → acyclic g →
  ∃ r g', kahn_inv g g' [] r ∧ topo_sort g = Some (Ok r) ∧ r ≡ₚ keys g.
Proof.
  intros Hok Hacyc.
  destruct (topo_sort_run g Hok) as (r & g' & Hinv & Hrun).
  assert (r ≡ₚ keys g) as Hperm.
  { apply NoDup_Permutation.
    - by eapply final_NoDup.
    - apply (graph_dict _ Hok).
    - intros k. split; [by eapply final_keys|by eapply final_all]. }
  exists r, g'. split_and!; [done| |done].
  rewrite Hrun, decide_False; [done|].
  intros Hne. apply Hne. unfold keys in Hperm. by rewrite Hperm, length_fmap.
Qed.

(** C1. On a well-formed acyclic graph [topo_sort] returns a list in which
    every commit stands at a strictly earlier index than each of its
    parents. *)
Theorem topo_sort_precedence g :
  graph_ok g → acyclic g →
  ∃ l, topo_sort g = Some (Ok l) ∧ ∀ c p, is_parent g c p → before c p l.
Proof.
  intros Hok Hacyc.
  destruct (topo_sort_acyclic g Hok Hacyc) as (r & g' & Hinv & Hrun & Hperm).
  exists r. split; [done|]. intros c p Hcp.
  eapply final_before; [done..| |done].
  rewrite Hperm. by eapply is_child_key, (graph_inverse _ Hok).
Qed.

Lemma topo_sort_precedence_witness :
  graph_ok diamond ∧ acyclic diamond ∧
  ∃ l, topo_sort diamond = Some (Ok l) ∧ ∀ c p, is_parent diamond c p → before c p l.
Proof.
  split; [apply diamond_ok|]. split; [apply diamond_acyclic|].
  apply (topo_sort_precedence diamond); [apply diamond_ok|apply diamond_acyclic].
Defined.

(** C2. On a well-formed acyclic graph [topo_sort] returns a permutation of
    the keys of the graph: no hash twice, no hash left out. *)
Theorem topo_sort_permutation g :
  graph_ok g → acyclic g →
  ∃ l, topo_sort g = Some (Ok l) ∧ NoDup l ∧ (∀ h, h ∈ l ↔ h ∈ keys g) ∧ l ≡ₚ keys g.
Proof.
  intros Hok Hacyc.
  destruct (topo_sort_acyclic g Hok Hacyc) as (r & g' & Hinv & Hrun & Hperm).
  exists r. split_and!; [done|by eapply final_NoDup| |done].
  intros h. by rewrite Hperm.
Qed.

Lemma topo_sort_permutation_witness :
  graph_ok diamond ∧ acyclic diamond ∧
  ∃ l, topo_sort diamond = Some (Ok l) ∧ NoDup l ∧
       (∀ h, h ∈ l ↔ h ∈ keys diamond) ∧ l ≡ₚ keys diamond.
Proof.
  split; [apply diamond_ok|]. split; [apply diamond_acyclic|].
  apply (topo_sort_permutation diamond); [apply diamond_ok|apply diamond_acyclic].
Defined.

Example topo_sort_diamond : topo_sort diamond = Some (Ok ["dddd"; "bb"; "ccc"; "a"]).
Proof. vm_compute. reflexivity. Qed.

(** On a well-formed graph with a cycle the lengths differ, and [topo_sort]
    exits. *)
Lemma topo_sort_cycle g :
  graph_ok g → has_cycle g →
  topo_sort g = Some (Err (SystemExit 1 "Cycle detected in graph")).
Proof.
  intros Hok [c Hc].
  destruct (topo_sort_run g Hok) as (r & g' & Hinv & Hrun).
  rewrite Hrun. destruct (decide (length r ≠ length g)) as [|Heq]; [done|].
  apply dec_stable in Heq.
  pose proof (final_full_length g r g' Hinv Heq) as Hall.
  destruct (before_irrefl c r); [by eapply final_NoDup|].
  by eapply final_tc_before.
Qed.

(** * The Object Reader *)

(** C3. The reader takes the word after any token [parent], also inside the
    commit message, and leaves out a parent hash that is the last token of
    the payload. *)
Theorem parents_of_payload_diverges :
  parents_of_payload payload_message = ["1a2b3c"; "pointer"] ∧
  spec_parents payload_message = ["1a2b3c"] ∧
  parents_of_payload payload_last_line = [] ∧
  spec_parents payload_last_line = ["1a2b3c"].
Proof. vm_compute. done. Qed.

(** * The Branch Enumerator *)

(** C5. Started in the root of the repository the enumerator names the
    branches by their paths under the branch directory; started in a
    sub-directory it finds the same repository and cuts the names short. *)
Theorem get_local_branches_cwd :
  find_git_directory (repo_at "/r") = Some (Ok "/r/.git") ∧
  find_git_directory (repo_at "/r/sub") = Some (Ok "/r/.git") ∧
  get_local_branches (repo_at "/r") "/r/.git" =
    Ok [("a1", ["main"]); ("b2", ["topic/feature"])] ∧
  get_local_branches (repo_at "/r/sub") "/r/.git" =
    Ok [("a1", [""]); ("b2", ["c/feature"])] ∧
  spec_branch_name "" "main" = "main" ∧
  spec_branch_name "topic" "feature" = "topic/feature".
Proof. vm_compute. done. Qed.

(** * The Graph Builder keeps the invariant of the data model *)

Lemma dict_ok_set {V} (d : dict V) k v : dict_ok d → dict_ok (dict_set d k v).
Proof.
  unfold dict_ok. intros Hd. destruct (decide (k ∈ keys d)).
  - by rewrite keys_dict_set.
  - rewrite keys_dict_set_new by done. apply NoDup_app. split_and!; [done| |].
    + intros x Hx ->%list_elem_of_singleton. done.
    + apply NoDup_singleton.
Qed.

Lemma keys_dict_set_elem {V} (d : dict V) k v x :
  x ∈ keys (dict_set d k v) ↔ x = k ∨ x ∈ keys d.
Proof.
  destruct (decide (k ∈ keys d)).
  - rewrite keys_dict_set by done. naive_solver.
  - rewrite keys_dict_set_new, elem_of_app, list_elem_of_singleton by done. naive_solver.
Qed.

Lemma par_dict_set g k n k' :
  par (dict_set g k n) k' = if decide (k = k') then parents n else par g k'.
Proof. unfold par. rewrite dict_get_set. by case_decide. Qed.

Lemma chi_dict_set g k n k' :
  chi (dict_set g k n) k' = if decide (k = k') then children n else chi g k'.
Proof. unfold chi. rewrite dict_get_set. by case_decide. Qed.

Lemma par_dict_get g k n : dict_get g k = Some n → par g k = parents n.
Proof. unfold par. by intros ->. Qed.

Lemma chi_dict_get g k n : dict_get g k = Some n → chi g k = children n.
Proof. unfold chi. by intros ->. Qed.

Lemma par_not_key g k : k ∉ keys g → par g k = [].
Proof. intros Hk%dict_get_None. unfold par. by rewrite Hk. Qed.

Lemma chi_not_key g k : k ∉ keys g → chi g k = [].
Proof. intros Hk%dict_get_None. unfold chi. by rewrite Hk. Qed.

(** [graph_ok] in terms of [par] and [chi]. *)
Lemma graph_ok_alt g :
  graph_ok g ↔
  dict_ok g ∧ (∀ k, NoDup (par g k)) ∧ (∀ k, NoDup (chi g k)) ∧
  (∀ c p, p ∈ par g c ↔ c ∈ chi g p).
Proof.
  split.
  - intros [Hd Hp Hc Hinv]. split_and!; [done|..].
    + intros k. unfold par. destruct (dict_get g k) eqn:E; simpl; [eauto|constructor].
    + intros k. unfold chi. destruct (dict_get g k) eqn:E; simpl; [eauto|constructor].
    + intros c p. by rewrite <-is_parent_par, <-is_child_chi.
  - intros (Hd & Hp & Hc & Hinv). split; [done|..].
    + intros k n Hk. rewrite <-(par_dict_get _ _ _ Hk). apply Hp.
    + intros k n Hk. rewrite <-(chi_dict_get _ _ _ Hk). apply Hc.
    + intros c p. by rewrite is_parent_par, is_child_chi.
Qed.

Lemma elem_of_set_add x y s : x ∈ set_add y s ↔ x = y ∨ x ∈ s.
Proof.
  unfold set_add. case_decide; [naive_solver|].
  rewrite elem_of_app, list_elem_of_singleton. naive_solver.
Qed.

Lemma NoDup_set_add y s : NoDup s → NoDup (set_add y s).
Proof.
  intros Hs. unfold set_add. case_decide; [done|].
  apply NoDup_app. split_and!; [done| |apply NoDup_singleton].
  by intros x Hx ->%list_elem_of_singleton.
Qed.

Lemma ensure_node_ok g k h : graph_ok g → graph_ok (ensure_node g k h).
Proof.
  unfold ensure_node. case_decide as Hk; [done|].
  rewrite !graph_ok_alt. intros (Hd & Hp & Hc & Hinv).
  split_and!.
  - by apply dict_ok_set.
  - intros k'. rewrite par_dict_set. case_decide; [constructor|done].
  - intros k'. rewrite chi_dict_set. case_decide; [constructor|done].
  - intros c p. rewrite par_dict_set, chi_dict_set. simpl.
    pose proof (par_not_key g k Hk) as Hpk. pose proof (chi_not_key g k Hk) as Hck.
    repeat case_decide; subst; rewrite ?elem_of_nil.
    + done.
    + split; [done|]. intros Hin%Hinv. rewrite Hpk in Hin. by apply elem_of_nil in Hin.
    + split; [|done]. intros Hin%Hinv. rewrite Hck in Hin. by apply elem_of_nil in Hin.
    + done.
Qed.

Lemma ensure_node_key g k h : k ∈ keys (ensure_node g k h).
Proof.
  unfold ensure_node. case_decide; [done|]. apply keys_dict_set_elem. by left.
Qed.

Lemma ensure_node_keys g k h x : x ∈ keys g → x ∈ keys (ensure_node g k h).
Proof.
  unfold ensure_node. case_decide; [done|]. intros. apply keys_dict_set_elem. by right.
Qed.

(** Adding the edge from [c] to its parent [p], on both sides. *)
Lemma add_edge_ok g c p n pn :
  graph_ok g →
  dict_get g c = Some n →
  dict_get (dict_set g c (with_parents n (set_add p (parents n)))) p = Some pn →
  graph_ok (dict_set (dict_set g c (with_parents n (set_add p (parents n)))) p
              (with_children pn (set_add c (children pn)))).
Proof.
  rewrite !graph_ok_alt. intros (Hd & Hp & Hc & Hinv) Hn Hpn.
  pose proof (chi_dict_get _ _ _ Hpn) as Hchi. rewrite chi_dict_set in Hchi. simpl in Hchi.
  assert (chi g p = children pn) as Hchi'.
  { case_decide; [|done]. subst. by rewrite (chi_dict_get _ _ _ Hn). }
  pose proof (par_dict_get _ _ _ Hpn) as Hpar. rewrite par_dict_set in Hpar. simpl in Hpar.
  pose proof (par_dict_get _ _ _ Hn) as Hparn.
  pose proof (chi_dict_get _ _ _ Hn) as Hchin.
  split_and!.
  - by do 2 apply dict_ok_set.
  - intros k. rewrite !par_dict_set. simpl. rewrite <-Hpar.
    repeat case_decide; subst; rewrite <-?Hparn; try done; by apply NoDup_set_add.
  - intros k. rewrite !chi_dict_set. simpl. rewrite <-Hchi', <-?Hchin.
    repeat case_decide; subst; try done; by apply NoDup_set_add.
  - intros c' p'. rewrite !par_dict_set, !chi_dict_set. simpl.
    rewrite <-Hpar, <-Hchi', <-Hchin.
    repeat case_decide; subst; rewrite <-?Hparn, ?elem_of_set_add, ?Hinv; naive_solver.
Qed.

(** ** The order of a set *)

Lemma reorder_Permutation n s : reorder n s ≡ₚ s.
Proof.
  unfold reorder. destruct (permutations s !! _) as [s'|] eqn:Hs'; [|done].
  symmetry. by eapply permutations_Permutation, list_elem_of_lookup_2.
Qed.

Lemma elem_of_reorder n s x : x ∈ reorder n s ↔ x ∈ s.
Proof. by rewrite reorder_Permutation. Qed.

Lemma length_reorder n s : length (reorder n s) = length s.
Proof. by rewrite reorder_Permutation. Qed.

Lemma NoDup_reorder n s : NoDup (reorder n s) ↔ NoDup s.
Proof. by rewrite reorder_Permutation. Qed.

(** Every order of a set is the one of some number. *)
Lemma reorder_any s s' : s' ≡ₚ s → ∃ n, reorder n s = s'.
Proof.
  intros Hperm. symmetry in Hperm. apply permutations_Permutation in Hperm.
  apply list_elem_of_lookup in Hperm as [n Hn].
  exists n. unfold reorder.
  rewrite Nat.mod_small by (by eapply lookup_lt_Some). by rewrite Hn.
Qed.

(** [pop] takes a member and leaves the others. *)
Lemma set_pop_Ok n s x s' : set_pop n s = Ok (x, s') → s ≡ₚ x :: s'.
Proof.
  unfold set_pop. pose proof (reorder_Permutation n s) as Hperm.
  destruct (reorder n s) as [|y r]; [done|]. by intros [= <- <-].
Qed.

Lemma set_pop_cons n x s : ∃ y s', set_pop n (x :: s) = Ok (y, s').
Proof.
  unfold set_pop. pose proof (reorder_Permutation n (x :: s)) as Hperm.
  destruct (reorder n (x :: s)) as [|y r]; [|by eauto].
  by apply Permutation_nil_cons in Hperm.
Qed.

(** Every member can be the one that [pop] takes. *)
Lemma set_pop_any s x : x ∈ s → ∃ n s', set_pop n s = Ok (x, s').
Proof.
  intros (s1 & s2 & ->)%list_elem_of_split.
  destruct (reorder_any (s1 ++ x :: s2) (x :: s1 ++ s2)) as [n Hn].
  { by rewrite Permutation_middle. }
  exists n, (s1 ++ s2). unfold set_pop. by rewrite Hn.
Qed.

Lemma add_parent_ok visited curr parent g stack g' stack' :
  add_parent visited curr parent (g, stack) = Ok (g', stack') →
  graph_ok g → graph_ok g'.
Proof.
  unfold add_parent, dict_item. intros Hrun Hok.
  destruct (dict_get (ensure_node g parent curr) curr) as [n|] eqn:Hn; [|done].
  rewrite res_bind_Ok in Hrun.
  destruct (dict_get (dict_set _ curr _) parent) as [pn|] eqn:Hpn; [|done].
  rewrite res_bind_Ok in Hrun. injection Hrun as <- <-.
  eapply add_edge_ok; [|done..]. by apply ensure_node_ok.
Qed.

Lemma add_parents_ok visited curr ps : ∀ g stack g' stack',
  add_parents visited curr ps (g, stack) = Ok (g', stack') →
  graph_ok g → graph_ok g'.
Proof.
  induction ps as [|p ps IH]; intros g stack g' stack'; cbn [add_parents].
  - by intros [= <- <-].
  - destruct (add_parent visited curr p (g, stack)) as [[g1 stack1]|] eqn:Hstep; [|done].
    rewrite res_bind_Ok. intros Hrest Hok.
    eapply IH; [done|]. by eapply add_parent_ok.
Qed.

Lemma graph_loop_ok fuel fs : ∀ choices stack result visited g,
  graph_loop fuel fs choices stack result visited = Some (Ok g) →
  graph_ok result → graph_ok g.
Proof.
  induction fuel as [|fuel IH]; intros choices stack result visited g; [done|].
  cbn [graph_loop]. destruct stack as [|x stack0]; [by intros [= <-]|].
  destruct (set_pop _ (x :: stack0)) as [[top stack]|]; [|done].
  case_decide; [apply IH|].
  destruct (read_parents fs (strip top)) as [ps|]; [|done].
  destruct (add_parents _ _ _ _) as [[result' stack'']|] eqn:Hadd; [|done].
  intros Hrun Hok. eapply IH; [done|].
  eapply add_parents_ok; [done|]. by apply ensure_node_ok.
Qed.

Lemma graph_ok_nil : graph_ok [].
Proof. apply graph_check_ok. split; constructor. Qed.

(** Every graph that the builder returns is well formed. *)
Lemma make_commit_graph_ok choices fuel fs branch_dict g :
  make_commit_graph choices fuel fs branch_dict = Some (Ok g) → graph_ok g.
Proof. intros Hrun. eapply graph_loop_ok; [done|apply graph_ok_nil]. Qed.

(** * The claims about the Graph Builder *)

(** C4. The node that the builder makes for a parent which has no node yet
    carries the hash of the child in [commit_hash], not its own key; on
    [repo_linear] this is so for every schedule. *)
Theorem make_commit_graph_parent_hash :
  get_local_branches repo_linear "/r/.git" = Ok [("c2ffee", ["main"])] ∧
  ∀ choices,
    make_commit_graph choices 3 repo_linear [("c2ffee", ["main"])] =
      Some (Ok [ ("c2ffee", mkCommitNode "c2ffee" ["a1beef"] []);
                 ("a1beef", mkCommitNode "c2ffee" [] ["c2ffee"]) ]).
Proof. split; [by vm_compute|]. intros choices. by vm_compute. Qed.

(** * The order of the sets of the nodes *)

Lemma keys_arrange g : ∀ choices, keys (arrange choices g) = keys g.
Proof.
  induction g as [|[k n] g IH]; intros choices; [done|].
  cbn [arrange]. unfold keys in *. rewrite !fmap_cons. by rewrite IH.
Qed.

Lemma length_arrange g : ∀ choices, length (arrange choices g) = length g.
Proof.
  induction g as [|[k n] g IH]; intros choices; [done|].
  cbn [arrange length]. by rewrite IH.
Qed.

Lemma par_arrange g k : ∀ choices, par (arrange choices g) k ≡ₚ par g k.
Proof.
  induction g as [|[k' n] g IH]; intros choices; [done|].
  unfold par in *. cbn [arrange dict_get]. case_decide; [|apply IH].
  apply reorder_Permutation.
Qed.

Lemma chi_arrange g k : ∀ choices, chi (arrange choices g) k ≡ₚ chi g k.
Proof.
  induction g as [|[k' n] g IH]; intros choices; [done|].
  unfold chi in *. cbn [arrange dict_get]. case_decide; [|apply IH].
  apply reorder_Permutation.
Qed.

(** Every order of the sets of the nodes is the one of some choices. *)
Lemma arrange_any g g' :
  Forall2 (λ kn kn' : string * CommitNode,
             kn'.1 = kn.1 ∧ commit_hash kn'.2 = commit_hash kn.2 ∧
             parents kn'.2 ≡ₚ parents kn.2 ∧ children kn'.2 ≡ₚ children kn.2) g g' →
  ∃ choices, arrange choices g = g'.
Proof.
  induction 1 as [|[k n] [k' n'] g g' (Hk & Hh & Hp & Hc) _ [choices IH]];
    [by exists []|].
  simpl in *. subst k'.
  destruct (reorder_any _ _ Hp) as [i Hi]. destruct (reorder_any _ _ Hc) as [j Hj].
  exists (i :: j :: choices). cbn [arrange hd tl]. rewrite Hi, Hj, <-Hh, IH.
  by destruct n'.
Qed.

Lemma is_parent_arrange choices g c p :
  is_parent (arrange choices g) c p ↔ is_parent g c p.
Proof. by rewrite !is_parent_par, par_arrange. Qed.

Lemma is_child_arrange choices g p c :
  is_child (arrange choices g) p c ↔ is_child g p c.
Proof. by rewrite !is_child_chi, chi_arrange. Qed.

Lemma graph_ok_arrange choices g : graph_ok g → graph_ok (arrange choices g).
Proof.
  rewrite !graph_ok_alt. intros (Hd & Hp & Hc & Hinv). split_and!.
  - unfold dict_ok. by rewrite keys_arrange.
  - intros k. by rewrite par_arrange.
  - intros k. by rewrite chi_arrange.
  - intros c p. by rewrite par_arrange, chi_arrange.
Qed.

Lemma tc_is_parent_arrange choices g c p :
  tc (is_parent (arrange choices g)) c p ↔ tc (is_parent g) c p.
Proof.
  split; apply (tc_congruence id); intros x y; by rewrite is_parent_arrange.
Qed.

Lemma has_cycle_arrange choices g : has_cycle (arrange choices g) ↔ has_cycle g.
Proof. unfold has_cycle. by setoid_rewrite tc_is_parent_arrange. Qed.

Lemma acyclic_arrange choices g : acyclic (arrange choices g) ↔ acyclic g.
Proof. unfold acyclic. by setoid_rewrite tc_is_parent_arrange. Qed.

(** * The claims about the whole script *)

Lemma cycle_graph_has_cycle : has_cycle cycle_graph.
Proof.
  exists "aa11". eapply tc_l; [|apply tc_once].
  - eexists. split; [reflexivity|]. simpl. left.
  - eexists. split; [reflexivity|]. simpl. left.
Qed.

(** C6. When the graph that the builder has discovered contains a cycle, the
    script writes nothing to standard output, writes its diagnostic to the
    error stream and exits with code 1, whatever the schedule. *)
Theorem topo_order_commits_cycle σ fuel fs git_dirpath branches g :
  find_git_directory fs = Some (Ok git_dirpath) →
  get_local_branches fs git_dirpath = Ok branches →
  make_commit_graph (build σ) fuel fs branches = Some (Ok g) →
  has_cycle g →
  topo_order_commits σ fuel fs =
    Some ([], Err (SystemExit 1 "Cycle detected in graph")) ∧
  exit_code (Err (SystemExit 1 "Cycle detected in graph")) = 1 ∧
  diagnostic (Err (SystemExit 1 "Cycle detected in graph")) = Some "Cycle detected in graph".
Proof.
  intros Hgit Hbr Hg Hcyc. split; [|done].
  unfold topo_order_commits. rewrite Hgit, Hbr, Hg.
  rewrite (topo_sort_cycle (arrange (copy σ) g)); [done| |].
  - by eapply graph_ok_arrange, make_commit_graph_ok.
  - by apply has_cycle_arrange.
Qed.

Lemma topo_order_commits_cycle_witness :
  find_git_directory repo_cycle = Some (Ok "/r/.git") ∧
  get_local_branches repo_cycle "/r/.git" = Ok [("aa11", ["main"])] ∧
  make_commit_graph (build in_order) 3 repo_cycle [("aa11", ["main"])] =
    Some (Ok cycle_graph) ∧
  has_cycle cycle_graph ∧
  topo_order_commits in_order 3 repo_cycle =
    Some ([], Err (SystemExit 1 "Cycle detected in graph")).
Proof.
  split; [by vm_compute|]. split; [by vm_compute|]. split; [by vm_compute|].
  split; [apply cycle_graph_has_cycle|].
  apply (topo_order_commits_cycle in_order 3 repo_cycle "/r/.git" [("aa11", ["main"])]
           cycle_graph);
    [by vm_compute..|apply cycle_graph_has_cycle].
Defined.

(** C8. Three of the fatal conditions write a diagnostic; a branch file that
    is listed but does not exist ends the script with code 1 and nothing on
    the error stream.  The four runs end so for every schedule. *)
Theorem missing_ref_no_diagnostic (σ : schedule) :
  topo_order_commits σ 3 repo_missing_ref = Some ([], Err (SystemExit 1 "")) ∧
  topo_order_commits σ 3 no_repo =
    Some ([], Err (SystemExit 1 ("Not inside a Git repository" +:+ newline))) ∧
  topo_order_commits σ 3 repo_missing_object =
    Some ([], Err (SystemExit 1 "Object for hash c2ffee not found")) ∧
  topo_order_commits σ 3 repo_cycle =
    Some ([], Err (SystemExit 1 "Cycle detected in graph")).
Proof. vm_compute. done. Qed.

Example topo_order_commits_linear (σ : schedule) :
  topo_order_commits σ 3 repo_linear =
    Some ([print "c2ffee main"; print "a1beef"], Ok ()).
Proof. vm_compute. done. Qed.

(** * The claims about the Printer *)

#[local] Instance string_le_trans : Transitive String.le.
Proof. apply _. Qed.

Lemma sorted_permutation names names' : names' ≡ₚ names → sorted names' = sorted names.
Proof.
  intros Hperm. apply (StronglySorted_unique String.le).
  - apply StronglySorted_merge_sort; apply _.
  - apply StronglySorted_merge_sort; apply _.
  - unfold sorted. by rewrite !merge_sort_Permutation.
Qed.

(** * topo_sort and the graph of its caller *)

Ltac unfold_M :=
  unfold mbind, M_bind, st_bind, mret, M_ret, st_ret, lift, read, write, alloc,
    res_mbind, res_bind.

Lemma frame_refl st : frame st st.
Proof. by split. Qed.

Lemma frame_trans st0 st1 st2 : frame st0 st1 → frame st1 st2 → frame st0 st2.
Proof.
  intros [Hn1 Hc1] [Hn2 Hc2]. split; [lia|].
  intros a Ha. rewrite Hc2 by lia. by apply Hc1.
Qed.

Lemma frame_write st0 st a n :
  next st0 ≤ a → frame st0 st → frame st0 (write a n st).1.
Proof.
  intros Ha [Hn Hc]. split; [done|]. simpl. intros b Hb.
  rewrite decide_False by lia. by apply Hc.
Qed.

Lemma frame_alloc st n : frame st (alloc n st).1.
Proof.
  split; simpl; [lia|]. intros b Hb. by rewrite decide_False by lia.
Qed.

Lemma fresh_dict_get st0 g k a : fresh st0 g → dict_get g k = Some a → next st0 ≤ a.
Proof.
  intros Hfresh Hk%dict_get_elem_of. unfold fresh in Hfresh.
  rewrite Forall_forall in Hfresh. by apply (Hfresh _ Hk).
Qed.

Lemma deepcopy_items_frame items : ∀ memo st, frame st (deepcopy_items items memo st).1.
Proof.
  induction items as [|[k a] items IH]; intros memo st; simpl; [apply frame_refl|].
  destruct (memo_get memo a) as [a'|].
  - unfold_M. specialize (IH memo st).
    by destruct (deepcopy_items items memo st) as [st' [cg|]].
  - unfold_M. simpl.
    match goal with |- context [deepcopy_items items ?m ?s] =>
      specialize (IH m s); destruct (deepcopy_items items m s) as [st' [cg|]] end;
    (eapply frame_trans; [apply (frame_alloc st (cell st a))|done]).
Qed.

(** The copy only holds references that were not in use before. *)
Lemma deepcopy_items_fresh st0 items : ∀ memo st cg st',
  Forall (λ bb, next st0 ≤ bb.2) memo → frame st0 st →
  deepcopy_items items memo st = (st', Ok cg) → fresh st0 cg.
Proof.
  induction items as [|[k a] items IH]; intros memo st cg st' Hmemo Hframe; simpl.
  - unfold_M. intros [= _ <-]. constructor.
  - destruct (memo_get memo a) as [a'|] eqn:Hget.
    + unfold_M.
      destruct (deepcopy_items items memo st) as [st1 [cg1|]] eqn:Hrest; [|done].
      intros [= _ <-]. constructor; [|by eapply IH].
      simpl. clear -Hmemo Hget.
      induction memo as [|[b b'] memo IHm]; simpl in *; [done|].
      apply Forall_cons in Hmemo as [Hb Hmemo].
      case_decide; [by injection Hget as <-|by apply IHm].
    + unfold_M. simpl.
      match goal with |- context [deepcopy_items items ?m ?s] =>
        destruct (deepcopy_items items m s) as [st1 [cg1|]] eqn:Hrest end; [|done].
      intros [= _ <-].
      assert (next st0 ≤ next st) as Hle by apply Hframe.
      constructor; [done|]. eapply IH; [| |done].
      * constructor; [done|done].
      * eapply frame_trans; [done|]. apply (frame_alloc st (cell st a)).
Qed.

Lemma init_queue_st_store g hs : ∀ queue st, (init_queue_st g hs queue st).1 = st.
Proof.
  induction hs as [|h hs IH]; intros queue st; simpl; [done|].
  unfold_M. destruct (dict_item g h) as [a|]; simpl; [|done].
  case_decide; apply IH.
Qed.

Lemma remove_edge_st_frame st0 g curr p queue st :
  fresh st0 g → frame st0 st → frame st0 (remove_edge_st g curr p queue st).1.
Proof.
  intros Hfresh Hframe. unfold remove_edge_st. unfold_M. unfold dict_item.
  destruct (dict_get g curr) as [a|] eqn:Ha; simpl; [|done].
  destruct (set_remove p _) as [ps|]; simpl; [|done].
  pose proof (frame_write st0 st a (with_parents (cell st a) ps)
                (fresh_dict_get _ _ _ _ Hfresh Ha) Hframe) as Hframe1.
  destruct (dict_get g p) as [b|] eqn:Hb; simpl; [|done].
  destruct (set_remove curr _) as [cs|]; simpl; [|done].
  match goal with |- frame _ ?s =>
    change s with (write b (with_children
      (if decide (b = a) then with_parents (cell st a) ps else cell st b) cs)
      (write a (with_parents (cell st a) ps) st).1).1 end.
  apply frame_write; [|done]. by eapply fresh_dict_get.
Qed.

Lemma remove_edges_st_frame st0 g curr ps : ∀ queue st,
  fresh st0 g → frame st0 st → frame st0 (remove_edges_st g curr ps queue st).1.
Proof.
  induction ps as [|p ps IH]; intros queue st Hfresh Hframe; simpl; [done|].
  unfold mbind, M_bind, st_bind.
  pose proof (remove_edge_st_frame st0 g curr p queue st Hfresh Hframe) as Hstep.
  destruct (remove_edge_st g curr p queue st) as [st1 [q1|]]; [|done].
  by apply IH.
Qed.

Lemma topo_loop_st_frame st0 g fuel : ∀ queue result st,
  fresh st0 g → frame st0 st → frame st0 (topo_loop_st fuel g queue result st).1.
Proof.
  induction fuel as [|fuel IH]; intros queue result st Hfresh Hframe; simpl; [done|].
  destruct queue as [|curr queue]; [done|].
  unfold_M. destruct (dict_item g curr) as [a|]; simpl; [|done].
  pose proof (remove_edges_st_frame st0 g curr (parents (cell st a)) queue st
                Hfresh Hframe) as Hstep.
  destruct (remove_edges_st _ _ _ _ st) as [st1 [q1|]]; [|done].
  by apply IH.
Qed.

(** Whatever [topo_sort] does, the objects that were there before the call
    are as they were. *)
Lemma topo_sort_st_frame graph st : frame st (topo_sort_st graph st).1.
Proof.
  unfold topo_sort_st, deepcopy.
  pose proof (deepcopy_items_frame graph [] st) as Hcopy.
  destruct (deepcopy_items graph [] st) as [st1 [cg|]] eqn:Hcg; [|done].
  pose proof (deepcopy_items_fresh st graph [] st cg st1 (Forall_nil_2 _)
                (frame_refl st) Hcg) as Hfresh.
  pose proof (init_queue_st_store cg (keys cg) [] st1) as Hinit.
  destruct (init_queue_st cg (keys cg) [] st1) as [st2 [queue|]]; simpl in Hinit; subst st2;
    [|done].
  pose proof (topo_loop_st_frame st cg (topo_fuel (deref st1 cg) queue) queue [] st1
                Hfresh Hcopy) as Hloop.
  destruct (topo_loop_st _ cg queue [] st1) as [st3 [[result|]|]]; [|done..].
  by case_decide.
Qed.

(** ** The store version computes what [topo_sort] computes *)

Lemma keys_deref st g : keys (deref st g) = keys g.
Proof. unfold keys, deref. rewrite <-list_fmap_compose. done. Qed.

Lemma length_deref st g : length (deref st g) = length g.
Proof. apply length_fmap. Qed.

Lemma dict_get_deref st g k : dict_get (deref st g) k = cell st <$> dict_get g k.
Proof.
  induction g as [|[k' a] g IH]; simpl; [done|]. by case_decide.
Qed.

Lemma dict_item_deref st g k :
  dict_item (deref st g) k =
    match dict_item g k with Ok a => Ok (cell st a) | Err e => Err e end.
Proof. unfold dict_item. rewrite dict_get_deref. by destruct (dict_get g k). Qed.

Lemma deref_ext st st' g :
  (∀ ka, ka ∈ g → cell st' ka.2 = cell st ka.2) → deref st' g = deref st g.
Proof.
  intros Hext. unfold deref. apply list_fmap_ext. intros i ka Hka.
  rewrite Hext; [done|]. by eapply list_elem_of_lookup_2.
Qed.

Lemma deref_write st g k a n :
  NoDup g.*2 → dict_get g k = Some a →
  deref (write a n st).1 g = dict_set (deref st g) k n.
Proof.
  induction g as [|[k' a'] g IH]; simpl; [done|].
  intros [Ha' Hnd]%NoDup_cons Hk. case_decide as Hkk.
  - injection Hk as ->. subst k'. rewrite decide_True by done. f_equal.
    apply deref_ext. intros [k1 a1] Hin. simpl. rewrite decide_False; [done|].
    intros ->. apply Ha'. by apply (list_elem_of_fmap_2 snd _ (k1, a)).
  - rewrite decide_False.
    + f_equal. by apply IH.
    + intros Heq. simpl in Heq. subst a'. apply Ha'. apply dict_get_elem_of in Hk.
      by apply (list_elem_of_fmap_2 snd _ (k, a)).
Qed.

Lemma remove_edge_st_refines g curr p queue st :
  NoDup g.*2 →
  ∃ st', match remove_edge curr p (deref st g, queue) with
         | Ok (g', queue') =>
             remove_edge_st g curr p queue st = (st', Ok queue') ∧ deref st' g = g'
         | Err e => remove_edge_st g curr p queue st = (st', Err e)
         end.
Proof.
  intros Hnd. unfold remove_edge, remove_edge_st. unfold_M. unfold dict_item.
  rewrite dict_get_deref.
  destruct (dict_get g curr) as [a|] eqn:Ha; simpl; [|by eexists].
  destruct (set_remove p (parents (cell st a))) as [ps|]; simpl; [|by eexists].
  rewrite <-(deref_write st g curr a) by done.
  rewrite dict_get_deref.
  destruct (dict_get g p) as [b|] eqn:Hb; simpl; [|by eexists].
  destruct (set_remove curr _) as [cs|]; simpl; [|by eexists].
  eexists. case_decide; (split; [reflexivity|]);
    by rewrite <-(deref_write _ g p b) by done.
Qed.

Lemma remove_edges_st_cons g curr p ps queue st :
  remove_edges_st g curr (p :: ps) queue st =
    match remove_edge_st g curr p queue st with
    | (st', Ok queue') => remove_edges_st g curr ps queue' st'
    | (st', Err e) => (st', Err e)
    end.
Proof. reflexivity. Qed.

Lemma remove_edges_st_refines g curr ps : ∀ queue st,
  NoDup g.*2 →
  ∃ st', match remove_edges curr ps (deref st g, queue) with
         | Ok (g', queue') =>
             remove_edges_st g curr ps queue st = (st', Ok queue') ∧ deref st' g = g'
         | Err e => remove_edges_st g curr ps queue st = (st', Err e)
         end.
Proof.
  induction ps as [|p ps IH]; intros queue st Hnd.
  - by exists st.
  - destruct (remove_edge_st_refines g curr p queue st Hnd) as [st1 Hstep].
    cbn [remove_edges]. rewrite remove_edges_st_cons.
    destruct (remove_edge curr p (deref st g, queue)) as [[g1 q1]|e].
    + destruct Hstep as [-> <-]. rewrite res_bind_Ok. by apply IH.
    + rewrite Hstep, res_bind_Err. by exists st1.
Qed.

Lemma init_queue_st_refines g hs : ∀ queue st,
  (init_queue_st g hs queue st).2 = init_queue (deref st g) hs queue.
Proof.
  induction hs as [|h hs IH]; intros queue st; simpl; [done|].
  unfold_M. rewrite dict_item_deref.
  destruct (dict_item g h) as [a|]; simpl; [|done].
  case_decide; apply IH.
Qed.

Lemma topo_loop_st_refines g fuel : ∀ queue result st,
  NoDup g.*2 →
  (topo_loop_st fuel g queue result st).2 = topo_loop fuel (deref st g) queue result.
Proof.
  induction fuel as [|fuel IH]; intros queue result st Hnd; simpl; [done|].
  destruct queue as [|curr queue]; [done|].
  unfold mbind at 1 2, M_bind, st_bind, lift, read. rewrite dict_item_deref.
  destruct (dict_item g curr) as [a|]; simpl; [|done].
  destruct (remove_edges_st_refines g curr (parents (cell st a)) queue st Hnd)
    as [st1 Hstep].
  destruct (remove_edges curr _ (deref st g, queue)) as [[g1 q1]|e].
  - destruct Hstep as [-> <-]. by apply IH.
  - by rewrite Hstep.
Qed.

Lemma deepcopy_items_refines st0 items : ∀ memo st,
  NoDup items.*2 →
  (∀ ka, ka ∈ items → memo_get memo ka.2 = None) →
  allocated st0 items →
  frame st0 st →
  ∃ st' cg,
    deepcopy_items items memo st = (st', Ok cg) ∧
    deref st' cg = deref st0 items ∧
    keys cg = keys items ∧
    NoDup cg.*2 ∧
    Forall (λ ka, next st ≤ ka.2) cg.
Proof.
  induction items as [|[k a] items IH]; intros memo st Hnd Hmemo Halloc Hframe.
  - exists st, []. split_and!; [done..|constructor|constructor].
  - rewrite fmap_cons in Hnd.
    apply NoDup_cons in Hnd as [Ha Hnd]. apply Forall_cons in Halloc as [Hlt Halloc].
    cbn [snd] in Ha, Hlt.
    assert (memo_get memo a = None) as Hma by (apply (Hmemo (k, a)); left).
    simpl. rewrite Hma.
    destruct (IH ((a, next st) :: memo) (alloc (cell st a) st).1)
      as (st' & cg & Hrun & Hderef & Hkeys & Hnd' & Hfresh); [done| |done| |].
    { intros [k1 a1] Hin. simpl. rewrite decide_False; [apply (Hmemo (k1, a1)); by right|].
      intros ->. apply Ha. by apply (list_elem_of_fmap_2 snd _ (k1, a1)). }
    { eapply frame_trans; [done|]. apply frame_alloc. }
    pose proof (deepcopy_items_frame items ((a, next st) :: memo)
                  (alloc (cell st a) st).1) as [_ Hcell].
    rewrite Hrun in Hcell.
    exists st', ((k, next st) :: cg). unfold_M. simpl in *. rewrite Hrun.
    split_and!.
    + done.
    + f_equal; [|done]. f_equal. rewrite Hcell by lia.
      rewrite decide_True by done. by apply Hframe.
    + by f_equal.
    + apply NoDup_cons. split; [|done].
      intros (ka & Heq & Hin)%list_elem_of_fmap. rewrite Forall_forall in Hfresh.
      specialize (Hfresh _ Hin). simpl in Hfresh. lia.
    + constructor; [done|]. eapply Forall_impl; [done|]. simpl. intros; lia.
Qed.

(** Without two keys for one node object, the store version returns what
    [topo_sort] returns on the graph that the dictionary stands for. *)
Lemma topo_sort_st_refines graph st :
  NoDup graph.*2 → allocated st graph →
  (topo_sort_st graph st).2 = topo_sort (deref st graph).
Proof.
  intros Hnd Halloc. unfold topo_sort_st, topo_sort, deepcopy.
  destruct (deepcopy_items_refines st graph [] st Hnd)
    as (st1 & cg & Hcopy & Hderef & Hkeys & Hnd1 & _);
    [intros; reflexivity|exact Halloc|apply frame_refl|].
  rewrite Hcopy.
  pose proof (init_queue_st_store cg (keys cg) [] st1) as Hst.
  pose proof (init_queue_st_refines cg (keys cg) [] st1) as Hq.
  destruct (init_queue_st cg (keys cg) [] st1) as [st2 rq]. simpl in Hst, Hq. subst st2 rq.
  rewrite Hderef, Hkeys, keys_deref.
  destruct (init_queue (deref st graph) (keys graph) []) as [queue|]; [|done].
  pose proof (topo_loop_st_refines cg (topo_fuel (deref st graph) queue) queue [] st1 Hnd1)
    as Hloop.
  destruct (topo_loop_st _ cg queue [] st1) as [st3 r]. cbn [snd] in Hloop. subst r.
  rewrite Hderef, length_deref.
  destruct (topo_loop _ (deref st graph) queue []) as [[result|]|].
  - by case_decide.
  - done.
  - done.
Qed.

(** C7. Every node of the graph that the caller hands to [topo_sort] is,
    after the call, as it was before: its parents and its children too. *)
Theorem topo_sort_keeps_input graph st k a :
  allocated st graph → dict_get graph k = Some a →
  cell (topo_sort_st graph st).1 a = cell st a ∧
  parents (cell (topo_sort_st graph st).1 a) = parents (cell st a) ∧
  children (cell (topo_sort_st graph st).1 a) = children (cell st a) ∧
  deref (topo_sort_st graph st).1 graph = deref st graph.
Proof.
  intros Halloc Hk.
  destruct (topo_sort_st_frame graph st) as [_ Hcell].
  unfold allocated in Halloc. rewrite Forall_forall in Halloc.
  assert (cell (topo_sort_st graph st).1 a = cell st a) as Heq.
  { apply Hcell. by apply (Halloc (k, a)), dict_get_elem_of. }
  split_and!; [done|by rewrite Heq..|].
  apply deref_ext. intros ka Hka. by apply Hcell, Halloc.
Qed.

Lemma diamond_refs_allocated : allocated diamond_store diamond_refs.
Proof. by apply (bool_decide_unpack _). Qed.

Lemma topo_sort_keeps_input_witness :
  allocated diamond_store diamond_refs ∧
  dict_get diamond_refs "dddd" = Some 0 ∧
  cell (topo_sort_st diamond_refs diamond_store).1 0 = cell diamond_store 0.
Proof.
  split; [apply diamond_refs_allocated|]. split; [reflexivity|].
  apply (topo_sort_keeps_input diamond_refs diamond_store "dddd" 0);
    [apply diamond_refs_allocated|reflexivity].
Defined.

(** The copy of the first node, at reference 4, has lost its parents; the
    node of the caller, at reference 0, has them. *)
Example topo_sort_st_diamond :
  (topo_sort_st diamond_refs diamond_store).2 = Some (Ok ["dddd"; "bb"; "ccc"; "a"]) ∧
  deref diamond_store diamond_refs = diamond ∧
  parents (cell (topo_sort_st diamond_refs diamond_store).1 4) = [] ∧
  parents (cell (topo_sort_st diamond_refs diamond_store).1 0) = ["bb"; "ccc"].
Proof. vm_compute. done. Qed.

(** * The order of discovery does not change the names of a hash *)

Lemma read_branch_files_entries fs dirpath filenames : ∀ branches,
  read_branch_files fs dirpath filenames branches =
  read_entries fs ((λ f, (dirpath, f)) <$> filenames) branches.
Proof.
  induction filenames as [|f filenames IH]; intros branches; simpl; [done|].
  destruct (read_branch_file fs dirpath f branches) as [b1|e]; [|done].
  rewrite !res_bind_Ok. apply IH.
Qed.

Lemma read_entries_app fs es1 : ∀ es2 branches,
  read_entries fs (es1 ++ es2) branches =
  read_entries fs es1 branches ≫= read_entries fs es2.
Proof.
  induction es1 as [|[d f] es1 IH]; intros es2 branches; simpl; [done|].
  destruct (read_branch_file fs d f branches) as [b1|e]; [|done].
  rewrite !res_bind_Ok. apply IH.
Qed.

Lemma read_branch_dirs_entries fs top listing : ∀ branches,
  read_branch_dirs fs top listing branches =
  read_entries fs (branch_entries top listing) branches.
Proof.
  induction listing as [|[sub filenames] listing IH]; intros branches; [done|].
  cbn [read_branch_dirs]. unfold branch_entries. rewrite fmap_cons, concat_cons.
  rewrite read_entries_app, read_branch_files_entries. simpl.
  destruct (read_entries fs _ branches) as [b1|e]; [|done].
  rewrite !res_bind_Ok. apply IH.
Qed.

Lemma names_of_dict_set (b : BranchMap) h names h' :
  names_of (dict_set b h names) h' = if decide (h = h') then names else names_of b h'.
Proof. unfold names_of. rewrite dict_get_set. by case_decide. Qed.

(** One branch file adds its name to the names of its hash. *)
Lemma read_branch_file_names fs d f b b' :
  read_branch_file fs d f b = Ok b' →
  ∃ h, entry_hash fs (d, f) = Some h ∧
       (∀ h', h' ∈ keys b' ↔ h' = h ∨ h' ∈ keys b) ∧
       (∀ h' x, x ∈ names_of b' h' ↔
                x ∈ names_of b h' ∨ (h' = h ∧ x = entry_name fs (d, f))) ∧
       ((∀ h', NoDup (names_of b h')) → ∀ h', NoDup (names_of b' h')).
Proof.
  unfold read_branch_file, entry_hash, entry_name. simpl.
  destruct (negb _); [done|].
  destruct (dict_get (files fs) (path_join d f)) as [file|]; [|done].
  destruct (read_text _ file) as [contents|]; [|done]. rewrite res_bind_Ok.
  set (h := strip contents). set (name := drop_chars _ _).
  set (b1 := if decide (h ∈ keys b) then b else dict_set b h []).
  assert (∀ h', names_of b1 h' = names_of b h') as Hb1.
  { intros h'. unfold b1. case_decide as Hin; [done|].
    rewrite names_of_dict_set. case_decide; [|done]. subst.
    unfold names_of. apply dict_get_None in Hin. by rewrite Hin. }
  assert (∀ h', h' ∈ keys b1 ↔ h' = h ∨ h' ∈ keys b) as Hk1.
  { intros h'. unfold b1. case_decide; [naive_solver|]. apply keys_dict_set_elem. }
  unfold dict_item. destruct (dict_get b1 h) as [names|] eqn:Hnames.
  2:{ apply dict_get_None in Hnames. destruct Hnames. apply Hk1. by left. }
  rewrite res_bind_Ok. intros [= <-]. exists h. split; [done|].
  assert (names_of b h = names) as Hn.
  { rewrite <-Hb1. unfold names_of. by rewrite Hnames. }
  split_and!.
  - intros h'. rewrite keys_dict_set_elem, Hk1. naive_solver.
  - intros h' x. rewrite names_of_dict_set. case_decide as Hh.
    + rewrite elem_of_set_add, <-Hn, <-Hh. naive_solver.
    + rewrite Hb1. naive_solver.
  - intros Hnd h'. rewrite names_of_dict_set. case_decide as Hh.
    + apply NoDup_set_add. rewrite <-Hn. apply Hnd.
    + rewrite Hb1. apply Hnd.
Qed.

Lemma read_entries_names fs es : ∀ b b',
  read_entries fs es b = Ok b' →
  (∀ h, h ∈ keys b' ↔ h ∈ keys b ∨ ∃ e, e ∈ es ∧ entry_hash fs e = Some h) ∧
  (∀ h x, x ∈ names_of b' h ↔
          x ∈ names_of b h ∨
          ∃ e, e ∈ es ∧ entry_hash fs e = Some h ∧ x = entry_name fs e) ∧
  ((∀ h, NoDup (names_of b h)) → ∀ h, NoDup (names_of b' h)).
Proof.
  induction es as [|[d f] es IH]; intros b b'; simpl.
  - intros [= <-]. split_and!; [|
      |done].
    + intros h. split; [by left|]. intros [?|(e & ?%elem_of_nil & _)]; done.
    + intros h x. split; [by left|]. intros [?|(e & ?%elem_of_nil & _)]; done.
  - destruct (read_branch_file fs d f b) as [b1|] eqn:Hstep; [|done].
    rewrite res_bind_Ok. intros Hrest.
    destruct (read_branch_file_names _ _ _ _ _ Hstep) as (h0 & Hh0 & Hk1 & Hn1 & Hnd1).
    destruct (IH _ _ Hrest) as (Hk & Hn & Hnd).
    split_and!.
    + intros h. rewrite Hk, Hk1. split.
      * intros [[->|?]|(e & ? & ?)]; [right; exists (d, f)|by left|right; exists e];
          split; try done; by constructor.
      * intros [?|(e & [->|?]%elem_of_cons & He)]; [by left; right| |right; by exists e].
        left; left. congruence.
    + intros h x. rewrite Hn, Hn1. split.
      * intros [[?|[-> ->]]|(e & ? & ? & ?)];
          [by left|right; exists (d, f)|right; exists e];
          split_and!; try done; by constructor.
      * intros [?|(e & [->|?]%elem_of_cons & He & ->)];
          [by left; left| |right; by exists e].
        left; right. split; [congruence|done].
    + intros Hb. by apply Hnd, Hnd1.
Qed.

(** The same branch files in another order: every hash has the same names,
    in some order. *)
Lemma get_local_branches_order fs fs' git_dirpath branches branches' h :
  same_branches git_dirpath fs fs' →
  get_local_branches fs git_dirpath = Ok branches →
  get_local_branches fs' git_dirpath = Ok branches' →
  (h ∈ keys branches' ↔ h ∈ keys branches) ∧
  names_of branches' h ≡ₚ names_of branches h.
Proof.
  intros (Hcwd & Hdirs & Hfiles & Hperm). unfold get_local_branches.
  rewrite !read_branch_dirs_entries. intros Hrun Hrun'.
  destruct (read_entries_names _ _ _ _ Hrun) as (Hk & Hn & Hnd).
  destruct (read_entries_names _ _ _ _ Hrun') as (Hk' & Hn' & Hnd').
  assert (∀ e, entry_hash fs' e = entry_hash fs e) as Hhash
    by (intros; unfold entry_hash; by rewrite Hfiles).
  assert (∀ e, entry_name fs' e = entry_name fs e) as Hname
    by (intros; unfold entry_name; by rewrite Hcwd).
  split.
  - rewrite Hk, Hk'. setoid_rewrite Hhash. by setoid_rewrite Hperm.
  - apply NoDup_Permutation.
    + apply Hnd'. intros; constructor.
    + apply Hnd. intros; constructor.
    + intros x. rewrite Hn, Hn'. setoid_rewrite Hhash. setoid_rewrite Hname.
      by setoid_rewrite Hperm.
Qed.

(** * The same branch files in another order *)

Example get_local_branches_reordered :
  get_local_branches (repo_at "/r") "/r/.git" =
    Ok [("a1", ["main"]); ("b2", ["topic/feature"])] ∧
  get_local_branches repo_reordered "/r/.git" =
    Ok [("b2", ["topic/feature"]); ("a1", ["main"])].
Proof. vm_compute. done. Qed.

Example repo_reordered_same : same_branches "/r/.git" (repo_at "/r") repo_reordered.
Proof.
  split_and!; [reflexivity..|].
  change (branch_entries _ (walk repo_reordered))
    with [("/r/.git/refs/heads/topic", "feature"); ("/r/.git/refs/heads", "main")].
  change (branch_entries _ (walk (repo_at "/r")))
    with [("/r/.git/refs/heads", "main"); ("/r/.git/refs/heads/topic", "feature")].
  apply perm_swap.
Qed.

(** * The diagnostics of the fatal conditions *)

Lemma find_git_directory_diag fs e :
  find_git_directory fs = Some (Err e) →
  e = SystemExit 1 ("Not inside a Git repository" +:+ newline).
Proof.
  unfold find_git_directory. destruct (find_git_loop _ fs (cwd fs)); [|done].
  case_decide; congruence.
Qed.

(** The Object Reader writes a diagnostic for an object that is not there; an
    object that is there but cannot be opened, decompressed or decoded ends
    the script with the uncaught exception. *)
Lemma read_parents_diag fs hash e :
  read_parents fs hash = Err e →
((object_path fs hash ∉ keys (files fs)) ∧
   e = SystemExit 1 ("Object for hash " +:+ hash +:+ " not found")) ∨
  (object_path fs hash ∈ keys (files fs) ∧
   (e = OSError (object_path fs hash) ∨ e = ZlibError (object_path fs hash) ∨
    e = UnicodeDecodeError (object_path fs hash))).
Proof.
  unfold read_parents, path_isfile.
  destruct (bool_decide _) eqn:Hfile; simpl.
  - apply bool_decide_eq_true in Hfile. pose proof Hfile as Hin.
    apply dict_get_is_Some in Hfile as [file ->]. unfold read_object.
    destruct (opens file); [|intros [= <-]; right; eauto].
    destruct (inflated file) as [[s|]|]; [done|intros [= <-]; right; eauto..].
  - apply bool_decide_eq_false in Hfile. intros [= <-]. by left.
Qed.

Lemma read_parents_exit_code fs hash e :
  read_parents fs hash = Err e → exit_code (Err e) = 1.
Proof. intros [[_ ->]|[_ [->|[->| ->]]]]%read_parents_diag; done. Qed.

Lemma topo_sort_diag g e :
  graph_ok g → topo_sort g = Some (Err e) →
  e = SystemExit 1 "Cycle detected in graph".
Proof.
  intros Hok. destruct (topo_sort_run g Hok) as (r & g' & _ & ->).
  case_decide; congruence.
Qed.

(** The Branch Enumerator has no diagnostic for any of its failures. *)
Lemma read_branch_file_diag fs d f b e :
  read_branch_file fs d f b = Err e →
  (path_exists fs (path_join d f) = false ∧ e = SystemExit 1 "") ∨
  (path_exists fs (path_join d f) = true ∧
   (e = OSError (path_join d f) ∨ e = UnicodeDecodeError (path_join d f))).
Proof.
  unfold read_branch_file, dict_item.
  destruct (path_exists fs _); simpl; [|intros [= <-]; by left].
  destruct (dict_get (files fs) _) as [file|]; [|intros [= <-]; right; eauto].
  unfold read_text. destruct (opens file); [|intros [= <-]; right; eauto].
  destruct (text file) as [s|]; [|intros [= <-]; right; eauto].
  rewrite res_bind_Ok.
  destruct (dict_get _ (strip s)) eqn:Hget; [done|].
  apply dict_get_None in Hget. destruct Hget.
  case_decide; [done|]. apply keys_dict_set_elem. by left.
Qed.

Lemma read_entries_diag fs es : ∀ b e,
  read_entries fs es b = Err e →
  e = SystemExit 1 "" ∨ (∃ path, e = OSError path) ∨ ∃ path, e = UnicodeDecodeError path.
Proof.
  induction es as [|[d f] es IH]; intros b e; simpl; [done|].
  destruct (read_branch_file fs d f b) as [b1|e1] eqn:Hstep.
  - rewrite res_bind_Ok. apply IH.
  - rewrite res_bind_Err. intros [= <-].
    apply read_branch_file_diag in Hstep as [[_ ->]|[_ [->| ->]]]; eauto.
Qed.

(** On a graph that breaks the invariant of the data model the sorter can end
    with an uncaught [KeyError]. *)
Example topo_sort_one_sided : topo_sort one_sided = Some (Err (KeyError "a")).
Proof. vm_compute. done. Qed.

(** * Branch names when the script is started in the root of the repository *)

Lemma append_cons c s t : String c s +:+ t = String c (s +:+ t).
Proof. reflexivity. Qed.

Lemma append_nil_inv s t : s +:+ t = "" → s = "" ∧ t = "".
Proof. destruct s; [done|]. by rewrite append_cons. Qed.

Lemma rev_app_append s1 : ∀ s2 acc,
  String.rev_app (s1 +:+ s2) acc = String.rev_app s2 (String.rev_app s1 acc).
Proof.
  induction s1 as [|c s1 IH]; intros s2 acc; [done|].
  rewrite append_cons. simpl. apply IH.
Qed.

Lemma rev_app_acc s : ∀ acc, String.rev_app s acc = String.rev_app s "" +:+ acc.
Proof.
  induction s as [|c s IH]; intros acc; [done|].
  simpl. rewrite IH, (IH (String c "")), append_assoc. done.
Qed.

Lemma rev_append s1 s2 : String.rev (s1 +:+ s2) = String.rev s2 +:+ String.rev s1.
Proof. unfold String.rev. by rewrite rev_app_append, rev_app_acc. Qed.

Lemma rev_nonempty s : s ≠ "" → String.rev s ≠ "".
Proof.
  destruct s as [|c s]; [done|]. intros _. unfold String.rev. simpl.
  rewrite rev_app_acc. intros [_ ?]%append_nil_inv. done.
Qed.

Lemma starts_with_slash_append s1 s2 :
  s1 ≠ "" → starts_with_slash (s1 +:+ s2) = starts_with_slash s1.
Proof. destruct s1; [done|]. by rewrite append_cons. Qed.

Lemma ends_with_slash_append s1 s2 :
  s2 ≠ "" → ends_with_slash (s1 +:+ s2) = ends_with_slash s2.
Proof.
  intros Hs2. unfold ends_with_slash.
  rewrite rev_append. by apply starts_with_slash_append, rev_nonempty.
Qed.

Lemma drop_chars_append s1 s2 : drop_chars (String.length s1) (s1 +:+ s2) = s2.
Proof. induction s1 as [|c s1 IH]; [done|]. by rewrite append_cons. Qed.

Lemma path_join_plain a b :
  starts_with_slash b = false → a ≠ "" → ends_with_slash a = false →
  path_join a b = a +:+ "/" +:+ b.
Proof.
  intros Hb Ha Hslash. unfold path_join.
  by rewrite Hb, Hslash, bool_decide_eq_false_2.
Qed.

Lemma branch_top_at_root dir :
  path_join (path_join (dir +:+ "/.git") "refs") "heads" = dir +:+ "/.git/refs/heads".
Proof.
  rewrite (path_join_plain (dir +:+ "/.git") "refs"); [|done| |].
  - rewrite path_join_plain; [|done| |].
    + by rewrite !append_assoc.
    + by intros [_ ?]%append_nil_inv.
    + rewrite append_assoc. by rewrite ends_with_slash_append.
  - by intros [_ ?]%append_nil_inv.
  - by rewrite ends_with_slash_append.
Qed.

(** Started in the root of the repository, the enumerator gives a branch file
    the name that the specification asks for. *)
Lemma entry_name_at_root fs sub filename :
  starts_with_slash filename = false →
  sub = "" ∨ (sub ≠ "" ∧ starts_with_slash sub = false ∧ ends_with_slash sub = false) →
  entry_name fs
    (walk_dirpath (path_join (path_join (cwd fs +:+ "/.git") "refs") "heads") sub,
     filename) =
  spec_branch_name sub filename.
Proof.
  intros Hfile Hsub. rewrite branch_top_at_root.
  unfold entry_name, walk_dirpath, spec_branch_name. simpl.
  assert (cwd fs +:+ "/.git/refs/heads" ≠ "") as Htop
    by (by intros [_ ?]%append_nil_inv).
  assert (ends_with_slash (cwd fs +:+ "/.git/refs/heads") = false) as Hslash
    by (by rewrite ends_with_slash_append).
  destruct Hsub as [->|(Hne & Hstart & Hend)].
  - rewrite !decide_True by done. rewrite path_join_plain by done.
    replace ((cwd fs +:+ "/.git/refs/heads") +:+ "/" +:+ filename)
      with ((cwd fs +:+ "/.git/refs/heads/") +:+ filename)
      by (by rewrite !append_assoc).
    apply drop_chars_append.
  - rewrite !decide_False by done. rewrite (path_join_plain _ sub) by done.
    rewrite path_join_plain; [|done| |].
    + replace (((cwd fs +:+ "/.git/refs/heads") +:+ "/" +:+ sub) +:+ "/" +:+ filename)
        with ((cwd fs +:+ "/.git/refs/heads/") +:+ sub +:+ "/" +:+ filename)
        by (by rewrite !append_assoc).
      apply drop_chars_append.
    + by intros [_ [? _]%append_nil_inv]%append_nil_inv.
    + rewrite ends_with_slash_append by (by intros [? _]%append_nil_inv).
      change ("/" +:+ sub) with (String "/" "" +:+ sub).
      by rewrite ends_with_slash_append.
Qed.

(** * More about [topo_sort] *)

(** X1. The loop of [topo_sort] ends on every graph, well formed or not,
    cyclic or not: the call returns a list or fails. *)
Theorem topo_sort_terminates (g : Graph) :
  (∃ l, topo_sort g = Some (Ok l)) ∨ (∃ e, topo_sort g = Some (Err e)).
Proof.
  destruct (topo_sort_total g) as [[l|e] Hrun]; [left|right]; eauto.
Qed.

(** X2. On a well-formed graph [topo_sort] returns a list exactly when the
    graph has no cycle, and its only failure is the exit with code 1 and the
    cycle diagnostic: no [KeyError] comes out. *)
Theorem topo_sort_returns_iff_acyclic (g : Graph) :
  graph_ok g →
  ((∃ l, topo_sort g = Some (Ok l)) ↔ acyclic g) ∧
  (∀ e, topo_sort g = Some (Err e) → e = SystemExit 1 "Cycle detected in graph").
Proof.
  intros Hok. split; [split|].
  - intros [l Hl] c Hc.
    destruct (topo_sort_run g Hok) as (r & g' & Hinv & Hrun).
    rewrite Hrun in Hl. destruct (decide (length r ≠ length g)) as [|Heq]; [done|].
    apply dec_stable in Heq.
    destruct (before_irrefl c r); [by eapply final_NoDup|].
    eapply final_tc_before; [done..| |done]. by eapply final_full_length.
  - intros Hacyc. destruct (topo_sort_acyclic g Hok Hacyc) as (r & _ & _ & Hrun & _).
    by exists r.
  - intros e. by apply topo_sort_diag.
Qed.

Lemma topo_sort_returns_iff_acyclic_witness :
  graph_ok diamond ∧
  ((∃ l, topo_sort diamond = Some (Ok l)) ↔ acyclic diamond).
Proof.
  split; [apply diamond_ok|].
  apply (topo_sort_returns_iff_acyclic diamond diamond_ok).
Defined.

Lemma remove_edge_queue curr p g q g' q' :
  remove_edge curr p (g, q) = Ok (g', q') → ∃ new, q' = q ++ new.
Proof.
  unfold remove_edge.
  destruct (dict_item g curr) as [n|]; [|done]. rewrite res_bind_Ok.
  destruct (set_remove p (parents n)) as [ps|]; [|done]. rewrite res_bind_Ok.
  destruct (dict_item _ p) as [pn|]; [|done]. rewrite res_bind_Ok.
  destruct (set_remove curr (children pn)) as [cs|]; [|done]. rewrite res_bind_Ok.
  case_decide; intros [= _ <-]; [by exists [p]|exists []; by rewrite app_nil_r].
Qed.

Lemma remove_edges_queue curr ps : ∀ g q g' q',
  remove_edges curr ps (g, q) = Ok (g', q') → ∃ new, q' = q ++ new.
Proof.
  induction ps as [|p ps IH]; intros g q g' q'; cbn [remove_edges].
  - intros [= _ <-]. exists []. by rewrite app_nil_r.
  - destruct (remove_edge curr p (g, q)) as [[g1 q1]|] eqn:Hstep; [|done].
    rewrite res_bind_Ok. intros Hrest.
    apply remove_edge_queue in Hstep as [new1 ->].
    apply IH in Hrest as [new2 ->]. exists (new1 ++ new2). by rewrite app_assoc.
Qed.

Lemma topo_loop_prefix fuel : ∀ g q r l,
  topo_loop fuel g q r = Some (Ok l) → ∃ rest, l = r ++ q ++ rest.
Proof.
  induction fuel as [|fuel IH]; intros g q r l; [done|]. simpl.
  destruct q as [|curr q]; [intros [= <-]; exists []; by rewrite !app_nil_r|].
  destruct (dict_item g curr) as [n|]; [|done].
  destruct (remove_edges curr (parents n) (g, q)) as [[g' q']|] eqn:Hrun; [|done].
  intros Hrest. apply remove_edges_queue in Hrun as [new ->].
  apply IH in Hrest as [rest ->]. exists (new ++ rest).
  by rewrite <-!app_assoc.
Qed.

(** X3. The list that [topo_sort] returns starts with the childless commits
    (the branch tips), in the order of the dictionary; the queue is served
    first in, first out. *)
Theorem topo_sort_tips_first (g : Graph) (l : list string) :
  topo_sort g = Some (Ok l) →
  ∃ rest, l = filter (λ k, chi g k = []) (keys g) ++ rest.
Proof.
  unfold topo_sort. cbv zeta. rewrite init_queue_filter by done. rewrite app_nil_l.
  destruct (topo_loop (topo_fuel g _) g _ []) as [[r|]|] eqn:Hloop; [|done..].
  case_decide; [done|]. intros [= <-].
  apply topo_loop_prefix in Hloop as [rest ->]. by exists rest.
Qed.

Lemma topo_sort_tips_first_witness :
  topo_sort diamond = Some (Ok ["dddd"; "bb"; "ccc"; "a"]) ∧
  ∃ rest, ["dddd"; "bb"; "ccc"; "a"] =
          filter (λ k, chi diamond k = []) (keys diamond) ++ rest.
Proof.
  split; [by vm_compute|].
  apply (topo_sort_tips_first diamond). by vm_compute.
Defined.

(** * More about the Graph Builder *)

Lemma keys_ensure_node g p h k : k ∈ keys (ensure_node g p h) ↔ k ∈ keys g ∨ k = p.
Proof.
  unfold ensure_node. case_decide; [naive_solver|].
  rewrite keys_dict_set_elem. naive_solver.
Qed.

Lemma par_ensure_node g p h k : par (ensure_node g p h) k = par g k.
Proof.
  unfold ensure_node. case_decide as Hp; [done|].
  rewrite par_dict_set. case_decide; [|done]. subst. by rewrite par_not_key.
Qed.

(** What one round of [for parent in curr_parents] does to the keys, to the
    stack and to the parents. *)
Lemma add_parent_spec visited c p g s g' s' :
  add_parent visited c p (g, s) = Ok (g', s') →
  (∀ k, k ∈ keys g' ↔ k ∈ keys g ∨ k = p) ∧
  (∀ x, x ∈ s' ↔ x ∈ s ∨ (x = p ∧ p ∉ visited)) ∧
  (∀ k x, x ∈ par g' k ↔ x ∈ par g k ∨ (k = c ∧ x = p)).
Proof.
  unfold add_parent, dict_item.
  destruct (dict_get (ensure_node g p c) c) as [n|] eqn:Hn; [|done].
  rewrite res_bind_Ok.
  destruct (dict_get (dict_set _ c _) p) as [pn|] eqn:Hpn; [|done].
  rewrite res_bind_Ok. intros [= <- <-].
  pose proof (dict_get_Some_keys _ _ _ Hn) as Hc. apply keys_ensure_node in Hc.
  pose proof (par_dict_get _ _ _ Hn) as Hparn. rewrite par_ensure_node in Hparn.
  pose proof (par_dict_get _ _ _ Hpn) as Hparp. rewrite par_dict_set in Hparp.
  split_and!.
  - intros k. rewrite !keys_dict_set_elem, keys_ensure_node. naive_solver.
  - intros x. destruct (decide (p ∈ visited)); [naive_solver|].
    rewrite elem_of_set_add. naive_solver.
  - intros k x. rewrite !par_dict_set. simpl. rewrite <-Hparp, par_ensure_node.
    repeat case_decide; subst; simpl;
      rewrite ?par_ensure_node, ?elem_of_set_add, <-?Hparn; naive_solver.
Qed.

Lemma add_parents_spec visited c ps : ∀ g s g' s',
  add_parents visited c ps (g, s) = Ok (g', s') →
  (∀ k, k ∈ keys g' ↔ k ∈ keys g ∨ k ∈ ps) ∧
  (∀ x, x ∈ s' ↔ x ∈ s ∨ (x ∈ ps ∧ x ∉ visited)) ∧
  (∀ k x, x ∈ par g' k ↔ x ∈ par g k ∨ (k = c ∧ x ∈ ps)).
Proof.
  induction ps as [|p ps IH]; intros g s g' s'; cbn [add_parents].
  - intros [= <- <-]. split_and!; intros; rewrite ?elem_of_nil; naive_solver.
  - destruct (add_parent visited c p (g, s)) as [[g1 s1]|] eqn:Hstep; [|done].
    rewrite res_bind_Ok. intros Hrest.
    destruct (add_parent_spec _ _ _ _ _ _ _ Hstep) as (Hk1 & Hs1 & Hp1).
    destruct (IH _ _ _ _ Hrest) as (Hk & Hs & Hp).
    split_and!.
    + intros k. rewrite Hk, Hk1, elem_of_cons. naive_solver.
    + intros x. rewrite Hs, Hs1, elem_of_cons. naive_solver.
    + intros k x. rewrite Hp, Hp1, elem_of_cons. naive_solver.
Qed.

Lemma graph_loop_edges fs fuel : ∀ choices stack result visited g,
  graph_loop fuel fs choices stack result visited = Some (Ok g) →
  edges_inv fs stack result visited →
  (∃ visited', edges_inv fs [] g visited') ∧
  (∀ k, k ∈ keys result → k ∈ keys g) ∧
  (∀ x, x ∈ stack → strip x ∈ keys g).
Proof.
  induction fuel as [|fuel IH]; intros choices stack result visited g; [done|].
  cbn [graph_loop]. destruct stack as [|x0 stack0].
  { intros [= <-] Hinv. split_and!; [by exists visited|done|by intros ? ?%elem_of_nil]. }
  destruct (set_pop _ (x0 :: stack0)) as [[top stack]|] eqn:Hpop; [|done].
  apply set_pop_Ok in Hpop. remember (x0 :: stack0) as stack1 eqn:Heq. clear Heq x0 stack0.
  intros Hrun (Hv & Hnv & Hkeys & Hvk).
  setoid_rewrite Hpop in Hkeys. setoid_rewrite Hpop.
  destruct (decide (strip top ∈ visited)) as [Hseen|Hnew].
  - destruct (IH _ _ _ _ _ Hrun) as (Hfin & Hmono & Hstack).
    { split_and!; [done..| |done]. intros k Hk Hstrip.
      destruct (Hkeys k Hk Hstrip) as [?|[->|?]%elem_of_cons]; [by left| |by right].
      left. by rewrite <-Hstrip. }
    split_and!; [done..|].
    intros x [->|?]%elem_of_cons; [|by apply Hstack]. by apply Hmono, Hvk.
  - destruct (read_parents fs (strip top)) as [ps|] eqn:Hps; [|done].
    destruct (add_parents _ _ _ _) as [[result' stack']|] eqn:Hadd; [|done].
    destruct (add_parents_spec _ _ _ _ _ _ _ Hadd) as (Hk' & Hs' & Hp').
    setoid_rewrite elem_of_reorder in Hk'. setoid_rewrite elem_of_reorder in Hs'.
    setoid_rewrite elem_of_reorder in Hp'.
    destruct (IH _ _ _ _ _ Hrun) as (Hfin & Hmono & Hstack).
    { split_and!.
      - intros k [->|Hk]%elem_of_set_add.
        + exists ps. split; [done|]. intros p.
          rewrite Hp', par_ensure_node, (Hnv _ Hnew), elem_of_nil. naive_solver.
        + destruct (Hv k Hk) as (ps' & Hps' & Hpar). exists ps'. split; [done|].
          intros p. rewrite Hp', par_ensure_node, Hpar. naive_solver.
      - intros k Hk. rewrite elem_of_set_add in Hk.
        apply elem_of_nil_inv. intros x. rewrite Hp', par_ensure_node, Hnv by naive_solver.
        rewrite elem_of_nil. naive_solver.
      - intros k Hk Hstrip. rewrite elem_of_set_add, Hs', elem_of_set_add.
        apply Hk' in Hk as [Hk|Hk].
        + apply keys_ensure_node in Hk as [Hk| ->]; [|by left; left].
          destruct (Hkeys k Hk Hstrip) as [?|[->|?]%elem_of_cons];
            [by left; right| |by right; left].
          left; left. by rewrite Hstrip.
        + destruct (decide (k = strip top ∨ k ∈ visited)); [by left|].
          right; right. naive_solver.
      - intros k [->|Hk]%elem_of_set_add; apply Hk'; left.
        + apply ensure_node_key.
        + by apply ensure_node_keys, Hvk. }
    split_and!; [done| |].
    + intros k Hk. apply Hmono, Hk'. left. by apply ensure_node_keys.
    + intros x [->|Hx]%elem_of_cons.
      * apply Hmono, Hk'. left. apply ensure_node_key.
      * apply Hstack, Hs'. by left.
Qed.

Lemma edges_inv_nil fs stack : edges_inv fs stack [] [].
Proof.
  split_and!; [by intros ? ?%elem_of_nil|done|by intros ? ?%elem_of_nil|
               by intros ? ?%elem_of_nil].
Qed.

(** X4. Every graph that [make_commit_graph] returns, whatever the schedule,
    satisfies the invariant of the data model: no key twice, the sets without duplicates, [children]
    the inverse of [parents]; so every parent of a node is a key of the
    graph and has the node among its children. *)
Theorem make_commit_graph_well_formed choices fuel fs branch_dict g :
  make_commit_graph choices fuel fs branch_dict = Some (Ok g) →
  graph_ok g ∧
  ∀ c p, is_parent g c p → p ∈ keys g ∧ is_child g p c.
Proof.
  intros Hrun. pose proof (make_commit_graph_ok _ _ _ _ _ Hrun) as Hok.
  split; [done|]. intros c p Hcp. apply (graph_inverse _ Hok) in Hcp.
  split; [by eapply is_child_key|done].
Qed.

Lemma make_commit_graph_linear choices :
  make_commit_graph choices 3 repo_linear [("c2ffee", ["main"])] = Some (Ok linear_graph).
Proof. by vm_compute. Qed.

Lemma make_commit_graph_well_formed_witness :
  make_commit_graph [1] 5 repo_fork [("t2bb", ["main"]); ("p1cc", ["dev"])] =
    Some (Ok fork_graph) ∧
  graph_ok fork_graph.
Proof.
  assert (make_commit_graph [1] 5 repo_fork [("t2bb", ["main"]); ("p1cc", ["dev"])] =
            Some (Ok fork_graph)) as Hrun by (by vm_compute).
  split; [done|].
  apply (make_commit_graph_well_formed [1] 5 repo_fork
           [("t2bb", ["main"]); ("p1cc", ["dev"])] fork_graph Hrun).
Defined.

(** X5. The graph that [make_commit_graph] returns, whatever the schedule,
    has a node for every hash of the branch map, with the white space around
    it taken off. *)
Theorem make_commit_graph_tips choices fuel fs branch_dict g h :
  make_commit_graph choices fuel fs branch_dict = Some (Ok g) →
  h ∈ keys branch_dict → strip h ∈ keys g.
Proof.
  intros Hrun Hh.
  destruct (graph_loop_edges _ _ _ _ _ _ _ Hrun (edges_inv_nil _ _)) as (_ & _ & Hstack).
  by apply Hstack.
Qed.

Lemma make_commit_graph_tips_witness :
  make_commit_graph [] 3 repo_linear [("c2ffee", ["main"])] = Some (Ok linear_graph) ∧
  "c2ffee" ∈ keys [("c2ffee", ["main"])] ∧
  strip "c2ffee" ∈ keys linear_graph.
Proof.
  split; [apply make_commit_graph_linear|]. split; [left|].
  apply (make_commit_graph_tips [] 3 repo_linear [("c2ffee", ["main"])] linear_graph
           "c2ffee");
    [apply make_commit_graph_linear|left].
Defined.

(** X6. In the graph that [make_commit_graph] returns, whatever the
    schedule, every edge comes from the object of the child: the parents of a node are among the hashes that
    [parents] reads for its key, and they are exactly those for every key
    without white space around it. *)
Theorem make_commit_graph_edges choices fuel fs branch_dict g :
  make_commit_graph choices fuel fs branch_dict = Some (Ok g) →
  (∀ c p, is_parent g c p → ∃ ps, read_parents fs c = Ok ps ∧ p ∈ ps) ∧
  (∀ c, c ∈ keys g → strip c = c →
     ∃ ps, read_parents fs c = Ok ps ∧ ∀ p, is_parent g c p ↔ p ∈ ps).
Proof.
  intros Hrun.
  destruct (graph_loop_edges _ _ _ _ _ _ _ Hrun (edges_inv_nil _ _))
    as ([visited (Hv & Hnv & Hkeys & _)] & _ & _).
  split.
  - intros c p Hcp%is_parent_par.
    destruct (decide (c ∈ visited)) as [Hc|Hc].
    + destruct (Hv c Hc) as (ps & Hps & Hpar). exists ps. split; [done|]. by apply Hpar.
    + rewrite (Hnv c Hc) in Hcp. by apply elem_of_nil in Hcp.
  - intros c Hc Hstrip.
    destruct (Hkeys c Hc Hstrip) as [Hvis|?%elem_of_nil]; [|done].
    destruct (Hv c Hvis) as (ps & Hps & Hpar). exists ps. split; [done|].
    intros p. by rewrite is_parent_par.
Qed.

Lemma make_commit_graph_edges_witness :
  make_commit_graph [] 3 repo_linear [("c2ffee", ["main"])] = Some (Ok linear_graph) ∧
  ∃ ps, read_parents repo_linear "c2ffee" = Ok ps ∧
        ∀ p, is_parent linear_graph "c2ffee" p ↔ p ∈ ps.
Proof.
  split; [apply make_commit_graph_linear|].
  apply (make_commit_graph_edges [] 3 repo_linear [("c2ffee", ["main"])] linear_graph
           (make_commit_graph_linear [])); [left|by vm_compute].
Defined.

Lemma dict_get_ensure_node_ne g p h k :
  k ≠ p → dict_get (ensure_node g p h) k = dict_get g k.
Proof.
  intros Hk. unfold ensure_node. case_decide; [done|].
  rewrite dict_get_set. by rewrite decide_False.
Qed.

Lemma dict_get_ensure_node_new g p h :
  p ∉ keys g → dict_get (ensure_node g p h) p = Some (new_CommitNode h).
Proof.
  intros Hp. unfold ensure_node. rewrite decide_False by done.
  rewrite dict_get_set. by rewrite decide_True.
Qed.

Lemma ensure_node_old g p h : p ∈ keys g → ensure_node g p h = g.
Proof. intros Hp. unfold ensure_node. by rewrite decide_True. Qed.

Lemma hash_inv_ensure_self g k : hash_inv g → hash_inv (ensure_node g k k).
Proof.
  intros Hinv k' n. destruct (decide (k' = k)) as [->|Hne].
  - destruct (decide (k ∈ keys g)) as [Hk|Hk].
    + rewrite ensure_node_old by done. apply Hinv.
    + rewrite dict_get_ensure_node_new by done. intros [= <-]. by left.
  - rewrite dict_get_ensure_node_ne by done. apply Hinv.
Qed.

Lemma add_parent_hash visited c p g s g' s' :
  add_parent visited c p (g, s) = Ok (g', s') → hash_inv g → hash_inv g'.
Proof.
  unfold add_parent, dict_item. intros Hrun Hinv.
  destruct (dict_get (ensure_node g p c) c) as [nc|] eqn:Hnc; [|done].
  rewrite res_bind_Ok in Hrun.
  destruct (dict_get (dict_set _ c _) p) as [pn|] eqn:Hpn; [|done].
  rewrite res_bind_Ok in Hrun. injection Hrun as <- _.
  assert (∃ n1, dict_get (ensure_node g p c) p = Some n1 ∧
                commit_hash pn = commit_hash n1 ∧ children pn = children n1)
    as (n1 & Hn1 & Hhash & Hchildren).
  { rewrite dict_get_set in Hpn. case_decide as Hcp.
    - injection Hpn as <-. subst. by exists nc.
    - by exists pn. }
  intros k n. rewrite !dict_get_set.
  destruct (decide (p = k)) as [<-|Hpk].
  - intros [= <-]. simpl. rewrite Hhash, Hchildren, elem_of_set_add.
    destruct (decide (p ∈ keys g)) as [Hp|Hp].
    + rewrite ensure_node_old in Hn1 by done.
      destruct (Hinv _ _ Hn1); [by left|by right; right].
    + rewrite dict_get_ensure_node_new in Hn1 by done. injection Hn1 as <-.
      right; by left.
  - destruct (decide (c = k)) as [<-|Hck].
    + intros [= <-]. simpl. rewrite dict_get_ensure_node_ne in Hnc by done.
      by apply Hinv.
    + rewrite dict_get_ensure_node_ne by done. apply Hinv.
Qed.

Lemma add_parents_hash visited c ps : ∀ g s g' s',
  add_parents visited c ps (g, s) = Ok (g', s') → hash_inv g → hash_inv g'.
Proof.
  induction ps as [|p ps IH]; intros g s g' s'; cbn [add_parents].
  - by intros [= <- <-].
  - destruct (add_parent visited c p (g, s)) as [[g1 s1]|] eqn:Hstep; [|done].
    rewrite res_bind_Ok. intros Hrest Hinv.
    eapply IH; [done|]. by eapply add_parent_hash.
Qed.

Lemma graph_loop_hash fuel fs : ∀ choices stack result visited g,
  graph_loop fuel fs choices stack result visited = Some (Ok g) →
  hash_inv result → hash_inv g.
Proof.
  induction fuel as [|fuel IH]; intros choices stack result visited g; [done|].
  cbn [graph_loop]. destruct stack as [|x0 stack0]; [by intros [= <-]|].
  destruct (set_pop _ (x0 :: stack0)) as [[top stack]|]; [|done].
  case_decide; [apply IH|].
  destruct (read_parents fs (strip top)) as [ps|]; [|done].
  destruct (add_parents _ _ _ _) as [[result' stack'']|] eqn:Hadd; [|done].
  intros Hrun Hinv. eapply IH; [done|].
  eapply add_parents_hash; [done|]. by apply hash_inv_ensure_self.
Qed.

(** X7. In the graph that [make_commit_graph] returns, whatever the
    schedule, the [commit_hash] of a node is the key of the node or the hash
    of one of its children (the child for whose parent list the node was
    made). *)
Theorem make_commit_graph_commit_hash choices fuel fs branch_dict g k n :
  make_commit_graph choices fuel fs branch_dict = Some (Ok g) →
  dict_get g k = Some n →
  commit_hash n = k ∨ is_child g k (commit_hash n).
Proof.
  intros Hrun Hk.
  assert (hash_inv g) as Hinv by (eapply graph_loop_hash; [done|]; by intros ? ?).
  destruct (Hinv _ _ Hk); [by left|right]. by exists n.
Qed.

Lemma make_commit_graph_commit_hash_witness :
  make_commit_graph [1] 5 repo_fork [("t2bb", ["main"]); ("p1cc", ["dev"])] =
    Some (Ok fork_graph) ∧
  dict_get fork_graph "q1dd" = Some (mkCommitNode "p1cc" [] ["p1cc"; "t2bb"]) ∧
  ("p1cc" = "q1dd" ∨ is_child fork_graph "q1dd" "p1cc").
Proof.
  assert (make_commit_graph [1] 5 repo_fork [("t2bb", ["main"]); ("p1cc", ["dev"])] =
            Some (Ok fork_graph)) as Hrun by (by vm_compute).
  split; [done|]. split; [reflexivity|].
  apply (make_commit_graph_commit_hash [1] 5 repo_fork
           [("t2bb", ["main"]); ("p1cc", ["dev"])] fork_graph "q1dd"
           (mkCommitNode "p1cc" [] ["p1cc"; "t2bb"]) Hrun).
  reflexivity.
Defined.

(** ** The Graph Builder ends *)

Lemma concat_fmap_elem {A B} (f : A → list B) (l : list A) (x : A) :
  x ∈ l →
  (∀ y, y ∈ f x → y ∈ concat (f <$> l)) ∧ length (f x) ≤ length (concat (f <$> l)).
Proof.
  induction l as [|a l IH]; [by intros ?%elem_of_nil|].
  rewrite fmap_cons, concat_cons, length_app.
  intros [->|Hx]%elem_of_cons.
  - split; [|lia]. intros y Hy. apply elem_of_app. by left.
  - destruct (IH Hx) as [Hin Hlen]. split; [|lia].
    intros y Hy. apply elem_of_app. right. by apply Hin.
Qed.

Lemma read_parents_all fs hash ps :
  read_parents fs hash = Ok ps →
  (∀ p, p ∈ ps → p ∈ all_parents fs) ∧ length ps ≤ length (all_parents fs).
Proof.
  unfold read_parents, all_parents. destruct (negb _); [done|].
  destruct (dict_get (files fs) _) as [obj|] eqn:Hfile; [|done].
  destruct (read_object _ obj) as [payload|] eqn:Hread; [|done].
  rewrite res_bind_Ok. intros [= <-].
  apply dict_get_elem_of in Hfile.
  pose proof (concat_fmap_elem
                (λ kv : string * file,
                   match read_object kv.1 kv.2 with
                   | Ok decompressed_object => parents_of_payload decompressed_object
                   | Err _ => []
                   end) _ _ Hfile) as Hall.
  simpl in Hall. by rewrite Hread in Hall.
Qed.

Lemma length_set_add x s : length (set_add x s) ≤ S (length s).
Proof. unfold set_add. case_decide; [lia|]. rewrite length_app. simpl. lia. Qed.

Lemma add_parent_stack_length visited c p g s g' s' :
  add_parent visited c p (g, s) = Ok (g', s') → length s' ≤ S (length s).
Proof.
  unfold add_parent.
  destruct (dict_item _ c) as [n|]; [|done]. rewrite res_bind_Ok.
  destruct (dict_item _ p) as [pn|]; [|done]. rewrite res_bind_Ok.
  intros [= _ <-]. case_decide; [lia|apply length_set_add].
Qed.

Lemma add_parents_stack_length visited c ps : ∀ g s g' s',
  add_parents visited c ps (g, s) = Ok (g', s') → length s' ≤ length s + length ps.
Proof.
  induction ps as [|p ps IH]; intros g s g' s'; cbn [add_parents].
  - intros [= _ <-]. simpl. lia.
  - destruct (add_parent visited c p (g, s)) as [[g1 s1]|] eqn:Hstep; [|done].
    rewrite res_bind_Ok. intros Hrest.
    apply add_parent_stack_length in Hstep. apply IH in Hrest. simpl. lia.
Qed.

Section builder_fuel.
Variables (fs : filesystem) (branch_dict : BranchMap).

Lemma graph_loop_fuel fuel : ∀ choices stack result visited,
  NoDup visited →
  (∀ v, v ∈ visited → v ∈ strip <$> builder_hashes fs branch_dict) →
  (∀ x, x ∈ stack → x ∈ builder_hashes fs branch_dict) →
  builder_measure fs branch_dict stack visited < fuel →
  is_Some (graph_loop fuel fs choices stack result visited).
Proof.
  induction fuel as [|fuel IH]; intros choices stack result visited Hnd Hv Hs Hfuel; [lia|].
  cbn [graph_loop]. destruct stack as [|x0 stack0]; [done|].
  destruct (set_pop _ (x0 :: stack0)) as [[top stack]|] eqn:Hpop; [|done].
  apply set_pop_Ok in Hpop. remember (x0 :: stack0) as stack1 eqn:Heq. clear Heq x0 stack0.
  setoid_rewrite Hpop in Hs.
  unfold builder_measure in *. rewrite Hpop in Hfuel. simpl in Hfuel.
  destruct (decide (strip top ∈ visited)) as [Hseen|Hnew].
  - apply IH; [done|done| |lia]. intros x Hx. apply Hs. by right.
  - destruct (read_parents fs (strip top)) as [ps|] eqn:Hps; [|done].
    destruct (add_parents _ _ _ _) as [[result' stack']|] eqn:Hadd; [|done].
    destruct (read_parents_all _ _ _ Hps) as [Hall Hlen].
    destruct (add_parents_spec _ _ _ _ _ _ _ Hadd) as (_ & Hs' & _).
    setoid_rewrite elem_of_reorder in Hs'.
    apply add_parents_stack_length in Hadd. rewrite length_reorder in Hadd.
    assert (set_add (strip top) visited = visited ++ [strip top]) as Hadd_v
      by (unfold set_add; by rewrite decide_False).
    assert (NoDup (visited ++ [strip top])) as Hnd'.
    { apply NoDup_app. split_and!; [done| |apply NoDup_singleton].
      by intros x Hx ->%list_elem_of_singleton. }
    assert (∀ v, v ∈ visited ++ [strip top] →
                 v ∈ strip <$> builder_hashes fs branch_dict) as Hv'.
    { intros v [?| ->%list_elem_of_singleton]%elem_of_app; [by apply Hv|].
      apply list_elem_of_fmap_2, Hs. left. }
    assert (length (visited ++ [strip top]) ≤ length (builder_hashes fs branch_dict))
      as Hbound.
    { rewrite <-(length_fmap strip (builder_hashes fs branch_dict)).
      apply submseteq_length, NoDup_submseteq; done. }
    rewrite Hadd_v. rewrite length_app in Hbound. simpl in Hbound.
    apply IH; [done|done| |].
    + intros x [Hx|[Hx _]]%Hs'; [apply Hs; by right|].
      unfold builder_hashes. apply elem_of_app. right. by apply Hall.
    + rewrite length_app. simpl.
      replace (length (builder_hashes fs branch_dict) - length visited)
        with (S (length (builder_hashes fs branch_dict) - (length visited + 1)))
        in Hfuel by lia.
      simpl in Hfuel. lia.
Qed.

Lemma graph_loop_more_fuel fuel : ∀ fuel' choices stack result visited r,
  graph_loop fuel fs choices stack result visited = Some r → fuel ≤ fuel' →
  graph_loop fuel' fs choices stack result visited = Some r.
Proof.
  induction fuel as [|fuel IH]; intros fuel' choices stack result visited r; [done|].
  intros Hrun Hle. destruct fuel' as [|fuel']; [lia|].
  cbn [graph_loop] in *. destruct stack as [|x0 stack0]; [done|].
  destruct (set_pop _ (x0 :: stack0)) as [[top stack]|]; [|done].
  case_decide; [apply IH; [done|lia]|].
  destruct (read_parents fs (strip top)) as [ps|]; [|done].
  destruct (add_parents _ _ _ _) as [[result' stack']|]; [|done].
  apply IH; [done|lia].
Qed.
End builder_fuel.

(** X8. The Graph Builder ends on every object store, also on one with a
    cycle, and for every schedule: with a fuel of [builder_fuel] or more the
    loop is over, and more fuel does not change what the schedule gives. *)
Theorem make_commit_graph_terminates choices fs branch_dict fuel :
  builder_fuel fs branch_dict ≤ fuel →
  ∃ r, make_commit_graph choices fuel fs branch_dict = Some r ∧
       make_commit_graph choices (builder_fuel fs branch_dict) fs branch_dict = Some r.
Proof.
  intros Hfuel.
  destruct (graph_loop_fuel fs branch_dict (builder_fuel fs branch_dict) choices
              (keys branch_dict) [] []) as [r Hr].
  - constructor.
  - by intros ? ?%elem_of_nil.
  - intros x Hx. unfold builder_hashes. apply elem_of_app. by left.
  - unfold builder_fuel. lia.
  - exists r. split; [|done]. unfold make_commit_graph.
    by eapply graph_loop_more_fuel.
Qed.

Lemma make_commit_graph_terminates_witness :
  builder_fuel repo_cycle [("aa11", ["main"])] ≤ 100 ∧
  ∃ r, make_commit_graph [] 100 repo_cycle [("aa11", ["main"])] = Some r.
Proof.
  assert (builder_fuel repo_cycle [("aa11", ["main"])] ≤ 100) as Hfuel
    by (vm_compute; lia).
  split; [done|].
  destruct (make_commit_graph_terminates [] repo_cycle [("aa11", ["main"])] 100 Hfuel)
    as (r & Hr & _).
  by exists r.
Defined.

(** * More about the Object Reader *)

Lemma scan_parents_elem tokens : ∀ rest i results x,
  drop i tokens = rest →
  x ∈ scan_parents tokens i rest results ↔
  x ∈ results ∨
  ∃ j, i ≤ j ∧ tokens !! j = Some "parent" ∧ tokens !! (j + 1) = Some x ∧
       j + 1 < length tokens - 1.
Proof.
  induction rest as [|text rest IH]; intros i results x Hdrop; simpl.
  - split; [by left|]. intros [?|(j & Hij & Hj & _)]; [done|].
    apply lookup_lt_Some in Hj.
    assert (length (drop i tokens) = 0) as Hlen by (by rewrite Hdrop).
    rewrite length_drop in Hlen. lia.
  - assert (tokens !! i = Some text) as Hi.
    { pose proof (lookup_drop tokens i 0) as Hl.
      rewrite Hdrop, Nat.add_0_r in Hl. done. }
    assert (drop (i + 1) tokens = rest) as Hdrop'.
    { pose proof (drop_drop tokens 1 i) as Hd.
      rewrite Hdrop in Hd. rewrite <-Hd. done. }
    rewrite (IH (i + 1) _ x Hdrop').
    destruct (bool_decide (text = "parent") && (i + 1 <? length tokens - 1))
      eqn:Htest.
    + apply andb_true_iff in Htest as [->%bool_decide_eq_true Hlt%Nat.ltb_lt].
      assert (is_Some (tokens !! (i + 1))) as [y Hy]
        by (apply lookup_lt_is_Some; lia).
      rewrite nth_lookup, Hy. simpl. rewrite elem_of_set_add. split.
      * intros [[->|?]|(j & Hij & Hj)]; [right; exists i|by left|right; exists j];
          split_and!; try done; try lia; naive_solver.
      * intros [?|(j & Hij & Hj & Hjx & Hjlt)]; [by left; right|].
        destruct (decide (j = i)) as [->|Hne].
        -- left; left. congruence.
        -- right. exists j. split_and!; try done. lia.
    + split.
      * intros [?|(j & Hij & Hj)]; [by left|right; exists j].
        split_and!; try lia; naive_solver.
      * intros [?|(j & Hij & Hj & Hjx & Hjlt)]; [by left|].
        right. exists j. split_and!; try done.
        destruct (decide (j = i)) as [->|Hne]; [|lia].
        apply andb_false_iff in Htest as [Htest|Htest].
        -- apply bool_decide_eq_false in Htest. congruence.
        -- apply Nat.ltb_ge in Htest. lia.
Qed.

Lemma scan_parents_NoDup tokens : ∀ rest i results,
  NoDup results → NoDup (scan_parents tokens i rest results).
Proof.
  induction rest as [|text rest IH]; intros i results Hnd; simpl; [done|].
  apply IH. destruct (_ && _); [by apply NoDup_set_add|done].
Qed.

(** X9. [parents] returns, without duplicates, exactly the tokens of the
    payload (cut at spaces and newlines) that follow a token [parent] and are
    not the last token. *)
Theorem parents_of_payload_tokens (payload x : string) :
  (x ∈ parents_of_payload payload ↔
   ∃ j, split_on " " (replace_char nl " " payload) !! j = Some "parent" ∧
        split_on " " (replace_char nl " " payload) !! (j + 1) = Some x ∧
        j + 2 < length (split_on " " (replace_char nl " " payload))) ∧
  NoDup (parents_of_payload payload).
Proof.
  unfold parents_of_payload. cbv zeta. split.
  - rewrite (scan_parents_elem _ _ 0 [] x) by done. rewrite elem_of_nil. split.
    + intros [?|(j & _ & Hj & Hx & Hlt)]; [done|]. exists j. split_and!; [done..|lia].
    + intros (j & Hj & Hx & Hlt). right. exists j. split_and!; [lia|done..|lia].
  - apply scan_parents_NoDup. constructor.
Qed.

(** * More about the Repository Locator *)

Lemma path_join_git_nonempty a : path_join a ".git" ≠ "".
Proof.
  unfold path_join. simpl. destruct (_ || _).
  - by intros [_ ?]%append_nil_inv.
  - by intros [_ ?]%append_nil_inv.
Qed.

Lemma ancestor_succ n p : ancestor (S n) p = ancestor n (dirname p).
Proof. apply Nat.iter_succ_r. Qed.

Lemma find_git_loop_spec fs fuel : ∀ p d,
  find_git_loop fuel fs p = Some d →
  ∃ n, no_git_below fs p n ∧
       ((d = "" ∧ ancestor n p = "/") ∨
        (d = path_join (ancestor n p) ".git" ∧ ancestor n p ≠ "/" ∧
         path_exists fs d = true)).
Proof.
  induction fuel as [|fuel IH]; intros p d; [done|]. simpl.
  destruct (decide (p = "/")) as [->|Hroot].
  { intros [= <-]. exists 0. split; [intros m ?; lia|by left]. }
  destruct (path_exists fs (path_join p ".git")) eqn:Hgit.
  { intros [= <-]. exists 0. split; [intros m ?; lia|by right]. }
  intros (n & Hbelow & Hend)%IH. exists (S n). split.
  - intros [|m] Hm; [done|]. rewrite ancestor_succ. apply Hbelow. lia.
  - by rewrite ancestor_succ.
Qed.

(** X10. When [find_git_directory] returns a path, it is the [.git] of the
    nearest directory, from the working directory upwards and below the root,
    that has one: the path exists, and no directory nearer to the working
    directory has a [.git]. *)
Theorem find_git_directory_nearest fs git_dirpath :
  find_git_directory fs = Some (Ok git_dirpath) →
  ∃ n, git_dirpath = path_join (ancestor n (cwd fs)) ".git" ∧
       path_exists fs git_dirpath = true ∧
       ancestor n (cwd fs) ≠ "/" ∧
       no_git_below fs (cwd fs) n.
Proof.
  unfold find_git_directory.
  destruct (find_git_loop _ fs (cwd fs)) as [d|] eqn:Hloop; [|done].
  case_decide as Hd; [done|]. intros [= <-].
  destruct (find_git_loop_spec _ _ _ _ Hloop) as (n & Hbelow & [[? _]|(-> & Hn & Hex)]);
    [done|].
  by exists n.
Qed.

Lemma find_git_directory_nearest_witness :
  find_git_directory (repo_at "/r/sub") = Some (Ok "/r/.git") ∧
  ∃ n, "/r/.git" = path_join (ancestor n "/r/sub") ".git" ∧
       path_exists (repo_at "/r/sub") "/r/.git" = true.
Proof.
  assert (find_git_directory (repo_at "/r/sub") = Some (Ok "/r/.git")) as Hrun
    by (by vm_compute).
  split; [done|].
  destruct (find_git_directory_nearest (repo_at "/r/sub") "/r/.git" Hrun)
    as (n & Hn & Hex & _).
  by exists n.
Defined.

(** X11. [find_git_directory] fails only with the exit code 1 and the message
    [Not inside a Git repository], and only when it has gone up to the root
    without meeting a [.git]; the root itself is not looked at. *)
Theorem find_git_directory_none fs e :
  find_git_directory fs = Some (Err e) →
  e = SystemExit 1 ("Not inside a Git repository" +:+ newline) ∧
  ∃ n, ancestor n (cwd fs) = "/" ∧ no_git_below fs (cwd fs) n.
Proof.
  unfold find_git_directory.
  destruct (find_git_loop _ fs (cwd fs)) as [d|] eqn:Hloop; [|done].
  case_decide as Hd; [|done]. intros [= <-]. split; [done|].
  destruct (find_git_loop_spec _ _ _ _ Hloop) as (n & Hbelow & [[_ Hn]|(Heq & _)]).
  - by exists n.
  - subst d. by destruct (path_join_git_nonempty (ancestor n (cwd fs))).
Qed.

Lemma find_git_directory_none_witness :
  find_git_directory no_repo =
    Some (Err (SystemExit 1 ("Not inside a Git repository" +:+ newline))) ∧
  ∃ n, ancestor n (cwd no_repo) = "/".
Proof.
  assert (find_git_directory no_repo =
            Some (Err (SystemExit 1 ("Not inside a Git repository" +:+ newline))))
    as Hrun by (by vm_compute).
  split; [done|].
  destruct (find_git_directory_none no_repo _ Hrun) as (_ & n & Hn & _).
  by exists n.
Defined.

(** * More about the Branch Enumerator *)

Lemma elem_of_branch_entries top listing e :
  e ∈ branch_entries top listing ↔
  ∃ sub filenames filename,
    (sub, filenames) ∈ listing ∧ filename ∈ filenames ∧
    e = (walk_dirpath top sub, filename).
Proof.
  unfold branch_entries. induction listing as [|[sub fns] listing IH].
  - simpl. split; [by intros ?%elem_of_nil|].
    by intros (? & ? & ? & ?%elem_of_nil & _).
  - rewrite fmap_cons, concat_cons, elem_of_app, IH, list_elem_of_fmap. simpl. split.
    + intros [(f & -> & Hf)|(sub' & fns' & f & Hin & Hf & ->)].
      * exists sub, fns, f. split_and!; [left|done..].
      * exists sub', fns', f. split_and!; [by right|done..].
    + intros (sub' & fns' & f & [[= -> ->]|Hin]%elem_of_cons & Hf & ->).
      * left. by exists f.
      * right. by exists sub', fns', f.
Qed.

Lemma read_branch_file_dict_ok fs d f b b' :
  read_branch_file fs d f b = Ok b' → dict_ok b → dict_ok b'.
Proof.
  unfold read_branch_file. destruct (negb _); [done|].
  destruct (dict_get (files fs) _) as [f0|]; [|done].
  destruct (read_text _ f0) as [contents|]; [|done]. rewrite res_bind_Ok.
  destruct (dict_item _ _) as [names|]; [|done]. rewrite res_bind_Ok.
  intros [= <-] Hb. apply dict_ok_set. case_decide; [done|by apply dict_ok_set].
Qed.

Lemma read_entries_dict_ok fs es : ∀ b b',
  read_entries fs es b = Ok b' → dict_ok b → dict_ok b'.
Proof.
  induction es as [|[d f] es IH]; intros b b'; simpl; [by intros [= <-]|].
  destruct (read_branch_file fs d f b) as [b1|] eqn:Hstep; [|done].
  rewrite res_bind_Ok. intros Hrest Hb.
  eapply IH; [done|]. by eapply read_branch_file_dict_ok.
Qed.

Lemma names_of_get_local_branches fs git_dirpath branches h x :
  get_local_branches fs git_dirpath = Ok branches →
  x ∈ names_of branches h ↔
  ∃ e, e ∈ branch_entries (branch_top git_dirpath) (walk fs) ∧
       entry_hash fs e = Some h ∧ x = entry_name fs e.
Proof.
  unfold get_local_branches, branch_top. rewrite read_branch_dirs_entries. intros Hrun.
  destruct (read_entries_names _ _ _ _ Hrun) as (_ & Hn & _).
  rewrite Hn. unfold names_of at 1. simpl. rewrite elem_of_nil. naive_solver.
Qed.

(** X12. The branch map that [get_local_branches] returns has every hash
    once; its hashes are the trimmed contents of the branch files, and the
    names of a hash are, without duplicates, exactly the names of the files
    that hold it. *)
Theorem get_local_branches_names fs git_dirpath branches :
  get_local_branches fs git_dirpath = Ok branches →
  dict_ok branches ∧
  ∀ h,
    (h ∈ keys branches ↔
     ∃ e, e ∈ branch_entries (branch_top git_dirpath) (walk fs) ∧
          entry_hash fs e = Some h) ∧
    NoDup (names_of branches h) ∧
    (∀ x, x ∈ names_of branches h ↔
          ∃ e, e ∈ branch_entries (branch_top git_dirpath) (walk fs) ∧
               entry_hash fs e = Some h ∧ x = entry_name fs e).
Proof.
  unfold get_local_branches, branch_top. rewrite read_branch_dirs_entries. intros Hrun.
  destruct (read_entries_names _ _ _ _ Hrun) as (Hk & Hn & Hnd).
  split; [eapply read_entries_dict_ok; [done|constructor]|].
  intros h. split_and!.
  - rewrite Hk. split; [intros [?%elem_of_nil|?]; done|by right].
  - apply Hnd. intros. constructor.
  - intros x. rewrite Hn. unfold names_of at 1. simpl. rewrite elem_of_nil. naive_solver.
Qed.

Lemma get_local_branches_names_witness :
  get_local_branches (repo_at "/r") "/r/.git" =
    Ok [("a1", ["main"]); ("b2", ["topic/feature"])] ∧
  dict_ok [("a1", ["main"]); ("b2", ["topic/feature"])].
Proof.
  assert (get_local_branches (repo_at "/r") "/r/.git" =
            Ok [("a1", ["main"]); ("b2", ["topic/feature"])]) as Hrun by (by vm_compute).
  split; [done|].
  apply (get_local_branches_names (repo_at "/r") "/r/.git" _ Hrun).
Defined.

(** X13. Started in the root of the repository, [get_local_branches] names
    every branch by the path of its file under the branch directory, the
    sub-directories kept as prefix. *)
Theorem get_local_branches_at_root fs branches h x :
  listing_ok (walk fs) →
  get_local_branches fs (cwd fs +:+ "/.git") = Ok branches →
  x ∈ names_of branches h ↔
  ∃ sub filenames filename,
    (sub, filenames) ∈ walk fs ∧ filename ∈ filenames ∧
    entry_hash fs (walk_dirpath (branch_top (cwd fs +:+ "/.git")) sub, filename) = Some h ∧
    x = spec_branch_name sub filename.
Proof.
  intros Hlist Hrun.
  rewrite (names_of_get_local_branches _ _ _ h x Hrun).
  unfold listing_ok in Hlist. rewrite Forall_forall in Hlist.
  assert (∀ sub fns f, (sub, fns) ∈ walk fs → f ∈ fns →
            entry_name fs (walk_dirpath (branch_top (cwd fs +:+ "/.git")) sub, f) =
            spec_branch_name sub f) as Hname.
  { intros sub fns f Hin Hf. destruct (Hlist _ Hin) as [Hsub Hfns].
    rewrite Forall_forall in Hfns. apply entry_name_at_root; [by apply Hfns|done]. }
  split.
  - intros (e & (sub & fns & f & Hin & Hf & ->)%elem_of_branch_entries & Hh & ->).
    exists sub, fns, f. split_and!; [done..|]. by eapply Hname.
  - intros (sub & fns & f & Hin & Hf & Hh & ->).
    exists (walk_dirpath (branch_top (cwd fs +:+ "/.git")) sub, f). split_and!; [|done|].
    + apply elem_of_branch_entries. by exists sub, fns, f.
    + symmetry. by eapply Hname.
Qed.

Lemma repo_walk_ok : listing_ok repo_walk.
Proof. unfold listing_ok. by apply (bool_decide_unpack _). Qed.

Lemma get_local_branches_at_root_witness :
  listing_ok (walk (repo_at "/r")) ∧
  get_local_branches (repo_at "/r") (cwd (repo_at "/r") +:+ "/.git") =
    Ok [("a1", ["main"]); ("b2", ["topic/feature"])] ∧
  ("topic/feature" ∈ names_of [("a1", ["main"]); ("b2", ["topic/feature"])] "b2" ↔
   ∃ sub filenames filename,
     (sub, filenames) ∈ walk (repo_at "/r") ∧ filename ∈ filenames ∧
     entry_hash (repo_at "/r")
       (walk_dirpath (branch_top (cwd (repo_at "/r") +:+ "/.git")) sub, filename) =
       Some "b2" ∧
     "topic/feature" = spec_branch_name sub filename).
Proof.
  assert (get_local_branches (repo_at "/r") (cwd (repo_at "/r") +:+ "/.git") =
            Ok [("a1", ["main"]); ("b2", ["topic/feature"])]) as Hrun by (by vm_compute).
  split; [apply repo_walk_ok|]. split; [done|].
  apply (get_local_branches_at_root (repo_at "/r") _ "b2" "topic/feature" repo_walk_ok Hrun).
Defined.

Lemma read_branch_file_ok fs d f b file contents :
  dict_get (files fs) (path_join d f) = Some file →
  opens file = true → text file = Some contents →
  ∃ b', read_branch_file fs d f b = Ok b'.
Proof.
  intros Hfile Hopen Htext. unfold read_branch_file, path_exists, dict_item, read_text.
  rewrite (bool_decide_eq_true_2 (path_join d f ∈ keys (files fs)))
    by (by eapply dict_get_Some_keys).
  rewrite orb_true_r. simpl. rewrite Hfile, Hopen, Htext, res_bind_Ok.
  destruct (dict_get _ (strip contents)) as [names|] eqn:Hget; [by eexists|].
  apply dict_get_None in Hget. destruct Hget.
  case_decide; [done|]. apply keys_dict_set_elem. by left.
Qed.

Lemma read_branch_file_Ok_inv fs d f b b' :
  read_branch_file fs d f b = Ok b' →
  ∃ file contents, dict_get (files fs) (path_join d f) = Some file ∧
                   opens file = true ∧ text file = Some contents.
Proof.
  unfold read_branch_file, read_text. destruct (negb _); [done|].
  destruct (dict_get (files fs) _) as [file|]; [|done].
  destruct (opens file) eqn:Hopen; [|done].
  destruct (text file) as [contents|] eqn:Htext; [|done].
  intros _. by exists file, contents.
Qed.

Lemma read_entries_ok fs es : ∀ b,
  (∃ b', read_entries fs es b = Ok b') ↔
  ∀ e, e ∈ es →
       ∃ file contents, dict_get (files fs) (path_join e.1 e.2) = Some file ∧
                        opens file = true ∧ text file = Some contents.
Proof.
  induction es as [|[d f] es IH]; intros b; simpl.
  - split; [by intros _ ? ?%elem_of_nil|by eexists].
  - split.
    + intros [b' Hrun] e.
      destruct (read_branch_file fs d f b) as [b1|] eqn:Hstep; [|done].
      rewrite res_bind_Ok in Hrun.
      intros [->|He]%elem_of_cons.
      * by eapply read_branch_file_Ok_inv.
      * by apply (proj1 (IH b1) (ex_intro _ b' Hrun)).
    + intros Hall.
      destruct (Hall (d, f)) as (file & contents & Hfile & Hopen & Htext); [left|].
      destruct (read_branch_file_ok fs d f b _ _ Hfile Hopen Htext) as [b1 ->].
      rewrite res_bind_Ok. apply IH. intros e He. apply Hall. by right.
Qed.

Lemma read_entries_fail fs es : ∀ b err,
  read_entries fs es b = Err err →
  ∃ e, e ∈ es ∧
       ((path_exists fs (path_join e.1 e.2) = false ∧ err = SystemExit 1 "") ∨
        (path_exists fs (path_join e.1 e.2) = true ∧
         (err = OSError (path_join e.1 e.2) ∨
          err = UnicodeDecodeError (path_join e.1 e.2)))).
Proof.
  induction es as [|[d f] es IH]; intros b err; simpl; [done|].
  destruct (read_branch_file fs d f b) as [b1|e1] eqn:Hstep.
  - rewrite res_bind_Ok. intros (e & He & Herr)%IH. exists e. split; [by right|done].
  - rewrite res_bind_Err. intros [= <-]. exists (d, f). split; [left|].
    by apply (read_branch_file_diag fs d f b).
Qed.

(** X14. [get_local_branches] returns a branch map exactly when every branch
    file that [os.walk] lists is there, can be opened and holds text.
    Otherwise one of the listed files is to blame: one that is not there
    any more ends the script without a word ([exit(1)]); one that is there
    ends it with the uncaught [OSError] of [open] or the uncaught
    [UnicodeDecodeError] of [read]. *)
Theorem get_local_branches_succeeds_iff fs git_dirpath :
  ((∃ branches, get_local_branches fs git_dirpath = Ok branches) ↔
   ∀ e, e ∈ branch_entries (branch_top git_dirpath) (walk fs) →
        ∃ file contents, dict_get (files fs) (path_join e.1 e.2) = Some file ∧
                         opens file = true ∧ text file = Some contents) ∧
  (∀ err, get_local_branches fs git_dirpath = Err err →
     ∃ e, e ∈ branch_entries (branch_top git_dirpath) (walk fs) ∧
          ((path_exists fs (path_join e.1 e.2) = false ∧ err = SystemExit 1 "") ∨
           (path_exists fs (path_join e.1 e.2) = true ∧
            (err = OSError (path_join e.1 e.2) ∨
             err = UnicodeDecodeError (path_join e.1 e.2))))).
Proof.
  unfold get_local_branches, branch_top. rewrite read_branch_dirs_entries.
  split; [apply read_entries_ok|apply read_entries_fail].
Qed.

(** * More about the Printer *)

Lemma print_round_key g ord b i h n d :
  ord !! i = Some h → dict_get g h = Some n →
  print_round g ord b i h d =
    ((if d then [print ("=" +:+ join " " (chi g h))] else []) ++
     [commit_line b h] ++
     (if is_break g ord i
      then [print (join " " (par g h) +:+ "=" +:+ newline)] else []),
     Ok (is_break g ord i)).
Proof.
  intros Hi Hn. unfold print_round, is_break, dict_item, par, chi.
  rewrite Hi, Hn. simpl.
  destruct d; simpl; (destruct (ord !! (i + 1)) as [next|]; [|done]);
    (destruct (decide (next ∈ parents n));
     [by rewrite bool_decide_eq_false_2 by (by intros ?)
     |by rewrite bool_decide_eq_true_2 by done]).
Qed.

Lemma print_rounds_texts g ord b : ∀ todo seen d,
  ord = seen ++ todo →
  (∀ h, h ∈ todo → h ∈ keys g) →
  d = break_before g ord (length seen) →
  print_rounds g ord b (length seen) todo d =
    (concat (imap (λ j, texts_at g ord b (length seen + j)) todo), Ok ()).
Proof.
  induction todo as [|h todo IH]; intros seen d Hord Hkeys Hd; [done|].
  cbn [print_rounds].
  destruct (proj2 (dict_get_is_Some g h)) as [n Hn]; [apply Hkeys; left|].
  rewrite (print_round_key g ord b (length seen) h n d); [|by
    rewrite Hord, list_lookup_middle|done].
  specialize (IH (seen ++ [h]) (is_break g ord (length seen))).
  rewrite length_app in IH. simpl in IH.
  rewrite IH.
  - rewrite imap_cons, concat_cons. f_equal.
    rewrite Nat.add_0_r. unfold texts_at at 2. rewrite <-Hd. f_equal.
    f_equal. apply imap_ext. intros j x _. simpl. f_equal. lia.
  - by rewrite <-app_assoc.
  - intros x Hx. apply Hkeys. by right.
  - by rewrite Nat.add_1_r.
Qed.

Lemma print_rounds_all g ord b :
  (∀ h, h ∈ ord → h ∈ keys g) →
  print_rounds g ord b 0 ord false = (concat (imap (texts_at g ord b) ord), Ok ()).
Proof. intros Hkeys. by apply (print_rounds_texts g ord b ord [] false). Qed.

(** The output, cut at the hash at index [i]. *)
Lemma print_topo_sort_at g ord b i h :
  (∀ x, x ∈ ord → x ∈ keys g) → ord !! i = Some h →
  print_topo_sort g ord b =
    (concat (imap (texts_at g ord b) (take i ord)) ++
     texts_at g ord b i h ++
     concat (imap (λ j, texts_at g ord b (S i + j)) (drop (S i) ord)), Ok ()).
Proof.
  intros Hkeys Hi. unfold print_topo_sort. rewrite print_rounds_all by done. f_equal.
  generalize (texts_at g ord b). intros f.
  rewrite <-(take_drop_middle ord i h Hi) at 1.
  rewrite imap_app, concat_app, imap_cons, concat_cons.
  rewrite length_take_le by (apply lookup_lt_Some in Hi; lia).
  rewrite Nat.add_0_r. do 3 f_equal. apply imap_ext. intros j x _. simpl. f_equal. lia.
Qed.

(** The printer reads the branch map through the commit line only. *)
Lemma print_rounds_commit_line g ord b b' :
  (∀ x, commit_line b' x = commit_line b x) →
  ∀ todo i d, print_rounds g ord b' i todo d = print_rounds g ord b i todo d.
Proof.
  intros Hline. induction todo as [|h todo IH]; intros i d; [done|].
  cbn [print_rounds]. unfold print_round. rewrite Hline.
  destruct (if d then _ else _) as [start|]; [|done].
  destruct (ord !! (i + 1)); [|by rewrite IH].
  destruct (dict_item g h) as [n|]; [|done].
  case_decide; by rewrite IH.
Qed.

Lemma commit_line_names b b' :
  (∀ x, x ∈ keys b' ↔ x ∈ keys b) →
  (∀ x, names_of b' x ≡ₚ names_of b x) →
  ∀ x, commit_line b' x = commit_line b x.
Proof.
  intros Hkeys Hnames x. unfold commit_line.
  specialize (Hnames x). unfold names_of in Hnames.
  destruct (dict_get b x) as [names|] eqn:Hx.
  - assert (is_Some (dict_get b' x)) as [names' Hx'].
    { apply dict_get_is_Some, Hkeys. by eapply dict_get_Some_keys. }
    rewrite Hx' in *. simpl in Hnames. by rewrite (sorted_permutation _ _ Hnames).
  - apply dict_get_None in Hx. rewrite <-Hkeys in Hx. apply dict_get_None in Hx.
    by rewrite Hx.
Qed.

(** * The claims about the Printer *)

(** C9. For a hash of the order with an entry in the branch map, the printer
    writes the line made of the hash, a space, and the branch names in
    lexicographic order with single spaces between them, at the place of the
    hash in the output.  The output is the same for every order of the names
    in the sets of the branch map, and so for every order in which the
    branch files are discovered. *)
Theorem print_topo_sort_commit_line g ord branches i h names :
  (∀ x, x ∈ ord → x ∈ keys g) →
  ord !! i = Some h →
  dict_get branches h = Some names →
  (∃ post,
     print_topo_sort g ord branches =
       ((concat (imap (texts_at g ord branches) (take i ord)) ++
         (if break_before g ord i then [print ("=" +:+ join " " (chi g h))] else [])) ++
        [h +:+ " " +:+ join " " (sorted names) +:+ newline] ++ post, Ok ())) ∧
  StronglySorted String.le (sorted names) ∧
  sorted names ≡ₚ names ∧
  (∀ branches',
     (∀ x, x ∈ keys branches' ↔ x ∈ keys branches) →
     (∀ x, names_of branches' x ≡ₚ names_of branches x) →
     print_topo_sort g ord branches' = print_topo_sort g ord branches) ∧
  (∀ git_dirpath fs fs' branches',
     same_branches git_dirpath fs fs' →
     get_local_branches fs git_dirpath = Ok branches →
     get_local_branches fs' git_dirpath = Ok branches' →
     print_topo_sort g ord branches' = print_topo_sort g ord branches).
Proof.
  intros Hkeys Hi Hh.
  assert (∀ branches',
            (∀ x, x ∈ keys branches' ↔ x ∈ keys branches) →
            (∀ x, names_of branches' x ≡ₚ names_of branches x) →
            print_topo_sort g ord branches' = print_topo_sort g ord branches) as Horder.
  { intros branches' Hk Hn. unfold print_topo_sort.
    apply print_rounds_commit_line. by apply commit_line_names. }
  split_and!.
  - rewrite (print_topo_sort_at g ord branches i h Hkeys Hi).
    eexists. f_equal. unfold texts_at, commit_line, print. rewrite Hh.
    rewrite <-!app_assoc. do 2 f_equal. simpl. rewrite append_assoc. reflexivity.
  - apply StronglySorted_merge_sort; apply _.
  - apply merge_sort_Permutation.
  - done.
  - intros git_dirpath fs fs' branches' Hsame Hrun Hrun'.
    apply Horder; intros x;
      by destruct (get_local_branches_order _ _ _ _ _ x Hsame Hrun Hrun').
Qed.

Lemma print_topo_sort_commit_line_witness :
  (∀ x, x ∈ ["x1"; "y2"] → x ∈ keys two_roots) ∧
  ["x1"; "y2"] !! 0 = Some "x1" ∧
  dict_get [("x1", ["main"; "dev"])] "x1" = Some ["main"; "dev"] ∧
  ∃ post,
    print_topo_sort two_roots ["x1"; "y2"] [("x1", ["main"; "dev"])] =
      (["x1 dev main" +:+ newline] ++ post, Ok ()).
Proof.
  assert (∀ x, x ∈ ["x1"; "y2"] → x ∈ keys two_roots) as Hkeys.
  { intros x Hx. apply (bool_decide_unpack _). revert x Hx.
    apply Forall_forall. by repeat constructor. }
  split; [done|]. split; [reflexivity|]. split; [reflexivity|].
  destruct (print_topo_sort_commit_line two_roots ["x1"; "y2"] [("x1", ["main"; "dev"])]
              0 "x1" ["main"; "dev"] Hkeys eq_refl eq_refl) as [[post Hout] _].
  exists post. exact Hout.
Defined.

(** C10. A root commit that is not the last hash of the order: right after
    its commit line the printer writes the separator [=] with nothing before
    it and a blank line, then [=] with the children of the next hash, and
    the commit line of the next hash. *)
Theorem print_topo_sort_root g ord b i h n next :
  (∀ x, x ∈ ord → x ∈ keys g) →
  ord !! i = Some h → ord !! (i + 1) = Some next →
  dict_get g h = Some n → parents n = [] →
  ∃ post,
    print_topo_sort g ord b =
      ((concat (imap (texts_at g ord b) (take i ord)) ++
        (if break_before g ord i then [print ("=" +:+ join " " (chi g h))] else [])) ++
       [commit_line b h; "=" +:+ newline +:+ newline;
        print ("=" +:+ join " " (chi g next)); commit_line b next] ++ post,
       Ok ()).
Proof.
  intros Hkeys Hi Hnext Hn Hroot.
  assert (par g h = []) as Hpar by (by rewrite (par_dict_get _ _ _ Hn)).
  assert (is_break g ord i = true) as Hbreak.
  { unfold is_break. rewrite Hi, Hnext, Hpar. apply bool_decide_eq_true_2, not_elem_of_nil. }
  rewrite (print_topo_sort_at g ord b i h Hkeys Hi).
  replace (i + 1) with (S i) in Hnext by lia.
  rewrite (drop_S ord next (S i) Hnext), imap_cons, concat_cons, Nat.add_0_r.
  unfold texts_at at 2 3. cbn [break_before]. rewrite Hbreak, Hpar.
  eexists. f_equal. rewrite <-!app_assoc. simpl. reflexivity.
Qed.

Lemma print_topo_sort_root_witness :
  (∀ x, x ∈ ["x1"; "y2"] → x ∈ keys two_roots) ∧
  ["x1"; "y2"] !! 0 = Some "x1" ∧ ["x1"; "y2"] !! (0 + 1) = Some "y2" ∧
  dict_get two_roots "x1" = Some (new_CommitNode "x1") ∧
  parents (new_CommitNode "x1") = [] ∧
  ∃ post,
    print_topo_sort two_roots ["x1"; "y2"] [] =
      ([print "x1"; "=" +:+ newline +:+ newline; print "="; print "y2"] ++ post, Ok ()).
Proof.
  assert (∀ x, x ∈ ["x1"; "y2"] → x ∈ keys two_roots) as Hkeys.
  { intros x Hx. apply (bool_decide_unpack _). revert x Hx.
    apply Forall_forall. by repeat constructor. }
  split; [done|]. do 4 (split; [reflexivity|]).
  destruct (print_topo_sort_root two_roots ["x1"; "y2"] [] 0 "x1" (new_CommitNode "x1")
              "y2" Hkeys eq_refl eq_refl eq_refl eq_refl) as [post Hout].
  exists post. exact Hout.
Defined.

(** * More about the Printer, continued *)

(** X15. When every hash of the order is a key of the graph, the printer
    does not fail, and it writes for every hash, in order: ["=" + children]
    if the hash before it is followed by a non-parent, the commit line, and
    [parents + "=" + newline] if the hash itself is followed by a
    non-parent. *)
Theorem print_topo_sort_texts g ord b :
  (∀ h, h ∈ ord → h ∈ keys g) →
  print_topo_sort g ord b = (concat (imap (texts_at g ord b) ord), Ok ()).
Proof.
  intros Hkeys. unfold print_topo_sort. by apply print_rounds_all.
Qed.

Lemma print_topo_sort_texts_witness :
  (∀ h, h ∈ ["x1"; "y2"] → h ∈ keys two_roots) ∧
  print_topo_sort two_roots ["x1"; "y2"] [] =
    ([print "x1"; "=" +:+ newline +:+ newline; print "="; print "y2"], Ok ()).
Proof.
  assert (∀ h, h ∈ ["x1"; "y2"] → h ∈ keys two_roots) as Hkeys.
  { intros h Hh. apply (bool_decide_unpack _). revert h Hh.
    apply Forall_forall. by repeat constructor. }
  split; [done|].
  rewrite (print_topo_sort_texts two_roots ["x1"; "y2"] [] Hkeys). reflexivity.
Defined.

(** X16. When every hash of the order is a key of the graph, the first and
    the last text that the printer writes are the commit lines of the first
    and of the last hash: the output neither starts nor ends with a
    separator. *)
Theorem print_topo_sort_ends g ord b :
  (∀ h, h ∈ ord → h ∈ keys g) →
  head (print_topo_sort g ord b).1 = commit_line b <$> head ord ∧
  last (print_topo_sort g ord b).1 = commit_line b <$> last ord.
Proof.
  intros Hkeys. unfold print_topo_sort.
  pose proof (print_rounds_texts g ord b ord [] false eq_refl Hkeys eq_refl) as Hrun.
  simpl in Hrun. rewrite Hrun. clear Hrun. simpl.
  split.
  - destruct ord as [|h ord]; [done|]. by rewrite imap_cons.
  - destruct ord as [|h ord _] using rev_ind; [done|].
    rewrite imap_app, concat_app, (last_snoc h ord). simpl.
    rewrite app_nil_r, Nat.add_0_r. unfold texts_at at 2. unfold is_break.
    rewrite list_lookup_middle by done.
    rewrite (lookup_ge_None_2 _ (length ord + 1))
      by (rewrite length_app; simpl; lia).
    rewrite app_nil_r, !app_assoc. apply last_snoc.
Qed.

Lemma print_topo_sort_ends_witness :
  (∀ h, h ∈ ["x1"; "y2"] → h ∈ keys two_roots) ∧
  head (print_topo_sort two_roots ["x1"; "y2"] []).1 = Some (print "x1") ∧
  last (print_topo_sort two_roots ["x1"; "y2"] []).1 = Some (print "y2").
Proof.
  assert (∀ h, h ∈ ["x1"; "y2"] → h ∈ keys two_roots) as Hkeys.
  { intros h Hh. apply (bool_decide_unpack _). revert h Hh.
    apply Forall_forall. by repeat constructor. }
  split; [done|].
  apply (print_topo_sort_ends two_roots ["x1"; "y2"] [] Hkeys).
Defined.

Lemma print_rounds_chain g ord b : ∀ todo seen,
  ord = seen ++ todo →
  (∀ i h next, ord !! i = Some h → ord !! (i + 1) = Some next → next ∈ par g h) →
  print_rounds g ord b (length seen) todo false = (commit_line b <$> todo, Ok ()).
Proof.
  induction todo as [|h todo IH]; intros seen Hord Hchain; [done|].
  cbn [print_rounds].
  assert (ord !! length seen = Some h) as Hi by (by rewrite Hord, list_lookup_middle).
  assert (print_round g ord b (length seen) h false = ([commit_line b h], Ok false))
    as ->.
  { unfold print_round. simpl.
    destruct (ord !! (length seen + 1)) as [next|] eqn:Hnext; [|done].
    pose proof (Hchain _ _ _ Hi Hnext) as Hpar. unfold par, dict_item in *.
    destruct (dict_get g h) as [n|]; [|by apply elem_of_nil in Hpar].
    simpl in *. by rewrite decide_True. }
  specialize (IH (seen ++ [h])). rewrite length_app in IH. simpl in IH.
  rewrite IH; [done|by rewrite <-app_assoc|done].
Qed.

(** X17. When every hash of the order is followed by one of its parents (a
    single chain), the printer writes the commit lines and nothing else: no
    separator. *)
Theorem print_topo_sort_chain g ord b :
  (∀ i h next, ord !! i = Some h → ord !! (i + 1) = Some next → next ∈ par g h) →
  print_topo_sort g ord b = (commit_line b <$> ord, Ok ()).
Proof. intros Hchain. by apply (print_rounds_chain g ord b ord []). Qed.

Lemma linear_graph_chain i h next :
  ["c2ffee"; "a1beef"] !! i = Some h → ["c2ffee"; "a1beef"] !! (i + 1) = Some next →
  next ∈ par linear_graph h.
Proof.
  destruct i as [|[|i]]; simpl; [|done..]. intros [= <-] [= <-]. left.
Qed.

Lemma print_topo_sort_chain_witness :
  print_topo_sort linear_graph ["c2ffee"; "a1beef"] [("c2ffee", ["main"])] =
    ([print "c2ffee main"; print "a1beef"], Ok ()).
Proof.
  rewrite (print_topo_sort_chain linear_graph ["c2ffee"; "a1beef"] [("c2ffee", ["main"])]
             linear_graph_chain).
  reflexivity.
Defined.

(** * More about the whole script *)

Lemma elem_of_concat {A} (x : A) (ls : list (list A)) (l : list A) :
  l ∈ ls → x ∈ l → x ∈ concat ls.
Proof.
  induction ls as [|l' ls IH]; [by intros ?%elem_of_nil|].
  rewrite concat_cons, elem_of_app. intros [->|Hin]%elem_of_cons Hx; [by left|].
  right. by apply IH.
Qed.

Lemma commit_line_in_texts g ord b h :
  h ∈ ord → commit_line b h ∈ concat (imap (texts_at g ord b) ord).
Proof.
  intros (i & Hi)%list_elem_of_lookup.
  apply (elem_of_concat _ _ (texts_at g ord b i h)).
  - apply list_elem_of_lookup. exists i. by rewrite list_lookup_imap, Hi.
  - unfold texts_at. rewrite !elem_of_app. right; left. left.
Qed.

(** What [topo_sort] returns on a well-formed graph holds keys only. *)
Lemma topo_sort_keys g ord h :
  graph_ok g → topo_sort g = Some (Ok ord) → h ∈ ord → h ∈ keys g.
Proof.
  intros Hok Hrun. destruct (topo_sort_run g Hok) as (r & g' & Hinv & Hrun').
  rewrite Hrun' in Hrun. case_decide; [done|]. injection Hrun as <-.
  by eapply final_keys.
Qed.

Lemma topo_sort_order g :
  graph_ok g → acyclic g →
  ∃ ord, topo_sort g = Some (Ok ord) ∧ ord ≡ₚ keys g ∧
         ∀ c p, is_parent g c p → before c p ord.
Proof.
  intros Hok Hacyc.
  destruct (topo_sort_acyclic g Hok Hacyc) as (ord & g' & Hinv & Hrun & Hperm).
  exists ord. split_and!; [done..|]. intros c p Hcp.
  eapply final_before; [done..| |done].
  rewrite Hperm. by eapply is_child_key, (graph_inverse _ Hok).
Qed.

(** X18. When the graph that the builder has discovered has no cycle, the
    script ends with success, whatever the schedule: it writes, for the
    hashes of the graph in an order that puts every commit before its
    parents, the commit line of each with the separators of [texts_at], and
    nothing goes wrong in between. *)
Theorem topo_order_commits_success σ fuel fs git_dirpath branches g :
  find_git_directory fs = Some (Ok git_dirpath) →
  get_local_branches fs git_dirpath = Ok branches →
  make_commit_graph (build σ) fuel fs branches = Some (Ok g) →
  acyclic g →
  ∃ ord,
    topo_order_commits σ fuel fs =
      Some (concat (imap (texts_at (arrange (show σ) g) ord branches) ord), Ok ()) ∧
    exit_code (Ok ()) = 0 ∧
    ord ≡ₚ keys g ∧
    (∀ c p, is_parent g c p → before c p ord) ∧
    (∀ h, h ∈ keys g →
          commit_line branches h ∈
            concat (imap (texts_at (arrange (show σ) g) ord branches) ord)).
Proof.
  intros Hgit Hbr Hg Hacyc.
  pose proof (make_commit_graph_ok _ _ _ _ _ Hg) as Hok.
  destruct (topo_sort_order (arrange (copy σ) g)) as (ord & Hrun & Hperm & Hbefore).
  { by apply graph_ok_arrange. }
  { by apply acyclic_arrange. }
  rewrite keys_arrange in Hperm.
  exists ord. split_and!; [|done|done| |].
  - unfold topo_order_commits. rewrite Hgit, Hbr, Hg, Hrun. f_equal.
    unfold print_topo_sort. apply print_rounds_all.
    intros h Hh. by rewrite keys_arrange, <-Hperm.
  - intros c p Hcp. by apply Hbefore, is_parent_arrange.
  - intros h Hh. apply commit_line_in_texts. by rewrite Hperm.
Qed.

Lemma linear_graph_acyclic : acyclic linear_graph.
Proof. apply (ranked_acyclic (λ h, if decide (h = "c2ffee") then 1 else 0)).
  by apply (bool_decide_unpack _). Qed.

Lemma topo_order_commits_success_witness :
  find_git_directory repo_linear = Some (Ok "/r/.git") ∧
  get_local_branches repo_linear "/r/.git" = Ok [("c2ffee", ["main"])] ∧
  make_commit_graph (build in_order) 3 repo_linear [("c2ffee", ["main"])] =
    Some (Ok linear_graph) ∧
  acyclic linear_graph ∧
  ∃ out, topo_order_commits in_order 3 repo_linear = Some (out, Ok ()).
Proof.
  split; [by vm_compute|]. split; [by vm_compute|].
  split; [apply make_commit_graph_linear|]. split; [apply linear_graph_acyclic|].
  destruct (topo_order_commits_success in_order 3 repo_linear "/r/.git"
              [("c2ffee", ["main"])] linear_graph) as (ord & Hrun & _);
    [by vm_compute|by vm_compute|apply make_commit_graph_linear|
     apply linear_graph_acyclic|].
  eexists. exact Hrun.
Defined.

Lemma add_parents_err visited c ps : ∀ st e,
  add_parents visited c ps st = Err e → ∃ k, e = KeyError k.
Proof.
  induction ps as [|p ps IH]; intros [g s] e; cbn [add_parents]; [done|].
  destruct (add_parent visited c p (g, s)) as [st1|e1] eqn:Hstep.
  - rewrite res_bind_Ok. apply IH.
  - rewrite res_bind_Err. intros [= <-]. revert Hstep.
    unfold add_parent, dict_item.
    destruct (dict_get _ c); [|intros [= <-]; by eexists].
    rewrite res_bind_Ok.
    destruct (dict_get _ p); [done|intros [= <-]; by eexists].
Qed.

Lemma graph_loop_err fuel fs : ∀ choices stack result visited e,
  graph_loop fuel fs choices stack result visited = Some (Err e) →
  exit_code (Err e) = 1.
Proof.
  induction fuel as [|fuel IH]; intros choices stack result visited e; [done|].
  cbn [graph_loop]. destruct stack as [|x0 stack0]; [done|].
  destruct (set_pop_cons (hd 0 choices) x0 stack0) as (top & stack & ->).
  case_decide; [apply IH|].
  destruct (read_parents fs (strip top)) as [ps|e1] eqn:Hps.
  - destruct (add_parents _ _ _ _) as [[result' stack']|e2] eqn:Hadd; [apply IH|].
    intros [= <-]. by apply add_parents_err in Hadd as [k ->].
  - intros [= <-]. by eapply read_parents_exit_code.
Qed.

(** X19. However the script ends, and whatever the schedule, it has either
    succeeded, or it has written nothing to standard output and its exit
    code is 1: no failure comes after the first line is printed. *)
Theorem topo_order_commits_all_or_nothing σ fuel fs out r :
  topo_order_commits σ fuel fs = Some (out, r) →
  (r = Ok () ∧ exit_code r = 0) ∨ (out = [] ∧ exit_code r = 1).
Proof.
  unfold topo_order_commits.
  destruct (find_git_directory fs) as [[git|e]|] eqn:Hgit; [| |done].
  2:{ intros [= <- <-]. right. by rewrite (find_git_directory_diag _ _ Hgit). }
  destruct (get_local_branches fs git) as [b|e] eqn:Hbr.
  2:{ intros [= <- <-]. right. split; [done|].
      unfold get_local_branches in Hbr. rewrite read_branch_dirs_entries in Hbr.
      by destruct (read_entries_diag _ _ _ _ Hbr) as [->|[[path ->]|[path ->]]]. }
  destruct (make_commit_graph (build σ) fuel fs b) as [[g|e]|] eqn:Hg; [| |done].
  2:{ intros [= <- <-]. right. split; [done|]. by eapply graph_loop_err. }
  pose proof (graph_ok_arrange (copy σ) _ (make_commit_graph_ok _ _ _ _ _ Hg)) as Hok.
  destruct (topo_sort (arrange (copy σ) g)) as [[ord|e]|] eqn:Hsort; [| |done].
  2:{ intros [= <- <-]. right. by rewrite (topo_sort_diag _ _ Hok Hsort). }
  unfold print_topo_sort.
  rewrite print_rounds_all.
  2:{ intros h Hh. rewrite keys_arrange, <-(keys_arrange g (copy σ)).
      by eapply topo_sort_keys. }
  intros [= <- <-]. by left.
Qed.

Lemma topo_order_commits_all_or_nothing_witness :
  topo_order_commits in_order 3 repo_missing_object =
    Some ([], Err (SystemExit 1 "Object for hash c2ffee not found")) ∧
  exit_code (Err (SystemExit 1 "Object for hash c2ffee not found")) = 1.
Proof.
  assert (topo_order_commits in_order 3 repo_missing_object =
            Some ([], Err (SystemExit 1 "Object for hash c2ffee not found"))) as Hrun
    by (by vm_compute).
  split; [done|].
  destruct (topo_order_commits_all_or_nothing _ _ _ _ _ Hrun) as [[? _]|[_ ?]]; done.
Defined.

(** * The Repository Locator reaches the root *)

Lemma length_rev_app s : ∀ acc,
  String.length (String.rev_app s acc) = String.length s + String.length acc.
Proof.
  induction s as [|c s IH]; intros acc; simpl; [done|].
  rewrite IH. simpl. lia.
Qed.

Lemma length_rev s : String.length (String.rev s) = String.length s.
Proof. unfold String.rev. rewrite length_rev_app. simpl. lia. Qed.

Lemma rev_app_rev_app s : ∀ a b,
  String.rev_app (String.rev_app s a) b = String.rev_app a (s +:+ b).
Proof.
  induction s as [|c s IH]; intros a b; simpl; [done|].
  by rewrite IH.
Qed.

Lemma rev_rev s : String.rev (String.rev s) = s.
Proof.
  unfold String.rev. rewrite rev_app_rev_app. simpl.
  induction s as [|c s IH]; [done|]. change (String c s +:+ "") with (String c (s +:+ "")).
  by rewrite IH.
Qed.

Lemma drop_to_slash_split s : ∃ pre, s = pre +:+ drop_to_slash s.
Proof.
  induction s as [|c s [pre IH]]; [by exists ""|]. simpl.
  case_decide.
  - by exists "".
  - exists (String c pre). change (String c pre +:+ ?t) with (String c (pre +:+ t)).
    by rewrite <-IH.
Qed.

Lemma lstrip_slashes_split s : ∃ sl, s = sl +:+ lstrip_slashes s.
Proof.
  induction s as [|c s [sl IH]]; [by exists ""|]. simpl.
  case_decide.
  - exists (String c sl). change (String c sl +:+ ?t) with (String c (sl +:+ t)).
    by rewrite <-IH.
  - by exists "".
Qed.

Lemma length_drop_to_slash s : String.length (drop_to_slash s) ≤ String.length s.
Proof. induction s as [|c s IH]; simpl; [done|]. case_decide; simpl; lia. Qed.

Lemma length_lstrip_slashes s : String.length (lstrip_slashes s) ≤ String.length s.
Proof. induction s as [|c s IH]; simpl; [done|]. case_decide; simpl; lia. Qed.

Lemma drop_to_slash_slash a b : drop_to_slash (a +:+ String "/" b) ≠ "".
Proof.
  induction a as [|c a IH]; [done|].
  change (String c a +:+ ?t) with (String c (a +:+ t)). simpl.
  by case_decide.
Qed.

Lemma lstrip_slashes_rev_app s : ∀ acc,
  lstrip_slashes s = "" → lstrip_slashes acc = "" →
  lstrip_slashes (String.rev_app s acc) = "".
Proof.
  induction s as [|c s IH]; intros acc Hs Hacc; simpl in *; [done|].
  case_decide as Hc; [|done]. apply IH; [done|]. simpl. by rewrite decide_True.
Qed.

Lemma dirname_prefix p : ∃ t, p = dirname p +:+ t.
Proof.
  destruct (drop_to_slash_split (String.rev p)) as [pre Hpre].
  assert (p = String.rev (drop_to_slash (String.rev p)) +:+ String.rev pre) as Hp.
  { rewrite <-rev_append, <-Hpre. by rewrite rev_rev. }
  unfold dirname. cbv zeta. destruct (_ && _).
  - rewrite rev_rev.
    destruct (lstrip_slashes_split (drop_to_slash (String.rev p))) as [sl Hsl].
    exists (String.rev sl +:+ String.rev pre).
    rewrite <-append_assoc, <-rev_append, <-Hsl. done.
  - by exists (String.rev pre).
Qed.

Lemma dirname_nonempty p : starts_with_slash p = true → dirname p ≠ "".
Proof.
  destruct p as [|c q]; [done|]. simpl. intros ->%bool_decide_eq_true.
  assert (drop_to_slash (String.rev (String "/" q)) ≠ "") as Hd.
  { unfold String.rev. simpl. rewrite rev_app_acc. apply drop_to_slash_slash. }
  unfold dirname. cbv zeta.
  destruct (bool_decide _ && bool_decide _) eqn:Hcond.
  - apply andb_true_iff in Hcond as [_ Hstrip%bool_decide_eq_true].
    rewrite rev_rev. intros Hnil. apply Hstrip.
    apply lstrip_slashes_rev_app; [|done].
    destruct (lstrip_slashes (drop_to_slash _)) eqn:Hl; [done|].
    by apply rev_nonempty in Hnil.
  - by apply rev_nonempty.
Qed.

Lemma dirname_shorter c t :
  c ≠ "/"%char →
  String.length (dirname (String "/" (String c t))) < String.length (String "/" (String c t)).
Proof.
  intros Hc. set (p := String "/" (String c t)).
  destruct (dirname_prefix p) as [t' Hpre]. revert Hpre.
  unfold dirname. cbv zeta.
  destruct (bool_decide _ && bool_decide _) eqn:Hcond.
  - intros _. clear Hcond. rewrite rev_rev, length_rev.
    rewrite <-(length_rev p).
    assert (String.rev p ≠ "") as Hr by (by apply rev_nonempty).
    destruct (String.rev p) as [|a r]; [done|]. simpl.
    destruct (decide (a = "/"%char)).
    + simpl. rewrite decide_True by done.
      pose proof (length_lstrip_slashes r). lia.
    + pose proof (length_lstrip_slashes (drop_to_slash r)).
      pose proof (length_drop_to_slash r). lia.
  - apply andb_false_iff in Hcond.
    destruct (String.rev (drop_to_slash (String.rev p))) as [|a [|a' head]];
      [simpl; lia|simpl; lia|].
    intros [= <- <- _]. exfalso.
    destruct Hcond as [Hcond|Hcond]; apply bool_decide_eq_false in Hcond;
      apply Hcond; [done|]. simpl. by rewrite decide_False.
Qed.

Lemma dirname_absolute p : absolute p → absolute (dirname p).
Proof.
  intros [->|(c & t & -> & Hc)]; [by left|].
  pose proof (dirname_nonempty (String "/" (String c t)) eq_refl) as Hne.
  destruct (dirname_prefix (String "/" (String c t))) as [t' Hpre].
  destruct (dirname _) as [|a [|a' d]]; [done| |].
  - injection Hpre as <- _. by left.
  - injection Hpre as <- <- _. right. by exists c, d.
Qed.

Lemma find_git_loop_terminates fs fuel : ∀ p,
  absolute p → String.length p < fuel → is_Some (find_git_loop fuel fs p).
Proof.
  induction fuel as [|fuel IH]; intros p Habs Hlen; [lia|]. simpl.
  case_decide as Hroot; [done|].
  destruct (path_exists fs _); [done|].
  apply IH; [by apply dirname_absolute|].
  destruct Habs as [->|(c & t & -> & Hc)]; [done|].
  pose proof (dirname_shorter c t Hc). lia.
Qed.

(** X20. Started in a directory with an absolute path (the root, or a slash
    followed by something else than a slash), [find_git_directory] ends: it
    returns a path or exits.  [os.path.dirname] shortens such a path at each
    step and keeps it absolute, so the loop reaches a [.git] or the root. *)
Theorem find_git_directory_terminates fs :
  absolute (cwd fs) →
  (∃ git_dirpath, find_git_directory fs = Some (Ok git_dirpath)) ∨
  find_git_directory fs =
    Some (Err (SystemExit 1 ("Not inside a Git repository" +:+ newline))).
Proof.
  intros Habs. unfold find_git_directory.
  destruct (find_git_loop_terminates fs (S (String.length (cwd fs))) (cwd fs) Habs)
    as [d ->]; [lia|].
  case_decide; [by right|left; by eexists].
Qed.

Lemma find_git_directory_terminates_witness :
  absolute (cwd (repo_at "/r/sub")) ∧
  ((∃ git_dirpath, find_git_directory (repo_at "/r/sub") = Some (Ok git_dirpath)) ∨
   find_git_directory (repo_at "/r/sub") =
     Some (Err (SystemExit 1 ("Not inside a Git repository" +:+ newline)))).
Proof.
  assert (absolute (cwd (repo_at "/r/sub"))) as Habs.
  { right. exists "r"%char, "/sub". by split. }
  split; [done|]. by apply find_git_directory_terminates.
Defined.

(** * The schedule decides what the script leaves open *)

(** With the tips popped in one order or the other, the root gets the hash
    of one child or the other as [commit_hash], and the script prints the
    branches in one order or the other. *)
Example make_commit_graph_fork :
  get_local_branches repo_fork "/r/.git" = Ok [("t2bb", ["main"]); ("p1cc", ["dev"])] ∧
  make_commit_graph (build in_order) 5 repo_fork [("t2bb", ["main"]); ("p1cc", ["dev"])] =
    Some (Ok [ ("t2bb", mkCommitNode "t2bb" ["q1dd"] []);
               ("q1dd", mkCommitNode "t2bb" [] ["t2bb"; "p1cc"]);
               ("p1cc", mkCommitNode "p1cc" ["q1dd"] []) ]) ∧
  make_commit_graph (build second_first) 5 repo_fork
      [("t2bb", ["main"]); ("p1cc", ["dev"])] =
    Some (Ok [ ("p1cc", mkCommitNode "p1cc" ["q1dd"] []);
               ("q1dd", mkCommitNode "p1cc" [] ["p1cc"; "t2bb"]);
               ("t2bb", mkCommitNode "t2bb" ["q1dd"] []) ]).
Proof. vm_compute. done. Qed.

Example topo_order_commits_fork :
  topo_order_commits in_order 5 repo_fork =
    Some ([print "t2bb main"; print ("q1dd=" +:+ newline); print "=";
           print "p1cc dev"; print "q1dd"], Ok ()) ∧
  topo_order_commits second_first 5 repo_fork =
    Some ([print "p1cc dev"; print ("q1dd=" +:+ newline); print "=";
           print "t2bb main"; print "q1dd"], Ok ()).
Proof. vm_compute. done. Qed.

(** The order in which the printer goes through the children of [rrrr] is
    not the order in which the children are printed. *)
Example topo_order_commits_three_tips :
  topo_order_commits in_order 10 repo_three_tips =
    Some ([print "aaaa main"; print ("rrrr=" +:+ newline); print "=";
           print "bbbb side"; print ("rrrr=" +:+ newline); print "=";
           print "dddd lone"; print ("=" +:+ newline); print "=aaaa bbbb";
           print "rrrr"], Ok ()) ∧
  topo_order_commits children_swapped 10 repo_three_tips =
    Some ([print "aaaa main"; print ("rrrr=" +:+ newline); print "=";
           print "bbbb side"; print ("rrrr=" +:+ newline); print "=";
           print "dddd lone"; print ("=" +:+ newline); print "=bbbb aaaa";
           print "rrrr"], Ok ()).
Proof. vm_compute. done. Qed.

(** * A cycle in the object store *)

Lemma make_commit_graph_listed choices fuel fs branch_dict g :
  make_commit_graph choices fuel fs branch_dict = Some (Ok g) →
  (∀ h, h ∈ keys branch_dict → strip h ∈ keys g) ∧
  (∀ c p, c ∈ keys g → listed fs c p → is_parent g c p ∧ p ∈ keys g).
Proof.
  intros Hrun. pose proof (make_commit_graph_ok _ _ _ _ _ Hrun) as Hok.
  destruct (graph_loop_edges _ _ _ _ _ _ _ Hrun (edges_inv_nil _ _))
    as ([visited (Hv & _ & Hkeys & _)] & _ & Hstack).
  split; [done|]. intros c p Hc [Hstrip (ps & Hps & Hp)].
  destruct (Hkeys c Hc Hstrip) as [Hvis|?%elem_of_nil]; [|done].
  destruct (Hv c Hvis) as (ps' & Hps' & Hpar).
  assert (is_parent g c p) as Hcp.
  { apply is_parent_par, Hpar. congruence. }
  split; [done|]. apply (graph_inverse _ Hok) in Hcp. by eapply is_child_key.
Qed.

Lemma listed_strip fs a b : rtc (listed fs) a b → tc (listed fs) b b → strip a = a.
Proof.
  intros Hab Hbb. destruct Hab as [a|a a' b [Hstrip _] _]; [|done].
  inversion Hbb as [? ? [Hstrip _]|? ? ? [Hstrip _] _]; by subst.
Qed.

Lemma listed_rtc_key fs g a b :
  (∀ c p, c ∈ keys g → listed fs c p → is_parent g c p ∧ p ∈ keys g) →
  rtc (listed fs) a b → a ∈ keys g → b ∈ keys g.
Proof.
  intros Hlisted Hab. induction Hab as [|x y z Hxy _ IH]; [done|].
  intros Hx. apply IH. by apply (Hlisted x y).
Qed.

Lemma listed_tc_parent fs g a b :
  (∀ c p, c ∈ keys g → listed fs c p → is_parent g c p ∧ p ∈ keys g) →
  tc (listed fs) a b → a ∈ keys g → tc (is_parent g) a b ∧ b ∈ keys g.
Proof.
  intros Hlisted Hab. induction Hab as [x y Hxy|x y z Hxy _ IH]; intros Hx.
  - destruct (Hlisted x y Hx Hxy). split; [by apply tc_once|done].
  - destruct (Hlisted x y Hx Hxy) as [Hp Hy]. destruct (IH Hy).
    split; [by eapply tc_l|done].
Qed.

(** X21. A cycle in the object store that can be reached from a branch: when
    the objects, from the hash [tip] of a branch on, lead to a hash [a] that
    is its own ancestor (no white space around the hashes on the way), every
    run of the script that ends writes nothing to standard output and has
    the exit code 1, whatever the schedule; it ends with the cycle
    diagnostic of [topo_sort], unless the builder has failed before. *)
Theorem topo_order_commits_object_cycle σ fuel fs git_dirpath branches tip a out r :
  find_git_directory fs = Some (Ok git_dirpath) →
  get_local_branches fs git_dirpath = Ok branches →
  tip ∈ keys branches →
  rtc (listed fs) tip a → tc (listed fs) a a →
  topo_order_commits σ fuel fs = Some (out, r) →
  out = [] ∧ exit_code r = 1 ∧
  (r = Err (SystemExit 1 "Cycle detected in graph") ∨
   ∃ e, make_commit_graph (build σ) fuel fs branches = Some (Err e) ∧ r = Err e).
Proof.
  intros Hgit Hbr Htip Hreach Hcyc. unfold topo_order_commits. rewrite Hgit, Hbr.
  destruct (make_commit_graph (build σ) fuel fs branches) as [[g|e]|] eqn:Hg; [| |done].
  2:{ intros [= <- <-]. split; [done|]. split; [by eapply graph_loop_err|].
      right. by exists e. }
  destruct (make_commit_graph_listed _ _ _ _ _ Hg) as [Htips Hlisted].
  assert (has_cycle g) as Hcycle.
  { assert (tip ∈ keys g) as Hk.
    { rewrite <-(listed_strip _ _ _ Hreach Hcyc). by apply Htips. }
    exists a. eapply listed_tc_parent; [done..|]. by eapply listed_rtc_key. }
  rewrite (topo_sort_cycle (arrange (copy σ) g)).
  - intros [= <- <-]. split; [done|]. split; [done|]. by left.
  - by eapply graph_ok_arrange, make_commit_graph_ok.
  - by apply has_cycle_arrange.
Qed.

Lemma topo_order_commits_object_cycle_witness :
  find_git_directory repo_cycle = Some (Ok "/r/.git") ∧
  get_local_branches repo_cycle "/r/.git" = Ok [("aa11", ["main"])] ∧
  "aa11" ∈ keys [("aa11", ["main"])] ∧
  rtc (listed repo_cycle) "aa11" "aa11" ∧ tc (listed repo_cycle) "aa11" "aa11" ∧
  topo_order_commits in_order 3 repo_cycle =
    Some ([], Err (SystemExit 1 "Cycle detected in graph")) ∧
  exit_code (Err (SystemExit 1 "Cycle detected in graph")) = 1.
Proof.
  assert (listed repo_cycle "aa11" "bb22") as Hab.
  { split; [by vm_compute|]. exists ["bb22"]. split; [by vm_compute|left]. }
  assert (listed repo_cycle "bb22" "aa11") as Hba.
  { split; [by vm_compute|]. exists ["aa11"]. split; [by vm_compute|left]. }
  assert (tc (listed repo_cycle) "aa11" "aa11") as Hcyc
    by (eapply tc_l; [exact Hab|by apply tc_once]).
  assert (topo_order_commits in_order 3 repo_cycle =
            Some ([], Err (SystemExit 1 "Cycle detected in graph"))) as Hrun
    by (by vm_compute).
  split; [by vm_compute|]. split; [by vm_compute|]. split; [left|].
  split; [apply rtc_refl|]. split; [done|]. split; [done|].
  apply (topo_order_commits_object_cycle in_order 3 repo_cycle "/r/.git"
           [("aa11", ["main"])] "aa11" "aa11" [] _
           ltac:(by vm_compute) ltac:(by vm_compute) ltac:(left)
           (rtc_refl _ _) Hcyc Hrun).
Defined.

(** * The script ends *)

(** X22. Started in a directory with an absolute path, and with enough fuel
    for the Graph Builder, the script ends, whatever the schedule: none of
    its loops goes on for ever. *)
Theorem topo_order_commits_terminates σ fuel fs :
  absolute (cwd fs) →
  (∀ git_dirpath branches,
     find_git_directory fs = Some (Ok git_dirpath) →
     get_local_branches fs git_dirpath = Ok branches →
     builder_fuel fs branches ≤ fuel) →
  ∃ out r, topo_order_commits σ fuel fs = Some (out, r).
Proof.
  intros Habs Hfuel. unfold topo_order_commits.
  assert (is_Some (find_git_directory fs)) as [git Hgit].
  { unfold find_git_directory.
    destruct (find_git_loop_terminates fs (S (String.length (cwd fs))) (cwd fs) Habs)
      as [d ->]; [lia|]. by case_decide. }
  rewrite Hgit. destruct git as [git_dirpath|e]; [|by eauto].
  destruct (get_local_branches fs git_dirpath) as [branches|e] eqn:Hbr; [|by eauto].
  specialize (Hfuel _ _ Hgit Hbr).
  destruct (graph_loop_fuel fs branches (builder_fuel fs branches) (build σ)
              (keys branches) [] []) as [r Hr].
  { constructor. }
  { by intros ? ?%elem_of_nil. }
  { intros x Hx. unfold builder_hashes. apply elem_of_app. by left. }
  { unfold builder_fuel. lia. }
  unfold make_commit_graph.
  rewrite (graph_loop_more_fuel fs _ fuel _ _ _ _ _ Hr Hfuel).
  destruct r as [g|e]; [|by eauto].
  destruct (topo_sort_total (arrange (copy σ) g)) as [[ord|e] ->]; [|by eauto].
  destruct (print_topo_sort _ ord branches) as [out r]. by eauto.
Qed.

Lemma topo_order_commits_terminates_witness :
  absolute (cwd repo_fork) ∧
  ∃ out r, topo_order_commits second_first 20 repo_fork = Some (out, r).
Proof.
  assert (absolute (cwd repo_fork)) as Habs.
  { right. exists "r"%char, "". by split. }
  split; [done|].
  apply (topo_order_commits_terminates second_first 20 repo_fork Habs).
  intros git_dirpath branches Hgit Hbr.
  vm_compute in Hgit. injection Hgit as <-.
  vm_compute in Hbr. injection Hbr as <-.
  vm_compute. lia.
Defined.
